(** * Inventory ledger of molar-stock-server: a shallow embedding

    The server is a set of Express route handlers over a PostgreSQL store.
    Each handler below is the source handler with its SQL statements turned
    into functions on an explicit store [db], threaded through a small
    transaction monad: [BEGIN] takes the store as it is, a statement yields
    the next working store, [ROLLBACK] (issued by the handler itself or by
    its [catch] block) discards the working store, [COMMIT] installs it.

    Tables and columns are those the SQL text of the handlers names.
    Descriptive columns no handler below reads back (unit, category,
    supplier, thresholds, timestamps) are left out.  The schema itself is
    not part of the sources.  The constraints of the store are those the
    sources give evidence of:
    - (inventory_id, location_id) is unique in location_inventory: the
      [ON CONFLICT (inventory_id, location_id)] clause of the transfer
      route relies on it;
    - location_inventory.location_id references locations.id: the
      handler of DELETE /api/locations/:id names the constraint
      location_inventory_location_id_fkey;
    - op_supplies.op_id and supply_logs.op_id reference ops.id: the
      handler of DELETE /api/ops/:id names op_supplies_op_id_fkey and
      supply_logs_op_id_fkey;
    - inventory.barcode is unique over the table (inventory_barcode_key)
      or over the rows of one user (inventory_user_barcode_unique): the
      catch blocks of the add and put routes name both, and the store
      records which of them it has.
    The stores of this model hold an integer in every quantity column.
    A statement that would write NULL there (a quantity the request left
    out, bound as NULL) ends the transaction with the error of a NOT NULL
    column; the sources do not say whether the columns admit NULL, and on
    a store that does the handler goes on and commits a row this model
    cannot hold.  What is proved of batches therefore supposes that the
    movements carry their quantity, or speaks of the handler's guard only.
    The arithmetic of the store ([quantity - $1], [quantity + $1]) is
    that of the integers; a quantity computed in JavaScript and bound as
    a parameter has to fit the 4-byte integer column where the scan
    check-in binds it; where a property says when a call succeeds, it
    carries the bounds of that column as hypotheses. *)

From Stdlib Require Import ZArith Ascii String Floats Uint63.
From stdpp Require Import gmap strings list fin_maps pretty.

Local Open Scope string_scope.
Local Open Scope list_scope.
Local Open Scope Z_scope.

(** ** Tables *)

(** inventory: the catalog of the location-based ledger. *)
Record inventory_row := {
  inv_id : Z;
  inv_name : string;
  inv_barcode : option string;
  inv_user_id : Z }.

(** locations *)
Record location_row := {
  loc_id : Z;
  loc_name : string;
  loc_user_id : Z }.

(** ops: the operatories. *)
Record op_row := {
  o_id : Z;
  o_name : string;
  o_user_id : Z }.

(** supplies: the catalog and global pool of the operatory-based ledger.
    node-postgres hands NUMERIC columns to JavaScript as decimal strings;
    [sup_cost_per_unit] holds the double that [parseFloat] reads from that
    string, [None] is NULL. *)
Record supply_row := {
  sup_quantity : Z;
  sup_cost_per_unit : option float }.

(** op_supplies: no uniqueness is known for (op_id, supply_id), so the
    table is a list of rows and a WHERE clause touches every match. *)
Record op_supply_row := {
  os_id : Z;
  os_op_id : Z;
  os_supply_id : Z;
  os_quantity : Z }.

(** supply_logs: the audit log; rows are only ever appended. *)
Record log_row := {
  lg_user_id : Z;
  lg_op_id : Z;
  lg_supply_id : Z;
  lg_quantity : Z;
  lg_action : string;
  lg_unit_cost : float;
  lg_total_cost : float;
  lg_procedure_id : option Z }.

(** The store: its tables, and which of the two uniqueness constraints
    on inventory.barcode it has. *)
Record db := {
  inventory : list inventory_row;
  locations : list location_row;
  location_inventory : gmap (Z * Z) Z;
  supplies : gmap Z supply_row;
  ops : list op_row;
  op_supplies : list op_supply_row;
  supply_logs : list log_row;
  inventory_barcode_key : bool;
  inventory_user_barcode_unique : bool }.

Definition set_inventory (t : list inventory_row) (d : db) : db :=
  {| inventory := t; locations := locations d;
     location_inventory := location_inventory d; supplies := supplies d;
     ops := ops d; op_supplies := op_supplies d; supply_logs := supply_logs d;
     inventory_barcode_key := inventory_barcode_key d;
     inventory_user_barcode_unique := inventory_user_barcode_unique d |}.

Definition set_location_inventory (t : gmap (Z * Z) Z) (d : db) : db :=
  {| inventory := inventory d; locations := locations d;
     location_inventory := t; supplies := supplies d;
     ops := ops d; op_supplies := op_supplies d; supply_logs := supply_logs d;
     inventory_barcode_key := inventory_barcode_key d;
     inventory_user_barcode_unique := inventory_user_barcode_unique d |}.

Definition set_supplies (t : gmap Z supply_row) (d : db) : db :=
  {| inventory := inventory d; locations := locations d;
     location_inventory := location_inventory d; supplies := t;
     ops := ops d; op_supplies := op_supplies d; supply_logs := supply_logs d;
     inventory_barcode_key := inventory_barcode_key d;
     inventory_user_barcode_unique := inventory_user_barcode_unique d |}.

Definition set_op_supplies (t : list op_supply_row) (d : db) : db :=
  {| inventory := inventory d; locations := locations d;
     location_inventory := location_inventory d; supplies := supplies d;
     ops := ops d; op_supplies := t; supply_logs := supply_logs d;
     inventory_barcode_key := inventory_barcode_key d;
     inventory_user_barcode_unique := inventory_user_barcode_unique d |}.

Definition set_supply_logs (t : list log_row) (d : db) : db :=
  {| inventory := inventory d; locations := locations d;
     location_inventory := location_inventory d; supplies := supplies d;
     ops := ops d; op_supplies := op_supplies d; supply_logs := t;
     inventory_barcode_key := inventory_barcode_key d;
     inventory_user_barcode_unique := inventory_user_barcode_unique d |}.

(** ** Responses and errors *)

Inductive json :=
| JMessage (message : string)        (* { message: ... } *)
| JError (error : string)            (* { error: ... } *)
| JSuccess                           (* { success: true } *)
| JLog (row : log_row)               (* the inserted supply_logs row *)
| JOpSupply (row : op_supply_row)    (* the op_supplies row *)
| JSupply (row : supply_row).        (* the supplies row *)

Record response := { status : Z; body : json }.

Definition res_json (j : json) : response := {| status := 200; body := j |}.
Definition res_error (st : Z) (msg : string) : response :=
  {| status := st; body := JError msg |}.

(** A thrown JavaScript error: its message and, for a store error, the
    PostgreSQL code and constraint name. *)
Record js_error := {
  err_message : string;
  err_code : option string;
  err_constraint : option string }.

Definition Error (msg : string) : js_error :=
  {| err_message := msg; err_code := None; err_constraint := None |}.

Definition dquote : string := String "034"%char EmptyString.

(** The errors of the store, as node-postgres throws them. *)

(** 23503 *)
Definition foreign_key_violation (table constraint : string) : js_error :=
  {| err_message := "insert or update on table " +:+ dquote +:+ table +:+ dquote +:+
                    " violates foreign key constraint " +:+ dquote +:+ constraint +:+ dquote;
     err_code := Some "23503"; err_constraint := Some constraint |}.

(** 23505 *)
Definition unique_constraint_violation (constraint : string) : js_error :=
  {| err_message := "duplicate key value violates unique constraint " +:+
                    dquote +:+ constraint +:+ dquote;
     err_code := Some "23505"; err_constraint := Some constraint |}.

(** 22003: a number bound to an integer parameter that does not fit it *)
Definition out_of_range (z : Z) : js_error :=
  {| err_message := "value " +:+ dquote +:+ pretty z +:+ dquote +:+
                    " is out of range for type integer";
     err_code := Some "22003"; err_constraint := None |}.

(** 23502: NULL for a quantity *)
Definition null_quantity (table : string) : js_error :=
  {| err_message := "null value in column " +:+ dquote +:+ "quantity" +:+ dquote +:+
                    " of relation " +:+ dquote +:+ table +:+ dquote +:+
                    " violates not-null constraint";
     err_code := Some "23502"; err_constraint := None |}.

(** ** The transaction monad *)

Inductive step (A : Type) : Type :=
| Next (a : A) (working : db)   (* carry on with the working store *)
| Rollback (r : response)       (* await client.query('ROLLBACK'); return res... *)
| Throw (e : js_error).         (* an exception, on its way to the catch block *)
Arguments Next {A} a working.
Arguments Rollback {A} r.
Arguments Throw {A} e.

Definition tx (A : Type) : Type := db -> step A.

#[export] Instance tx_ret : MRet tx := fun A a d => Next a d.
#[export] Instance tx_bind : MBind tx := fun A B f m d =>
  match m d with
  | Next a d' => f a d'
  | Rollback r => Rollback r
  | Throw e => Throw e
  end.

Definition get : tx db := fun d => Next d d.
Definition exec (f : db -> db) : tx unit := fun d => Next tt (f d).
Definition rollback {A} (r : response) : tx A := fun _ => Rollback r.
Definition throw {A} (e : js_error) : tx A := fun _ => Throw e.

(** [for (const x of xs) { body }]: [continue] is the body returning early. *)
Fixpoint for_of {A} (xs : list A) (body : A -> tx unit) : tx unit :=
  match xs with
  | [] => mret tt
  | x :: rest => body x ≫= fun _ => for_of rest body
  end.

(** [try { BEGIN; ...; COMMIT; res.json(...) } catch (err) { ROLLBACK; ... }]:
    the handler runs against the committed store [d]; only a body that runs
    to its end installs its working store. *)
Definition transact (body : tx response) (on_catch : js_error -> response)
    (d : db) : db * response :=
  match body d with
  | Next r d' => (d', r)
  | Rollback r => (d, r)
  | Throw e => (d, on_catch e)
  end.

(** ** JavaScript numbers *)

(** The double denoting an integer read from the request body: the
    binary64 value nearest to it, the integer itself up to 2^53 in
    magnitude. *)
Definition Number (z : Z) : float :=
  SF2Prim (SpecFloat.binary_normalize prec emax z 0 false).

(** [parseFloat(cost_per_unit || 0)] *)
Definition parseFloat_or_0 (c : option float) : float :=
  match c with Some f => f | None => PrimFloat.of_uint63 0%uint63 end.

(** ** routes/logs.js: POST /api/logs *)

Record log_request := {
  lr_user_id : Z;
  lr_op_id : Z;
  lr_supply_id : Z;
  lr_quantity : Z;
  lr_action : string;
  lr_procedure_id : option Z }.

(** [procedure_id || null] *)
Definition or_null (x : option Z) : option Z :=
  match x with Some 0 => None | _ => x end.

(** [quantity ${action === 'use' ? '-' : '+'} $1] *)
Definition apply_action (action : string) (current q : Z) : Z :=
  if String.eqb action "use" then current - q else current + q.

Definition update_op_supplies_where (op_id supply_id : Z) (f : Z -> Z)
    (t : list op_supply_row) : list op_supply_row :=
  map (fun r =>
         if (os_op_id r =? op_id) && (os_supply_id r =? supply_id)
         then {| os_id := os_id r; os_op_id := os_op_id r;
                 os_supply_id := os_supply_id r; os_quantity := f (os_quantity r) |}
         else r) t.

Definition update_supplies_quantity (id : Z) (f : Z -> Z)
    (t : gmap Z supply_row) : gmap Z supply_row :=
  alter (fun s => {| sup_quantity := f (sup_quantity s);
                     sup_cost_per_unit := sup_cost_per_unit s |}) id t.

(** op_supplies_op_id_fkey, supply_logs_op_id_fkey: is there an operatory
    of that id? *)
Definition op_known (op_id : Z) (d : db) : bool :=
  existsb (fun r => o_id r =? op_id) (ops d).
Arguments op_known : simpl never.

(** [INSERT INTO supply_logs (...) VALUES (...) RETURNING *]: refused for
    an operatory that is not in ops. *)
Definition insert_supply_logs (row : log_row) : tx unit :=
  d ← get;
  if op_known (lg_op_id row) d then
    exec (fun d => set_supply_logs (supply_logs d ++ [row]) d)
  else throw (foreign_key_violation "supply_logs" "supply_logs_op_id_fkey").

Definition post_logs_body (req : log_request) : tx response :=
  d ← get;
  match supplies d !! lr_supply_id req with
  | None => throw (Error "Supply not found")
  | Some supply =>
    let unitCost := parseFloat_or_0 (sup_cost_per_unit supply) in
    let totalCost := PrimFloat.mul unitCost (Number (lr_quantity req)) in
    let change := fun current => apply_action (lr_action req) current (lr_quantity req) in
    exec (fun d => set_op_supplies
            (update_op_supplies_where (lr_op_id req) (lr_supply_id req) change
               (op_supplies d)) d) ;;
    exec (fun d => set_supplies
            (update_supplies_quantity (lr_supply_id req) change (supplies d)) d) ;;
    let logInsert := {| lg_user_id := lr_user_id req; lg_op_id := lr_op_id req;
                        lg_supply_id := lr_supply_id req;
                        lg_quantity := lr_quantity req;
                        lg_action := lr_action req;
                        lg_unit_cost := unitCost; lg_total_cost := totalCost;
                        lg_procedure_id := or_null (lr_procedure_id req) |} in
    insert_supply_logs logInsert ;;
    mret (res_json (JLog logInsert))
  end.

Definition post_logs (req : log_request) : db -> db * response :=
  transact (post_logs_body req)
           (fun _ => res_error 500 "Failed to log supply usage").

(** ** routes/supplies.js: PUT /api/supplies/:id

    The catalog update that changes cost_per_unit; a single statement
    outside any transaction block. *)
Definition put_supplies (id quantity : Z) (cost_per_unit : option float)
    (d : db) : db * response :=
  match supplies d !! id with
  | None => (d, res_error 404 "Supply not found")
  | Some _ =>
    let row := {| sup_quantity := quantity; sup_cost_per_unit := cost_per_unit |} in
    (set_supplies (<[id := row]> (supplies d)) d, res_json (JSupply row))
  end.

(** ** routes/inventory.js *)

(** An element of [req.body.supplies].  An id, a name or a barcode the
    request leaves out is the falsy value of its type, which is how the
    handlers read them: 0 for an id, the empty string for a name, [None]
    for a barcode.  A quantity is an integer, or is left out ([None]):
    the handlers compare it and hand it to the store, and [undefined]
    compares and binds unlike any integer. *)
Record supply_item := {
  isNew : bool;
  inventory_id : Z;
  name : string;
  item_quantity : option Z;
  barcode : option string }.

(** [item.quantity] of a movement that carries one. *)
Definition quantity (item : supply_item) : Z := default 0 (item_quantity item).

(** [quantity <= 0]: false of [undefined]. *)
Definition js_le_0 (q : option Z) : bool :=
  match q with Some q => q <=? 0 | None => false end.

(** [current < quantity]: false of [undefined]. *)
Definition js_lt (current : Z) (q : option Z) : bool :=
  match q with Some q => current <? q | None => false end.

(** [SELECT 1 FROM inventory WHERE id = $1 AND user_id = $2] *)
Definition select_inventory_owned (id userId : Z) (d : db) : list inventory_row :=
  List.filter (fun r => (inv_id r =? id) && (inv_user_id r =? userId)) (inventory d).

(** [SELECT id, quantity FROM location_inventory
     WHERE inventory_id = $1 AND location_id = $2 (FOR UPDATE)] *)
Definition select_location_inventory (inventoryId locationId : Z) : tx (option Z) :=
  d ← get; mret (location_inventory d !! (inventoryId, locationId)).

(** [UPDATE location_inventory SET quantity = f(quantity)] on the row of
    (inventory_id, location_id); the handlers that address the row by the
    [id] they have just selected address that same row. *)
Definition update_location_inventory (inventoryId locationId : Z) (f : Z -> Z) : tx unit :=
  exec (fun d => set_location_inventory
          (alter f (inventoryId, locationId) (location_inventory d)) d).

(** [UPDATE location_inventory SET quantity = quantity - $1] and
    [... quantity + $1] with the quantity of the request as [$1]: a
    quantity left out is bound as NULL, and the NULL the expression then
    yields is not a quantity of this model's stores. *)
Definition update_location_inventory_by (inventoryId locationId : Z)
    (op : Z -> Z -> Z) (q : option Z) : tx unit :=
  match q with
  | Some q => update_location_inventory inventoryId locationId (fun current => op current q)
  | None => throw (null_quantity "location_inventory")
  end.

(** location_inventory_location_id_fkey: is there a location of that id? *)
Definition location_known (locationId : Z) (d : db) : bool :=
  existsb (fun r => loc_id r =? locationId) (locations d).
Arguments location_known : simpl never.

(** [INSERT INTO location_inventory (inventory_id, location_id, quantity, ...)]:
    refused for a location that is not in locations. *)
Definition insert_location_inventory (inventoryId locationId q : Z) : tx unit :=
  d ← get;
  if location_known locationId d then
    exec (fun d => set_location_inventory
            (<[(inventoryId, locationId) := q]> (location_inventory d)) d)
  else
    throw (foreign_key_violation "location_inventory"
             "location_inventory_location_id_fkey").

(** [INSERT ... ON CONFLICT (inventory_id, location_id)
     DO UPDATE SET quantity = location_inventory.quantity + $3]: the row
    there is updated; with no row there, one is inserted. *)
Definition upsert_location_inventory (inventoryId locationId q : Z) : tx unit :=
  d ← get;
  match location_inventory d !! (inventoryId, locationId) with
  | Some current =>
    exec (fun d => set_location_inventory
            (<[(inventoryId, locationId) := current + q]> (location_inventory d)) d)
  | None => insert_location_inventory inventoryId locationId q
  end.

(** The INSERT with the quantity of the request, NULL when left out. *)
Definition insert_location_inventory_of (inventoryId locationId : Z)
    (q : option Z) : tx unit :=
  match q with
  | Some q => insert_location_inventory inventoryId locationId q
  | None => throw (null_quantity "location_inventory")
  end.

Definition is_empty {A} (l : list A) : bool :=
  match l with [] => true | _ => false end.

(** *** POST /api/inventory/consume *)

Definition consume_item (userId location : Z) (item : supply_item) : tx unit :=
  let inventoryId := inventory_id item in
  let quantityToConsume := item_quantity item in
  if (inventoryId =? 0) || js_le_0 quantityToConsume then mret tt
  else
    d ← get;
    if is_empty (select_inventory_owned inventoryId userId d) then
      rollback (res_error 403 ("Unauthorized access to item ID " +:+ pretty inventoryId))
    else
      rows ← select_location_inventory inventoryId location;
      match rows with
      | None =>
        rollback (res_error 404 ("Item ID " +:+ pretty inventoryId +:+
                                 " not found at location " +:+ pretty location))
      | Some currentQty =>
        if js_lt currentQty quantityToConsume then
          rollback (res_error 400 ("Not enough quantity of item ID " +:+ pretty inventoryId +:+
                                   " at location " +:+ pretty location))
        else
          update_location_inventory_by inventoryId location Z.sub quantityToConsume
      end.

Definition post_inventory_consume (userId location : Z) (items : list supply_item)
    (d : db) : db * response :=
  if (location =? 0) || is_empty items then
    (d, res_error 400 "Missing location or supplies")
  else
    transact
      (for_of items (consume_item userId location) ;;
       mret (res_json (JMessage "Inventory consumed successfully")))
      (fun _ => res_error 500 "Server error while consuming inventory") d.

(** *** POST /api/inventory/transfer *)

Definition post_inventory_transfer
    (userId inventory_id source_location_id destination_location_id quantity : Z)
    (d : db) : db * response :=
  if (inventory_id =? 0) || (source_location_id =? 0) ||
     (destination_location_id =? 0) || (quantity =? 0) then
    (d, res_error 400 "Missing required fields")
  else
    transact
      (d ← get;
       if is_empty (select_inventory_owned inventory_id userId d) then
         rollback (res_error 403 "Unauthorized access to inventory")
       else
         sourceResult ← select_location_inventory inventory_id source_location_id;
         match sourceResult with
         | None => throw (Error "Source inventory not found")
         | Some sourceQty =>
           if sourceQty <? quantity then
             throw (Error "Not enough inventory at source location")
           else
             update_location_inventory inventory_id source_location_id
               (fun q => q - quantity) ;;
             upsert_location_inventory inventory_id destination_location_id quantity ;;
             mret (res_json JSuccess)
         end)
      (fun err => res_error 500
         (if String.eqb (err_message err) "" then "Transfer failed" else err_message err))
      d.

(** *** ILIKE

    PostgreSQL's pattern match, as the statement [name ILIKE $1] applies
    it with the request's name as the pattern.  The matcher is not part
    of the sources: what follows is [MatchText] of PostgreSQL's
    like_match.c, with characters compared up to case as ILIKE compares
    them.  [%] stands for any run of characters, [_] for any one
    character, and a backslash makes the next pattern character literal;
    a backslash with no character behind it raises an error where the
    matcher comes to it.  Case folding is that of ASCII. *)

Definition lower (c : ascii) : ascii :=
  let n := N_of_ascii c in
  if ((65 <=? n) && (n <=? 90))%N then ascii_of_N (n + 32) else c.

Definition same_char (a b : ascii) : bool := Ascii.eqb (lower a) (lower b).

Definition percent : ascii := "%"%char.
Definition underscore : ascii := "_"%char.
Definition backslash : ascii := "\"%char.

(** What [MatchText] comes to: its three return values, or the error it
    raises.  [LIKE_ABORT] is a failure known to hold of every later
    starting point in the text as well. *)
Inductive like_result := LIKE_TRUE | LIKE_FALSE | LIKE_ABORT | LIKE_ERROR.

(** [while (plen > 0 && *p == '%') NextByte(p, plen)] leaves nothing. *)
Fixpoint only_percents (p : string) : bool :=
  match p with
  | EmptyString => true
  | String c p1 => Ascii.eqb c percent && only_percents p1
  end.

(** The search for a text position at which the rest of the pattern
    matches: [firstpat] is the first character of that rest, [rest] the
    match of what follows it.
    [while (tlen > 0) { if (GETCHAR( *t ) == firstpat) { matched =
    MatchText(t, tlen, p, plen); if (matched != LIKE_FALSE) return matched; }
    NextChar(t, tlen); } return LIKE_ABORT;] *)
Fixpoint scan_text (firstpat : ascii) (rest : string -> like_result) (t : string)
    : like_result :=
  match t with
  | EmptyString => LIKE_ABORT
  | String x t' =>
    if same_char firstpat x then
      match rest t' with
      | LIKE_FALSE => scan_text firstpat rest t'
      | matched => matched
      end
    else scan_text firstpat rest t'
  end.

(** [MatchText p t] is the loop [while (tlen > 0 && plen > 0)] and what
    follows it; [after_percent p t] is the processing of a [%], with [p]
    the pattern behind it. *)
Fixpoint MatchText (p : string) {struct p} : string -> like_result :=
  match p with
  | EmptyString => fun t =>
      match t with EmptyString => LIKE_TRUE | String _ _ => LIKE_FALSE end
  | String c p1 => fun t =>
    match t with
    | EmptyString => if only_percents (String c p1) then LIKE_TRUE else LIKE_ABORT
    | String x t' =>
      if Ascii.eqb c backslash then
        match p1 with
        | EmptyString => LIKE_ERROR
        | String e p2 => if same_char e x then MatchText p2 t' else LIKE_FALSE
        end
      else if Ascii.eqb c percent then after_percent p1 (String x t')
      else if Ascii.eqb c underscore then MatchText p1 t'
      else if same_char c x then MatchText p1 t' else LIKE_FALSE
    end
  end
with after_percent (p : string) {struct p} : string -> like_result :=
  match p with
  | EmptyString => fun _ => LIKE_TRUE
  | String c p1 => fun t =>
    if Ascii.eqb c percent then after_percent p1 t
    else if Ascii.eqb c underscore then
      match t with
      | EmptyString => LIKE_ABORT
      | String _ t' => after_percent p1 t'
      end
    else if Ascii.eqb c backslash then
      match p1 with
      | EmptyString => LIKE_ERROR
      | String e p2 => scan_text e (MatchText p2) t
      end
    else scan_text c (MatchText p1) t
  end.

(** [text ILIKE pattern]: true where [MatchText] returns [LIKE_TRUE];
    [None] where it raises. *)
Definition ilike (pattern text : string) : option bool :=
  match MatchText pattern text with
  | LIKE_TRUE => Some true
  | LIKE_FALSE | LIKE_ABORT => Some false
  | LIKE_ERROR => None
  end.

(** [SELECT id FROM inventory WHERE name ILIKE $1 AND user_id = $2], rows
    in table order; [None] when the pattern match raises on a row of the
    user. *)
Fixpoint select_inventory_ilike (pattern : string) (userId : Z)
    (t : list inventory_row) : option (list inventory_row) :=
  match t with
  | [] => Some []
  | r :: t' =>
    if inv_user_id r =? userId then
      match ilike pattern (inv_name r) with
      | None => None
      | Some matched =>
        match select_inventory_ilike pattern userId t' with
        | None => None
        | Some rest => Some (if matched then r :: rest else rest)
        end
      end
    else select_inventory_ilike pattern userId t'
  end.

Definition invalid_escape_sequence : js_error :=
  {| err_message := "LIKE pattern must not end with escape character";
     err_code := Some "22025"; err_constraint := None |}.

(** [SELECT id, name FROM inventory WHERE barcode = $1 AND user_id = $2] *)
Definition select_inventory_barcode (code : string) (userId : Z) (d : db)
    : list inventory_row :=
  List.filter (fun r => bool_decide (inv_barcode r = Some code) && (inv_user_id r =? userId))
              (inventory d).

(** The key of the next inserted row: a key no row of the table has, one
    above the largest.  The sequence behind the store's serial column
    hands out fresh keys too, never a key it gave before, so it may be
    ahead of this one after a delete or a rollback; the ids the examples
    below show are those of a store whose sequence is not ahead. *)
Definition next_inventory_id (t : list inventory_row) : Z :=
  1 + foldr Z.max 0 (map inv_id t).

(** The uniqueness constraint on barcode, if any, that a row of user
    [userId] carrying [code] breaks beside the rows [others]: a barcode
    no two rows may share (inventory_barcode_key), or no two rows of one
    user (inventory_user_barcode_unique).  NULL breaks neither. *)
Definition barcode_conflict (code : option string) (userId : Z)
    (others : list inventory_row) (d : db) : option string :=
  match code with
  | None => None
  | Some c =>
    if inventory_barcode_key d &&
       existsb (fun r => bool_decide (inv_barcode r = Some c)) others
    then Some "inventory_barcode_key"
    else if inventory_user_barcode_unique d &&
            existsb (fun r => bool_decide (inv_barcode r = Some c) &&
                              (inv_user_id r =? userId)) others
    then Some "inventory_user_barcode_unique"
    else None
  end.
Arguments barcode_conflict : simpl never.

(** [INSERT INTO inventory (name, barcode, ..., user_id, ...) RETURNING id]

    The id is a fresh key, the least above those of the table; the
    sequence of the store may hand out a larger one. *)
Definition insert_inventory (nm : string) (code : option string) (userId : Z) : tx Z :=
  d ← get;
  match barcode_conflict code userId (inventory d) d with
  | Some constraint => throw (unique_constraint_violation constraint)
  | None =>
    let id := next_inventory_id (inventory d) in
    exec (set_inventory (inventory d ++
            [{| inv_id := id; inv_name := nm; inv_barcode := code;
                inv_user_id := userId |}])) ;;
    mret id
  end.

(** a truthy [barcode] *)
Definition truthy_barcode (code : option string) : option string :=
  match code with
  | Some s => if String.eqb s "" then None else Some s
  | None => None
  end.

(** [item.name || inventoryId] *)
Definition name_or_id (item : supply_item) (inventoryId : Z) : string :=
  if String.eqb (name item) "" then pretty inventoryId else name item.

(** *** POST /api/inventory/add *)

(** The [if (item.isNew) ... else ...] block: the inventory id the
    movement applies to, or [None] where the source says [continue]. *)
Definition resolve_inventory_id (userId : Z) (item : supply_item) : tx (option Z) :=
  if isNew item then
    if String.eqb (name item) "" || js_le_0 (item_quantity item) then mret None
    else
      d ← get;
      match select_inventory_ilike (name item) userId (inventory d) with
      | None => throw invalid_escape_sequence
      | Some (r :: _) => mret (Some (inv_id r))
      | Some [] =>
        match truthy_barcode (barcode item) with
        | Some code =>
          match select_inventory_barcode code userId d with
          | existing :: _ =>
            rollback (res_error 400
              ("Barcode " +:+ dquote +:+ code +:+ dquote +:+ " is already used by item " +:+
               dquote +:+ inv_name existing +:+ dquote))
          | [] => id ← insert_inventory (name item) (Some code) userId; mret (Some id)
          end
        | None => id ← insert_inventory (name item) None userId; mret (Some id)
        end
      end
  else
    let inventoryId := inventory_id item in
    if (inventoryId =? 0) || js_le_0 (item_quantity item) then mret None
    else
      d ← get;
      if is_empty (select_inventory_owned inventoryId userId d) then
        rollback (res_error 403 "Inventory does not belong to current user.")
      else mret (Some inventoryId).

Definition add_item (userId : Z) (destination : string) (location commonAreaId : Z)
    (item : supply_item) : tx unit :=
  let targetLocationId :=
    if String.eqb destination "common_area" then commonAreaId else location in
  resolved ← resolve_inventory_id userId item;
  match resolved with
  | None => mret tt
  | Some inventoryId =>
    targetLocationId ←
      (if String.eqb destination "transfer" then
         fromRows ← select_location_inventory inventoryId commonAreaId;
         match fromRows with
         | Some available =>
           if js_lt available (item_quantity item) then
             rollback (res_error 400
               ("Not enough " +:+ dquote +:+ name_or_id item inventoryId +:+ dquote +:+
                " in Common Area to transfer."))
           else
             update_location_inventory_by inventoryId commonAreaId Z.sub
               (item_quantity item) ;;
             mret location
         | None =>
           rollback (res_error 400
             ("Not enough " +:+ dquote +:+ name_or_id item inventoryId +:+ dquote +:+
              " in Common Area to transfer."))
         end
       else mret targetLocationId);
    if targetLocationId =? 0 then
      rollback (res_error 400
        ("No valid location selected for " +:+ dquote +:+ name_or_id item inventoryId +:+
         dquote +:+ "."))
    else
      locRows ← select_location_inventory inventoryId targetLocationId;
      match locRows with
      | Some _ =>
        update_location_inventory_by inventoryId targetLocationId Z.add
          (item_quantity item)
      | None =>
        insert_location_inventory_of inventoryId targetLocationId (item_quantity item)
      end
  end.

(** [SELECT id FROM locations WHERE name = $1 AND user_id = $2] *)
Definition select_location_named (nm : string) (userId : Z) (d : db) : list location_row :=
  List.filter (fun r => String.eqb (loc_name r) nm && (loc_user_id r =? userId))
              (locations d).

Definition add_on_catch (err : js_error) : response :=
  if bool_decide (err_code err = Some "23505") &&
     (bool_decide (err_constraint err = Some "inventory_barcode_key") ||
      bool_decide (err_constraint err = Some "inventory_user_barcode_unique"))
  then res_error 400 "This barcode is already used by another item in your inventory."
  else res_error 500 "Server error while adding inventory".

Definition post_inventory_add (userId : Z) (destination : string) (location : Z)
    (items : list supply_item) (d : db) : db * response :=
  transact
    (d ← get;
     match select_location_named "Common Area" userId d with
     | [] => rollback (res_error 400 "Common Area not found for this user.")
     | r :: _ =>
       let commonAreaId := loc_id r in
       if commonAreaId =? 0 then
         rollback (res_error 400 "Common Area not found for this user.")
       else
         for_of items (add_item userId destination location commonAreaId) ;;
         mret (res_json (JMessage "Inventory added successfully!"))
     end)
    add_on_catch d.

(** ** routes/opSupplies.js: POST /api/op-supplies (assign to an operatory)

    [quantity] is what [parseInt(quantity, 10)] makes of the request
    field: [None] is NaN. *)

(** [SELECT * FROM op_supplies WHERE op_id = $1 AND supply_id = $2] *)
Definition select_op_supplies (op_id supply_id : Z) (d : db) : list op_supply_row :=
  List.filter (fun r => (os_op_id r =? op_id) && (os_supply_id r =? supply_id))
              (op_supplies d).

(** The key of the next inserted row, fresh as [next_inventory_id] is. *)
Definition next_op_supply_id (t : list op_supply_row) : Z :=
  1 + foldr Z.max 0 (map os_id t).

Definition post_op_supplies (op_id supply_id : Z) (quantity : option Z)
    (d : db) : db * response :=
  match quantity with
  | None => (d, res_error 400 "Quantity must be greater than zero")
  | Some qty =>
    if qty <=? 0 then (d, res_error 400 "Quantity must be greater than zero")
    else
      transact
        (d ← get;
         match supplies d !! supply_id with
         | None => rollback (res_error 404 "Supply not found")
         | Some supplyRes =>
           let unassigned := sup_quantity supplyRes in
           if unassigned <? qty then
             rollback (res_error 400
               ("Not enough unassigned inventory. Only " +:+ pretty unassigned +:+
                " available."))
           else
             exec (fun d => set_supplies
                     (update_supplies_quantity supply_id (fun q => q - qty) (supplies d)) d) ;;
             d ← get;
             match select_op_supplies op_id supply_id d with
             | first :: _ =>
               exec (fun d => set_op_supplies
                       (update_op_supplies_where op_id supply_id (fun q => q + qty)
                          (op_supplies d)) d) ;;
               mret (res_json (JOpSupply
                       {| os_id := os_id first; os_op_id := os_op_id first;
                          os_supply_id := os_supply_id first;
                          os_quantity := os_quantity first + qty |}))
             | [] =>
               let inserted := {| os_id := next_op_supply_id (op_supplies d);
                                  os_op_id := op_id; os_supply_id := supply_id;
                                  os_quantity := qty |} in
               if op_known op_id d then
                 exec (fun d => set_op_supplies (op_supplies d ++ [inserted]) d) ;;
                 mret (res_json (JOpSupply inserted))
               else
                 throw (foreign_key_violation "op_supplies" "op_supplies_op_id_fkey")
             end
         end)
        (fun _ => res_error 500 "Could not assign supply to operatory") d
  end.

(** ** routes/barcode.js *)

(** The 4-byte integers of the quantity column. *)
Definition int4 (z : Z) : bool := (-2147483648 <=? z) && (z <=? 2147483647).
Arguments int4 : simpl never.

(** A number computed by the handler, bound to an integer parameter. *)
Definition bind_integer (z : Z) : tx unit :=
  if int4 z then mret tt else throw (out_of_range z).

(** *** POST /api/barcode/checkin (scan check-in) *)
Definition post_barcode_checkin (inventory_id : Z) (quantity : option Z)
    (location_id : Z) (d : db) : db * response :=
  match quantity with
  | None => (d, res_error 400 "Invalid quantity")
  | Some qty =>
    transact
      (result ← select_location_inventory inventory_id location_id;
       let currentQty := default 0 result in
       let newQty := currentQty + qty in
       if newQty <? 0 then
         rollback (res_error 400 "Insufficient quantity at location")
       else
         match result with
         | Some _ =>
           bind_integer newQty ;;
           update_location_inventory inventory_id location_id (fun _ => newQty) ;;
           mret (res_json JSuccess)
         | None =>
           if qty <? 0 then
             rollback (res_error 400
               "Cannot subtract from non-existent inventory at location")
           else
             bind_integer qty ;;
             insert_location_inventory inventory_id location_id qty ;;
             mret (res_json JSuccess)
         end)
      (fun _ => res_error 500 "Check-in failed") d
  end.

(** *** POST /api/barcode/consume (scan consume) *)

(** [SELECT user_id FROM inventory WHERE id = $1] *)
Definition select_inventory_by_id (id : Z) (d : db) : list inventory_row :=
  List.filter (fun r => inv_id r =? id) (inventory d).

Definition post_barcode_consume (userId inventory_id : Z) (quantity : option Z)
    (location_id : Z) (d : db) : db * response :=
  match quantity with
  | None => (d, res_error 400 "Invalid quantity")
  | Some qty =>
    if qty <=? 0 then (d, res_error 400 "Invalid quantity")
    else
      transact
        (d ← get;
         let invCheck := select_inventory_by_id inventory_id d in
         if match invCheck with
            | [] => true
            | r :: _ => negb (inv_user_id r =? userId)
            end
         then rollback (res_error 403 "Unauthorized: Inventory does not belong to this user.")
         else
           result ← select_location_inventory inventory_id location_id;
           match result with
           | None => rollback (res_error 400 "Inventory not found at this location")
           | Some currentQty =>
             if currentQty <? qty then
               rollback (res_error 400 "Insufficient quantity at location")
             else
               update_location_inventory inventory_id location_id (fun q => q - qty) ;;
               mret (res_json JSuccess)
           end)
        (fun _ => res_error 500 "Consume failed") d
  end.

(** ** db/utils.js: the retry helpers *)

(** What one awaited store call comes to. *)
Inductive settled (A : Type) : Type :=
| Resolved (a : A)
| Rejected (error : js_error).
Arguments Resolved {A} a.
Arguments Rejected {A} error.

(** What the helper's caller sees: the value returned or the error
    thrown ([None] is [undefined], thrown when the loop never ran). *)
Inductive outcome (A : Type) : Type :=
| Returned (a : A)
| Thrown (lastError : option js_error).
Arguments Returned {A} a.
Arguments Thrown {A} lastError.

(** What the helper does besides: the attempts it makes, numbered from 1,
    and the delays in milliseconds it waits between them. *)
Inductive event :=
| Attempt (attempt : nat)
| Sleep (delay : Z).

(** The codes after which the helpers throw at once. *)
Definition dont_retry (error : js_error) : bool :=
  bool_decide (err_code error = Some "23505") ||
  bool_decide (err_code error = Some "23503") ||
  bool_decide (err_code error = Some "42P01") ||
  bool_decide (err_code error = Some "42703").

(** [Math.min(1000 * Math.pow(2, attempt - 1), 5000)] *)
Definition backoff (attempt : nat) : Z :=
  Z.min (1000 * 2 ^ (Z.of_nat attempt - 1)) 5000.

(** [for (let attempt = 1; attempt <= retries; attempt++)] of [query],
    with [remaining = retries + 1 - attempt] iterations to go; [pool_query]
    gives what the store answers at each attempt. *)
Fixpoint query_loop {A} (pool_query : nat -> settled A) (retries remaining : nat)
    (lastError : option js_error) : list event * outcome A :=
  match remaining with
  | O => ([], Thrown lastError)
  | S remaining' =>
    let attempt := (retries - remaining')%nat in
    match pool_query attempt with
    | Resolved result => ([Attempt attempt], Returned result)
    | Rejected error =>
      if dont_retry error then ([Attempt attempt], Thrown (Some error))
      else
        let wait := if (attempt <? retries)%nat then [Sleep (backoff attempt)] else [] in
        let '(events, out) := query_loop pool_query retries remaining' (Some error) in
        (Attempt attempt :: wait ++ events, out)
    end
  end.

Definition query {A} (pool_query : nat -> settled A) (retries : nat)
    : list event * outcome A :=
  query_loop pool_query retries retries None.

(** [transaction]: each attempt takes a client from the pool, outside the
    [try] block, so a failure to connect ([pool_connect] answering an
    error) leaves the helper at once.  The callback runs between BEGIN and
    COMMIT against the committed store; what it resolves to carries its
    working store, which COMMIT installs; a rejected attempt is rolled
    back before the error is looked at. *)
Fixpoint transaction_loop {A} (pool_connect : nat -> option js_error)
    (callback : nat -> db -> settled (A * db))
    (retries remaining : nat) (lastError : option js_error) (d : db)
    : db * list event * outcome A :=
  match remaining with
  | O => (d, [], Thrown lastError)
  | S remaining' =>
    let attempt := (retries - remaining')%nat in
    match pool_connect attempt with
    | Some unavailable => (d, [Attempt attempt], Thrown (Some unavailable))
    | None =>
      match callback attempt d with
      | Resolved (result, working) => (working, [Attempt attempt], Returned result)
      | Rejected error =>
        if dont_retry error then (d, [Attempt attempt], Thrown (Some error))
        else
          let wait := if (attempt <? retries)%nat then [Sleep (backoff attempt)] else [] in
          let '(d', events, out) :=
            transaction_loop pool_connect callback retries remaining' (Some error) d in
          (d', Attempt attempt :: wait ++ events, out)
      end
    end
  end.

Definition transaction {A} (pool_connect : nat -> option js_error)
    (callback : nat -> db -> settled (A * db)) (retries : nat)
    (d : db) : db * list event * outcome A :=
  transaction_loop pool_connect callback retries retries None d.

(** [retries = 3] *)
Definition default_retries : nat := 3.

(** ** Reading the ledger *)

(** The quantity of an item at a location; an absent row holds nothing. *)
Definition quantity_at (d : db) (inventoryId locationId : Z) : Z :=
  default 0 (location_inventory d !! (inventoryId, locationId)).

(** Every quantity of every stock table is at least zero. *)
Definition non_negative (d : db) : Prop :=
  map_Forall (fun _ q => 0 ≤ q) (location_inventory d) ∧
  map_Forall (fun _ s => 0 ≤ sup_quantity s) (supplies d) ∧
  Forall (fun r => 0 ≤ os_quantity r) (op_supplies d).

#[export] Instance non_negative_dec (d : db) : Decision (non_negative d).
Proof. unfold non_negative. apply _. Defined.

(** Case-insensitive equality of names. *)
Fixpoint fold_case (s : string) : string :=
  match s with
  | EmptyString => EmptyString
  | String c s' => String (lower c) (fold_case s')
  end.

Definition same_name (a b : string) : Prop := fold_case a = fold_case b.

Fixpoint has_backslash (s : string) : bool :=
  match s with
  | EmptyString => false
  | String c s' => Ascii.eqb c backslash || has_backslash s'
  end.

(** ** Sample stores and requests *)

Definition existing_item (id q : Z) : supply_item :=
  {| isNew := false; inventory_id := id; name := ""; item_quantity := Some q;
     barcode := None |}.

Definition new_item (nm : string) (q : Z) : supply_item :=
  {| isNew := true; inventory_id := 0; name := nm; item_quantity := Some q;
     barcode := None |}.

(** The practice of user 7: Gauze and Gloves, both stocked in Room A. *)
Definition practice : db :=
  {| inventory :=
       [ {| inv_id := 1; inv_name := "Gauze"; inv_barcode := None; inv_user_id := 7 |};
         {| inv_id := 2; inv_name := "Gloves"; inv_barcode := Some "123";
            inv_user_id := 7 |} ];
     locations :=
       [ {| loc_id := 10; loc_name := "Common Area"; loc_user_id := 7 |};
         {| loc_id := 11; loc_name := "Room A"; loc_user_id := 7 |};
         {| loc_id := 12; loc_name := "Room B"; loc_user_id := 7 |} ];
     location_inventory := {[ (1, 11) := 6; (2, 11) := 5 ]};
     supplies := ∅; ops := []; op_supplies := []; supply_logs := [];
     inventory_barcode_key := false; inventory_user_barcode_unique := true |}.

(** The practice once it also stocks pads in sizes S and M, two of them
    in the Common Area. *)
Definition pads : inventory_row :=
  {| inv_id := 3; inv_name := "Pads S\M"; inv_barcode := None; inv_user_id := 7 |}.

Definition stockroom : db :=
  set_location_inventory (<[(3, 10) := 2]> (location_inventory practice))
    (set_inventory (inventory practice ++ [pads]) practice).

(** An operatory ledger: three units of supply 1, all assigned to
    operatory 1, at 2.5 a unit; operatory 2 holds nothing. *)
Definition operatory : db :=
  {| inventory := []; locations := []; location_inventory := ∅;
     supplies := {[ 1 := {| sup_quantity := 3; sup_cost_per_unit := Some 2.5%float |} ]};
     ops := [ {| o_id := 1; o_name := "Op 1"; o_user_id := 7 |};
              {| o_id := 2; o_name := "Op 2"; o_user_id := 7 |} ];
     op_supplies :=
       [ {| os_id := 1; os_op_id := 1; os_supply_id := 1; os_quantity := 3 |} ];
     supply_logs := [];
     inventory_barcode_key := false; inventory_user_barcode_unique := true |}.

(** The decimals 0.10 and 0.30 as [parseFloat] reads them: the binary64
    numbers nearest to them. *)
Definition tenth : float := 0x1.999999999999ap-4%float.
Definition three_tenths : float := 0x1.3333333333333p-2%float.

(** The same ledger with supply 1 at 0.10 a unit. *)
Definition priced_by_the_tenth : db :=
  set_supplies {[ 1 := {| sup_quantity := 3; sup_cost_per_unit := Some tenth |} ]}
    operatory.

Definition use_supply (q : Z) : log_request :=
  {| lr_user_id := 7; lr_op_id := 1; lr_supply_id := 1; lr_quantity := q;
     lr_action := "use"; lr_procedure_id := None |}.

(** A consume batch whose second movement asks for a quantity below zero. *)
Definition batch_with_invalid : list supply_item :=
  [existing_item 1 4; existing_item 2 (-1); existing_item 2 1].

(** A consume batch whose second movement asks for more than is held. *)
Definition batch_with_shortage : list supply_item :=
  [existing_item 1 4] ++ existing_item 2 10 :: [existing_item 1 1].

Definition not_null_violation : js_error :=
  {| err_message := "null value in column violates not-null constraint";
     err_code := Some "23502"; err_constraint := None |}.

Definition connection_reset : js_error :=
  {| err_message := "read ECONNRESET"; err_code := Some "ECONNRESET";
     err_constraint := None |}.

Definition unique_violation : js_error :=
  {| err_message := "duplicate key value violates unique constraint";
     err_code := Some "23505"; err_constraint := None |}.

(** The audit log holds exactly the rows [L]. *)
Definition logs_are (L : list log_row) (d : db) : Prop := supply_logs d = L.

(** ** A logic for transaction bodies *)

(** Started in a store satisfying [P], the body [m] rolls back, throws, or
    carries on with a value and a working store satisfying [Q]. *)
Definition hoare {A} (P : db -> Prop) (m : tx A) (Q : A -> db -> Prop) : Prop :=
  ∀ d, P d -> match m d with Next a d' => Q a d' | _ => True end.

(** ** routes/inventory.js: the correction and removal routes *)

(** [DELETE FROM location_inventory WHERE inventory_id = $1 AND
     location_id = $2 RETURNING *]: the row deleted, if there was one. *)
Definition delete_location_inventory (inventoryId locationId : Z) : tx (option Z) :=
  fun d =>
    Next (location_inventory d !! (inventoryId, locationId))
         (set_location_inventory
            (delete (inventoryId, locationId) (location_inventory d)) d).

(** [SELECT 1 FROM location_inventory WHERE inventory_id = $1 LIMIT 1] *)
Definition select_location_inventory_of (inventoryId : Z) (d : db)
    : list (Z * Z * Z) :=
  List.filter (fun row => row.1.1 =? inventoryId) (map_to_list (location_inventory d)).

(** [DELETE FROM inventory WHERE id = $1] *)
Definition delete_inventory (id : Z) : tx unit :=
  exec (fun d => set_inventory
          (List.filter (fun r => negb (inv_id r =? id)) (inventory d)) d).

(** *** DELETE /api/inventory/:inventoryId/location/:locationId *)
Definition delete_inventory_location (userId inventoryId locationId : Z)
    (d : db) : db * response :=
  transact
    (d ← get;
     if is_empty (select_inventory_owned inventoryId userId d) then
       rollback (res_error 403 "You do not have permission to delete this inventory item")
     else
       result ← delete_location_inventory inventoryId locationId;
       match result with
       | None => rollback (res_error 404 "Inventory item at that location not found")
       | Some _ =>
         d ← get;
         (if is_empty (select_location_inventory_of inventoryId d)
          then delete_inventory inventoryId else mret tt) ;;
         mret (res_json (JMessage "Item deleted from location successfully"))
       end)
    (fun _ => res_error 500 "Server error while deleting inventory") d.

(** [SELECT id, name FROM inventory
     WHERE barcode = $1 AND id != $2 AND user_id = $3] *)
Definition select_inventory_barcode_other (code : string) (id userId : Z) (d : db)
    : list inventory_row :=
  List.filter (fun r => bool_decide (inv_barcode r = Some code) &&
                        negb (inv_id r =? id) && (inv_user_id r =? userId))
              (inventory d).

(** [UPDATE inventory SET name = $1, barcode = $2, ... WHERE id = $7]

    [id] is the key of inventory.  The new version of the row is written
    after the rows in place, which is where a later SELECT without ORDER
    BY finds it. *)
Definition update_inventory (id : Z) (nm : string) (code : option string) : tx unit :=
  d ← get;
  let others := List.filter (fun r => negb (inv_id r =? id)) (inventory d) in
  match List.filter (fun r => inv_id r =? id) (inventory d) with
  | [] => mret tt
  | r :: rows =>
    match barcode_conflict code (inv_user_id r) others d with
    | Some constraint => throw (unique_constraint_violation constraint)
    | None =>
      exec (set_inventory
              (others ++
               map (fun r => {| inv_id := inv_id r; inv_name := nm; inv_barcode := code;
                                inv_user_id := inv_user_id r |}) (r :: rows)))
    end
  end.

Definition put_on_catch (err : js_error) : response :=
  if bool_decide (err_code err = Some "23505") &&
     (bool_decide (err_constraint err = Some "inventory_barcode_key") ||
      bool_decide (err_constraint err = Some "inventory_user_barcode_unique"))
  then res_error 400 "This barcode is already used by another item in your inventory."
  else res_error 500
         (if String.eqb (err_message err) "" then "Server error while updating inventory"
          else err_message err).

(** *** PUT /api/inventory/:id

    The fields of the body the model keeps are name, barcode, location_id
    and quantity. *)
Definition put_inventory (userId id : Z) (nm : string) (code : option string)
    (location_id qty : Z) (d : db) : db * response :=
  transact
    (d ← get;
     if is_empty (select_inventory_owned id userId d) then
       rollback (res_error 403 "You do not have access to this inventory item")
     else
       (match truthy_barcode code with
        | Some c =>
          match select_inventory_barcode_other c id userId d with
          | existing :: _ =>
            rollback (res_error 400
              ("Barcode " +:+ dquote +:+ c +:+ dquote +:+ " is already used by item " +:+
               dquote +:+ inv_name existing +:+ dquote))
          | [] => mret tt
          end
        | None => mret tt
        end) ;;
       update_inventory id nm code ;;
       rows ← select_location_inventory id location_id;
       (match rows with
        | Some _ => update_location_inventory id location_id (fun _ => qty)
        | None => insert_location_inventory id location_id qty
        end) ;;
       mret (res_json (JMessage "Inventory updated successfully")))
    put_on_catch d.

(** ** routes/barcode.js: GET /api/barcode/lookup/:barcode *)

(** What a read route answers: the rows found, or a status and an error. *)
Inductive answer (A : Type) : Type :=
| Found (a : A)
| Failed (st : Z) (error : string).
Arguments Found {A} a.
Arguments Failed {A} st error.

Definition get_barcode_lookup (userId : Z) (code : string) (d : db)
    : answer inventory_row :=
  match select_inventory_barcode code userId d with
  | [] => Failed 404 "Barcode not found"
  | r :: _ => Found r
  end.

(** ** routes/opSupplies.js: DELETE /api/op-supplies/:id *)
Definition delete_op_supplies (id : Z) (d : db) : db * response :=
  transact
    (d ← get;
     match List.filter (fun r => os_id r =? id) (op_supplies d) with
     | [] => rollback (res_error 404 "Op supply not found")
     | _ :: _ =>
       exec (fun d => set_op_supplies
               (List.filter (fun r => negb (os_id r =? id)) (op_supplies d)) d) ;;
       mret (res_json JSuccess)
     end)
    (fun _ => res_error 500 "Could not delete supply") d.

(** ** The server, one request after another *)

(** The requests of the eleven routes above, with the fields each handler
    reads.  The other routes of the server are not part of a run: among
    them POST /api/barcode/assign and POST /api/barcode/create write the
    catalog, and POST /api/barcode/create, POST /api/supplies and PATCH
    /api/op-supplies/:id write a quantity as the request gives it. *)
Inductive request :=
| PostInventoryAdd (userId : Z) (destination : string) (location : Z)
    (items : list supply_item)
| PostInventoryConsume (userId location : Z) (items : list supply_item)
| PostInventoryTransfer
    (userId inventory_id source_location_id destination_location_id quantity : Z)
| PutInventory (userId id : Z) (nm : string) (code : option string)
    (location_id qty : Z)
| DeleteInventoryLocation (userId inventoryId locationId : Z)
| PostBarcodeCheckin (inventory_id : Z) (quantity : option Z) (location_id : Z)
| PostBarcodeConsume (userId inventory_id : Z) (quantity : option Z) (location_id : Z)
| PostOpSupplies (op_id supply_id : Z) (quantity : option Z)
| DeleteOpSupplies (id : Z)
| PostLogs (req : log_request)
| PutSupplies (id quantity : Z) (cost_per_unit : option float).

Definition serve (r : request) : db -> db * response :=
  match r with
  | PostInventoryAdd userId destination location items =>
    post_inventory_add userId destination location items
  | PostInventoryConsume userId location items =>
    post_inventory_consume userId location items
  | PostInventoryTransfer userId inventory_id source destination quantity =>
    post_inventory_transfer userId inventory_id source destination quantity
  | PutInventory userId id nm code location_id qty =>
    put_inventory userId id nm code location_id qty
  | DeleteInventoryLocation userId inventoryId locationId =>
    delete_inventory_location userId inventoryId locationId
  | PostBarcodeCheckin inventory_id quantity location_id =>
    post_barcode_checkin inventory_id quantity location_id
  | PostBarcodeConsume userId inventory_id quantity location_id =>
    post_barcode_consume userId inventory_id quantity location_id
  | PostOpSupplies op_id supply_id quantity => post_op_supplies op_id supply_id quantity
  | DeleteOpSupplies id => delete_op_supplies id
  | PostLogs req => post_logs req
  | PutSupplies id quantity cost_per_unit => put_supplies id quantity cost_per_unit
  end.

(** The store after a run of requests served one at a time. *)
Fixpoint serve_all (rs : list request) (d : db) : db :=
  match rs with
  | [] => d
  | r :: rest => serve_all rest (serve r d).1
  end.

(** The requests whose handlers look before they subtract: every one of
    the eleven routes but the logging of a use, a transfer of a quantity
    below zero, and the two routes that write a quantity as given when it
    is below zero. *)
Definition guarded (r : request) : Prop :=
  match r with
  | PostInventoryTransfer _ _ _ _ quantity => 0 < quantity
  | PutInventory _ _ _ _ _ qty => 0 ≤ qty
  | PostLogs req => lr_action req ≠ "use" ∧ 0 ≤ lr_quantity req
  | PutSupplies _ quantity _ => 0 ≤ quantity
  | _ => True
  end.

(** The stock of the whole location ledger. *)
Definition total_stock (d : db) : Z :=
  map_fold (fun _ q acc => q + acc) 0 (location_inventory d).

(** The items of a batch its loop does not pass over. *)
Definition consumed (x : supply_item) : bool :=
  negb ((inventory_id x =? 0) || (quantity x <=? 0)).

Definition received (x : supply_item) : bool :=
  if isNew x then negb (String.eqb (name x) "" || (quantity x <=? 0))
  else negb ((inventory_id x =? 0) || (quantity x <=? 0)).

Definition batch_quantity (keep : supply_item -> bool) (items : list supply_item) : Z :=
  foldr (fun x acc => quantity x + acc) 0 (List.filter keep items).

(** What the operatories hold of a supply. *)
Definition assigned_quantity (supply_id : Z) (d : db) : Z :=
  foldr (fun r acc => os_quantity r + acc) 0
        (List.filter (fun r => os_supply_id r =? supply_id) (op_supplies d)).

(** Every route but the removal of an item from a location. *)
Definition keeps_rows (r : request) : Prop :=
  match r with
  | DeleteInventoryLocation _ _ _ => False
  | _ => True
  end.

(** The location ledger still has the rows [K]. *)
Definition rows_kept (K : gset (Z * Z)) (d : db) : Prop :=
  K ⊆ dom (location_inventory d).

(** A morning at the practice: Gauze is used and moved, Gloves come in,
    a scan corrects a count, a use is logged against nothing. *)
Definition morning : list request :=
  [ PostInventoryConsume 7 11 [existing_item 1 4];
    PostInventoryTransfer 7 1 11 12 2;
    PostInventoryAdd 7 "common_area" 0 [existing_item 2 10; new_item "Masks" 3];
    PostBarcodeCheckin 2 (Some (-5)) 11;
    PostBarcodeConsume 7 1 (Some 9) 12;
    PutInventory 7 1 "Gauze 4x4" None 12 1 ].

(** What a batch takes of, or brings to, one item: the quantities of the
    movements for that item the loop does not pass over. *)
Definition batch_quantity_of (keep : supply_item -> bool) (inventoryId : Z)
    (items : list supply_item) : Z :=
  foldr (fun x acc =>
           (if keep x && (inventory_id x =? inventoryId) then quantity x else 0) + acc)
        0 items.

(** A body that, when it rolls back, answers with an error status. *)
Definition refusing {A} (m : tx A) : Prop :=
  ∀ d r, m d = Rollback r -> status r ≠ 200.

(** A catalog in order: no two rows share an id, and no two rows of one
    user share a scan code (an empty code is no code). *)
Definition catalog_ok (t : list inventory_row) : Prop :=
  NoDup (map inv_id t) ∧
  ∀ r1 r2 c,
    r1 ∈ t -> r2 ∈ t -> inv_user_id r1 = inv_user_id r2 ->
    inv_barcode r1 = Some c -> inv_barcode r2 = Some c -> c ≠ "" -> r1 = r2.

Definition catalog_well_formed (d : db) : Prop := catalog_ok (inventory d).

(** No operatory holds a supply in two rows, and no two rows share an id. *)
Definition assignments_unique (d : db) : Prop :=
  NoDup (map (fun r => (os_op_id r, os_supply_id r)) (op_supplies d)) ∧
  NoDup (map os_id (op_supplies d)).

(** What the practice has of a supply: the pool and the operatories. *)
Definition supply_total (supply_id : Z) (d : db) : Z :=
  default 0 (sup_quantity <$> supplies d !! supply_id) + assigned_quantity supply_id d.

(** Two units of supply 1 assigned to operatory 2, by hand, in two rows. *)
Definition doubled : db :=
  set_op_supplies
    [ {| os_id := 1; os_op_id := 2; os_supply_id := 1; os_quantity := 1 |};
      {| os_id := 2; os_op_id := 2; os_supply_id := 1; os_quantity := 1 |} ]
    operatory.

(** ** middleware/errorHandler.js *)

(** An error as the middleware reads it: its code, its name, its message
    and the status fields a thrower may have set. *)
Record express_error := {
  ex_error : js_error;
  ex_name : string;
  ex_statusCode : option Z;
  ex_status : option Z }.

(** The answer of the middleware: [res.status(...).json({ error, code })]. *)
Record error_reply := {
  er_status : Z;
  er_error : string;
  er_code : string }.

(** [a || b]: the first of the two that is not undefined and not 0. *)
Definition or_else (a b : option Z) : option Z :=
  match a with
  | Some 0 | None => b
  | Some _ => a
  end.

Definition has_code (err : express_error) (c : string) : bool :=
  bool_decide (err_code (ex_error err) = Some c).

Definition errorHandler (err : express_error) : error_reply :=
  if has_code err "ETIMEDOUT" || has_code err "ECONNRESET" || has_code err "ENOTFOUND"
  then {| er_status := 503;
          er_error := "Database connection error. Please try again in a moment.";
          er_code := "DB_CONNECTION_ERROR" |}
  else if has_code err "23505"
  then {| er_status := 409;
          er_error := "A record with this information already exists.";
          er_code := "DUPLICATE_RECORD" |}
  else if has_code err "23503"
  then {| er_status := 400;
          er_error := "Referenced record does not exist.";
          er_code := "INVALID_REFERENCE" |}
  else if has_code err "23502"
  then {| er_status := 400;
          er_error := "Required field is missing.";
          er_code := "MISSING_REQUIRED_FIELD" |}
  else if has_code err "42P01" || has_code err "42703"
  then {| er_status := 500;
          er_error := "Database schema error. Please contact support.";
          er_code := "SCHEMA_ERROR" |}
  else if String.eqb (ex_name err) "JsonWebTokenError"
  then {| er_status := 401;
          er_error := "Invalid authentication token.";
          er_code := "INVALID_TOKEN" |}
  else if String.eqb (ex_name err) "TokenExpiredError"
  then {| er_status := 401;
          er_error := "Authentication token has expired.";
          er_code := "TOKEN_EXPIRED" |}
  else if String.eqb (ex_name err) "ValidationError"
  then {| er_status := 400;
          er_error := err_message (ex_error err);
          er_code := "VALIDATION_ERROR" |}
  else
    let statusCode := default 500 (or_else (or_else (ex_statusCode err) (ex_status err))
                                           (Some 500)) in
    let message := if statusCode =? 500
                   then "An unexpected error occurred. Please try again."
                   else err_message (ex_error err) in
    {| er_status := statusCode; er_error := message; er_code := "INTERNAL_ERROR" |}.

(** [dbHealthCheck]: [None] is [next()], the request going on. *)
Definition dbHealthCheck {A} (pool_query : nat -> settled A) : option error_reply :=
  match (query pool_query default_retries).2 with
  | Returned _ => None
  | Thrown _ =>
    Some {| er_status := 503;
            er_error := "Database is currently unavailable. Please try again later.";
            er_code := "DB_UNAVAILABLE" |}
  end.

(** ** db/utils.js: [testConnection]

    The query answers with its rows; reading [rows[0].current_time] of an
    answer without rows throws, and the [catch] makes that [false]. *)
Definition testConnection (pool_query : nat -> settled (list string)) : bool :=
  match (query pool_query default_retries).2 with
  | Returned (_ :: _) => true
  | Returned [] => false
  | Thrown _ => false
  end.

(** The time a run of events spends waiting. *)
Definition waited (events : list event) : Z :=
  foldr (fun e acc => match e with Sleep ms => ms + acc | Attempt _ => acc end) 0 events.

(** The attempts of a run of events. *)
Definition attempts (events : list event) : list nat :=
  omap (fun e => match e with Attempt n => Some n | Sleep _ => None end) events.

(** A thrown database error of the kind the helpers retry. *)
Definition express_of (error : js_error) : express_error :=
  {| ex_error := error; ex_name := "error"; ex_statusCode := None; ex_status := None |}.

(** The waits after the attempts [from], [from + 1], ..., [count] of them. *)
Definition backoff_sum (from count : nat) : Z :=
  foldr Z.add 0 (map backoff (seq from count)).

(** A name with no pattern character in it: no [%], no [_], no backslash. *)
Fixpoint plain (s : string) : bool :=
  match s with
  | EmptyString => true
  | String c s' =>
    negb (Ascii.eqb c percent || Ascii.eqb c underscore || Ascii.eqb c backslash) &&
    plain s'
  end.

(** The user's rows of a table whose name is [nm] up to case. *)
Definition named_like (nm : string) (userId : Z) (t : list inventory_row)
    : list inventory_row :=
  List.filter (fun r => (inv_user_id r =? userId) &&
                        String.eqb (fold_case nm) (fold_case (inv_name r))) t.

(** * Properties *)

(** ** The transaction monad *)

Lemma bind_unfold {A B} (m : tx A) (f : A -> tx B) (d : db) :
  (m ≫= f) d = match m d with
               | Next a d' => f a d'
               | Rollback r => Rollback r
               | Throw e => Throw e
               end.
Proof. reflexivity. Qed.

Lemma hoare_ret {A} (P : db -> Prop) (Q : A -> db -> Prop) (a : A) :
  (∀ d, P d -> Q a d) -> hoare P (mret a) Q.
Proof. intros H d Hd. apply H, Hd. Qed.

Lemma hoare_bind {A B} (P : db -> Prop) (R : A -> db -> Prop) (Q : B -> db -> Prop)
    (m : tx A) (f : A -> tx B) :
  hoare P m R -> (∀ a, hoare (R a) (f a) Q) -> hoare P (m ≫= f) Q.
Proof.
  intros Hm Hf d Hd. rewrite bind_unfold.
  specialize (Hm d Hd). destruct (m d) as [a d'| |]; [|exact I|exact I].
  apply Hf, Hm.
Qed.

Lemma hoare_for_of {A} (I : db -> Prop) (xs : list A) (body : A -> tx unit) :
  (∀ x, hoare I (body x) (fun _ => I)) -> hoare I (for_of xs body) (fun _ => I).
Proof.
  intros Hbody. induction xs as [|x xs IH]; simpl.
  - apply hoare_ret. auto.
  - eapply hoare_bind; [apply Hbody|]. intros u. exact IH.
Qed.

Lemma hoare_transact (P : db -> Prop) (body : tx response)
    (on_catch : js_error -> response) (d : db) :
  hoare P body (fun _ => P) -> P d -> P (transact body on_catch d).1.
Proof.
  intros Hbody Hd. unfold transact. specialize (Hbody d Hd).
  destruct (body d); simpl; assumption.
Qed.

(** A loop stops at the first item that rolls back. *)
Lemma for_of_app_rollback {A} (pre post : list A) (x : A) (body : A -> tx unit)
    (d w : db) (r : response) :
  for_of pre body d = Next tt w -> body x w = Rollback r ->
  for_of (pre ++ x :: post) body d = Rollback r.
Proof.
  revert d. induction pre as [|p pre IH]; intros d; simpl.
  - intros [= ->] Hx. rewrite bind_unfold, Hx. reflexivity.
  - rewrite !bind_unfold. destruct (body p d) as [[] d1| |]; try discriminate.
    intros Hpre Hx. apply (IH d1 Hpre Hx).
Qed.

Lemma for_of_app_throw {A} (pre post : list A) (x : A) (body : A -> tx unit)
    (d w : db) (e : js_error) :
  for_of pre body d = Next tt w -> body x w = Throw e ->
  for_of (pre ++ x :: post) body d = Throw e.
Proof.
  revert d. induction pre as [|p pre IH]; intros d; simpl.
  - intros [= ->] Hx. rewrite bind_unfold, Hx. reflexivity.
  - rewrite !bind_unfold. destruct (body p d) as [[] d1| |]; try discriminate.
    intros Hpre Hx. apply (IH d1 Hpre Hx).
Qed.

(** ** Stock tables under an update *)

Lemma map_Forall_alter_2 {K V} `{Countable K} (P : K -> V -> Prop) (f : V -> V)
    (k : K) (m : gmap K V) :
  map_Forall P m -> (∀ x, m !! k = Some x -> P k (f x)) -> map_Forall P (alter f k m).
Proof.
  intros Hm Hk j y. rewrite lookup_alter. case_decide as Hjk.
  - subst j. destruct (m !! k) as [x|] eqn:Hx; simpl; [|discriminate].
    intros [= <-]. apply Hk. reflexivity.
  - apply Hm.
Qed.

Lemma alter_present {K V} `{Countable K} (f : V -> V) (k : K) (m : gmap K V) (x : V) :
  m !! k = Some x -> alter f k m = <[k := f x]> m.
Proof.
  intros Hx. apply map_eq. intros j. rewrite lookup_alter, lookup_insert.
  case_decide; [subst j; rewrite Hx|]; reflexivity.
Qed.

Lemma Forall_update_op_supplies (P : Z -> Prop) (op_id supply_id : Z) (f : Z -> Z)
    (t : list op_supply_row) :
  (∀ q, P q -> P (f q)) ->
  Forall (fun r => P (os_quantity r)) t ->
  Forall (fun r => P (os_quantity r)) (update_op_supplies_where op_id supply_id f t).
Proof.
  intros Hf Ht. unfold update_op_supplies_where. apply Forall_fmap.
  eapply Forall_impl; [exact Ht|]. intros r Hr. simpl.
  destruct ((os_op_id r =? op_id) && (os_supply_id r =? supply_id)); simpl; auto.
Qed.

(** ** Non-negativity, route by route *)

Ltac tx_simpl :=
  unfold update_location_inventory_by, insert_location_inventory_of,
    upsert_location_inventory, insert_supply_logs, bind_integer, update_inventory;
  unfold select_location_inventory, update_location_inventory,
    insert_location_inventory, insert_inventory;
  unfold mbind, tx_bind, mret, tx_ret, get, exec, rollback, throw; simpl.

(** A movement carries a quantity or none. *)
Ltac item_cases item :=
  let q := fresh "q" in
  destruct item as [? ? ? [q|] ?];
  unfold quantity in *;
  cbn [isNew inventory_id name item_quantity barcode js_le_0 js_lt default from_option id]
    in *;
  rewrite ?orb_false_r in *.

Lemma non_negative_set_location_inventory (t : gmap (Z * Z) Z) (d : db) :
  non_negative d -> map_Forall (fun _ q => 0 ≤ q) t ->
  non_negative (set_location_inventory t d).
Proof. intros (_ & Hs & Ho) Ht. repeat split; assumption. Qed.

Lemma non_negative_decrement (d : db) (k : Z * Z) (current q : Z) :
  non_negative d -> location_inventory d !! k = Some current -> q ≤ current ->
  non_negative (set_location_inventory (alter (fun x => x - q) k (location_inventory d)) d).
Proof.
  intros Hd Hk Hq. apply non_negative_set_location_inventory; [exact Hd|].
  apply map_Forall_alter_2; [apply Hd|]. intros x Hx.
  rewrite Hk in Hx. injection Hx as <-. lia.
Qed.

Lemma non_negative_increment (d : db) (k : Z * Z) (q : Z) :
  non_negative d -> 0 ≤ q ->
  non_negative (set_location_inventory (alter (fun x => x + q) k (location_inventory d)) d).
Proof.
  intros Hd Hq. apply non_negative_set_location_inventory; [exact Hd|].
  apply map_Forall_alter_2; [apply Hd|]. intros x Hx.
  destruct Hd as (Hl & _). specialize (Hl k x Hx). simpl in Hl. lia.
Qed.

Lemma non_negative_insert (d : db) (k : Z * Z) (q : Z) :
  non_negative d -> 0 ≤ q ->
  non_negative (set_location_inventory (<[k := q]> (location_inventory d)) d).
Proof.
  intros Hd Hq. apply non_negative_set_location_inventory; [exact Hd|].
  apply map_Forall_insert_2; [exact Hq|apply Hd].
Qed.

Lemma consume_item_non_negative (userId location : Z) (item : supply_item) :
  hoare non_negative (consume_item userId location item) (fun _ => non_negative).
Proof.
  intros d Hd. unfold consume_item. item_cases item.
  - destruct ((inventory_id0 =? 0) || (q <=? 0)); [exact Hd|].
    tx_simpl.
    destruct (is_empty (select_inventory_owned inventory_id0 userId d)); [exact I|].
    destruct (location_inventory d !! (inventory_id0, location)) as [current|] eqn:Hrow;
      [|exact I].
    destruct (current <? q) eqn:Hlt; [exact I|].
    apply Z.ltb_ge in Hlt. eapply non_negative_decrement; eauto.
  - destruct (inventory_id0 =? 0); [exact Hd|]. tx_simpl.
    destruct (is_empty (select_inventory_owned inventory_id0 userId d)); [exact I|].
    destruct (location_inventory d !! (inventory_id0, location)); exact I.
Qed.

Lemma post_inventory_consume_non_negative (userId location : Z)
    (items : list supply_item) (d : db) :
  non_negative d -> non_negative (post_inventory_consume userId location items d).1.
Proof.
  intros Hd. unfold post_inventory_consume.
  destruct ((location =? 0) || is_empty items); [exact Hd|].
  apply hoare_transact; [|exact Hd].
  eapply hoare_bind; [apply hoare_for_of, consume_item_non_negative|].
  intros u. apply hoare_ret. auto.
Qed.

Lemma resolve_inventory_id_non_negative (userId : Z) (item : supply_item) :
  hoare non_negative (resolve_inventory_id userId item)
        (fun resolved d =>
           non_negative d ∧
           (is_Some resolved -> ∀ q, item_quantity item = Some q -> 0 < q)).
Proof.
  intros d Hd. unfold resolve_inventory_id.
  assert (Hpos : js_le_0 (item_quantity item) = false ->
                 ∀ q, item_quantity item = Some q -> 0 < q).
  { intros Hq q Heq. rewrite Heq in Hq. simpl in Hq. apply Z.leb_gt in Hq. exact Hq. }
  destruct (isNew item).
  - destruct (String.eqb (name item) "" || js_le_0 (item_quantity item)) eqn:Hskip.
    { split; [exact Hd|]. intros [? [=]]. }
    apply orb_false_iff in Hskip as [_ Hq]. specialize (Hpos Hq).
    tx_simpl.
    destruct (select_inventory_ilike (name item) userId (inventory d)) as [[|r rows]|];
      [|split; [exact Hd|auto]|exact I].
    destruct (truthy_barcode (barcode item)) as [code|].
    + destruct (select_inventory_barcode code userId d); [|exact I].
      destruct (barcode_conflict (Some code) userId (inventory d) d); [exact I|].
      split; [exact Hd|auto].
    + split; [exact Hd|auto].
  - destruct ((inventory_id item =? 0) || js_le_0 (item_quantity item)) eqn:Hskip.
    { split; [exact Hd|]. intros [? [=]]. }
    apply orb_false_iff in Hskip as [_ Hq]. specialize (Hpos Hq).
    tx_simpl.
    destruct (is_empty (select_inventory_owned (inventory_id item) userId d)); [exact I|].
    split; [exact Hd|auto].
Qed.

Lemma add_item_non_negative (userId : Z) (destination : string)
    (location commonAreaId : Z) (item : supply_item) :
  hoare non_negative (add_item userId destination location commonAreaId item)
        (fun _ => non_negative).
Proof.
  unfold add_item. eapply hoare_bind; [apply resolve_inventory_id_non_negative|].
  intros [inventoryId|]; [|apply hoare_ret; tauto].
  intros d [Hd Hq]. specialize (Hq (mk_is_Some _ _ eq_refl)).
  destruct (item_quantity item) as [q|]; [specialize (Hq q eq_refl)|clear Hq].
  - assert (Hfinish : ∀ (target : Z) (d1 : db), non_negative d1 ->
      match (if target =? 0
             then rollback (res_error 400
                    ("No valid location selected for " +:+ dquote +:+
                     name_or_id item inventoryId +:+ dquote +:+ "."))
             else
               locRows ← select_location_inventory inventoryId target;
               match locRows with
               | Some _ => update_location_inventory_by inventoryId target Z.add (Some q)
               | None => insert_location_inventory_of inventoryId target (Some q)
               end) d1 with
      | Next _ d' => non_negative d'
      | _ => True
      end).
    { intros target d1 Hd1. destruct (target =? 0); [exact I|]. tx_simpl.
      destruct (location_inventory d1 !! (inventoryId, target)).
      - apply non_negative_increment; [exact Hd1|lia].
      - destruct (location_known target d1); [|exact I].
        apply non_negative_insert; [exact Hd1|lia]. }
    rewrite bind_unfold.
    destruct (String.eqb destination "transfer").
    + rewrite bind_unfold. tx_simpl.
      destruct (location_inventory d !! (inventoryId, commonAreaId)) as [available|] eqn:Hrow;
        [|exact I].
      destruct (available <? q) eqn:Hlt; [exact I|].
      apply Z.ltb_ge in Hlt. apply Hfinish.
      eapply non_negative_decrement; eauto.
    + apply Hfinish, Hd.
  - rewrite bind_unfold.
    destruct (String.eqb destination "transfer").
    + rewrite bind_unfold. tx_simpl.
      destruct (location_inventory d !! (inventoryId, commonAreaId)); exact I.
    + tx_simpl.
      destruct ((if String.eqb destination "common_area" then commonAreaId else location)
                =? 0); [exact I|]. simpl.
      destruct (location_inventory d !! _); exact I.
Qed.

Lemma post_inventory_add_non_negative (userId : Z) (destination : string)
    (location : Z) (items : list supply_item) (d : db) :
  non_negative d ->
  non_negative (post_inventory_add userId destination location items d).1.
Proof.
  intros Hd. unfold post_inventory_add. apply hoare_transact; [|exact Hd].
  intros d0 Hd0. tx_simpl.
  destruct (select_location_named "Common Area" userId d0) as [|r rows]; [exact I|].
  destruct (loc_id r =? 0); [exact I|].
  pose proof (hoare_for_of non_negative items
                (add_item userId destination location (loc_id r))
                (add_item_non_negative userId destination location (loc_id r)) d0 Hd0) as H.
  destruct (for_of items (add_item userId destination location (loc_id r)) d0);
    simpl; auto.
Qed.

Lemma post_inventory_transfer_non_negative
    (userId inventory_id source_location_id destination_location_id quantity : Z)
    (d : db) :
  0 < quantity -> non_negative d ->
  non_negative (post_inventory_transfer userId inventory_id source_location_id
                  destination_location_id quantity d).1.
Proof.
  intros Hq Hd. unfold post_inventory_transfer.
  destruct ((inventory_id =? 0) || (source_location_id =? 0) ||
            (destination_location_id =? 0) || (quantity =? 0)); [exact Hd|].
  apply hoare_transact; [|exact Hd]. clear d Hd. intros d Hd. tx_simpl.
  destruct (is_empty (select_inventory_owned inventory_id userId d)); [exact I|].
  destruct (location_inventory d !! (inventory_id, source_location_id))
    as [sourceQty|] eqn:Hsrc; [|exact I].
  destruct (sourceQty <? quantity) eqn:Hlt; [exact I|]. apply Z.ltb_ge in Hlt.
  pose proof (non_negative_decrement d _ _ quantity Hd Hsrc Hlt) as Hd1.
  set (t1 := alter (fun q => q - quantity) (inventory_id, source_location_id)
               (location_inventory d)) in *.
  destruct (t1 !! (inventory_id, destination_location_id)) as [current|] eqn:Hdst.
  - apply (non_negative_insert _ _ _ Hd1).
    pose proof (proj1 Hd1 _ _ Hdst) as Hcur. simpl in Hcur. lia.
  - destruct (location_known destination_location_id _); [|exact I].
    apply (non_negative_insert _ _ _ Hd1). lia.
Qed.

Lemma post_op_supplies_non_negative (op_id supply_id : Z) (quantity : option Z) (d : db) :
  non_negative d -> non_negative (post_op_supplies op_id supply_id quantity d).1.
Proof.
  intros Hd. unfold post_op_supplies. destruct quantity as [qty|]; [|exact Hd].
  destruct (qty <=? 0) eqn:Hpos; [exact Hd|]. apply Z.leb_gt in Hpos.
  apply hoare_transact; [|exact Hd]. clear d Hd. intros d (Hl & Hs & Ho). tx_simpl.
  destruct (supplies d !! supply_id) as [supplyRes|] eqn:Hsup; [|exact I].
  destruct (sup_quantity supplyRes <? qty) eqn:Hlt; [exact I|]. apply Z.ltb_ge in Hlt.
  assert (Hs' : map_Forall (fun _ s => 0 ≤ sup_quantity s)
                  (update_supplies_quantity supply_id (fun q => q - qty) (supplies d))).
  { apply map_Forall_alter_2; [exact Hs|]. intros x Hx. simpl.
    rewrite Hsup in Hx. injection Hx as <-. lia. }
  unfold select_op_supplies. simpl.
  destruct (List.filter _ (op_supplies d)) as [|first rest].
  - destruct (op_known op_id _); [|exact I].
    repeat split; simpl; try assumption.
    apply Forall_app. split; [exact Ho|]. constructor; [simpl; lia|constructor].
  - repeat split; simpl; try assumption.
    apply (Forall_update_op_supplies (fun q => 0 ≤ q)); [intros; lia|exact Ho].
Qed.

Lemma post_barcode_checkin_non_negative (inventory_id : Z) (quantity : option Z)
    (location_id : Z) (d : db) :
  non_negative d ->
  non_negative (post_barcode_checkin inventory_id quantity location_id d).1.
Proof.
  intros Hd. unfold post_barcode_checkin. destruct quantity as [qty|]; [|exact Hd].
  apply hoare_transact; [|exact Hd]. clear d Hd. intros d Hd. tx_simpl.
  destruct (location_inventory d !! (inventory_id, location_id)) as [currentQty|] eqn:Hrow;
    simpl.
  - destruct (currentQty + qty <? 0) eqn:Hneg; [exact I|]. apply Z.ltb_ge in Hneg.
    destruct (int4 (currentQty + qty)); [|exact I].
    apply (non_negative_set_location_inventory _ _ Hd).
    apply map_Forall_alter_2; [apply Hd|]. intros; assumption.
  - destruct (0 + qty <? 0) eqn:Hneg; [exact I|]. apply Z.ltb_ge in Hneg.
    destruct (qty <? 0); [exact I|].
    destruct (int4 qty); [|exact I]. simpl.
    destruct (location_known location_id d); [|exact I].
    apply non_negative_insert; [exact Hd|lia].
Qed.

Lemma post_barcode_consume_non_negative (userId inventory_id : Z) (quantity : option Z)
    (location_id : Z) (d : db) :
  non_negative d ->
  non_negative (post_barcode_consume userId inventory_id quantity location_id d).1.
Proof.
  intros Hd. unfold post_barcode_consume. destruct quantity as [qty|]; [|exact Hd].
  destruct (qty <=? 0); [exact Hd|].
  apply hoare_transact; [|exact Hd]. clear d Hd. intros d Hd. tx_simpl.
  destruct (match select_inventory_by_id inventory_id d with
            | [] => true
            | r :: _ => negb (inv_user_id r =? userId)
            end); [exact I|].
  destruct (location_inventory d !! (inventory_id, location_id)) as [currentQty|] eqn:Hrow;
    [|exact I].
  destruct (currentQty <? qty) eqn:Hlt; [exact I|]. apply Z.ltb_ge in Hlt.
  eapply non_negative_decrement; eauto.
Qed.

Lemma post_logs_restock_non_negative (req : log_request) (d : db) :
  lr_action req ≠ "use" -> 0 ≤ lr_quantity req -> non_negative d ->
  non_negative (post_logs req d).1.
Proof.
  intros Hact Hq Hd. unfold post_logs. apply hoare_transact; [|exact Hd].
  clear d Hd. intros d (Hl & Hs & Ho). unfold post_logs_body. tx_simpl.
  destruct (supplies d !! lr_supply_id req) as [supply|] eqn:Hsup; [|exact I].
  simpl. unfold apply_action.
  destruct (String.eqb (lr_action req) "use") eqn:Heq.
  { apply String.eqb_eq in Heq. contradiction. }
  destruct (op_known (lr_op_id req) _); [|exact I].
  repeat split; simpl; try assumption.
  - apply map_Forall_alter_2; [exact Hs|]. intros x Hx. simpl.
    specialize (Hs _ _ Hx). simpl in Hs. lia.
  - apply (Forall_update_op_supplies (fun q => 0 ≤ q)); [intros; lia|exact Ho].
Qed.

(** C1: POST /api/logs with action 'use' subtracts the logged quantity
    from the operatory row and from the global row without looking at what
    is there.  Logging the use of 5 units where 3 are held commits a store
    whose quantities are -2, out of a store whose quantities were all
    non-negative. *)
Theorem post_logs_use_commits_negative_quantity :
  non_negative operatory ∧
  (post_logs (use_supply 5) operatory).2 =
    res_json (JLog {| lg_user_id := 7; lg_op_id := 1; lg_supply_id := 1;
                      lg_quantity := 5; lg_action := "use";
                      lg_unit_cost := 2.5%float; lg_total_cost := 12.5%float;
                      lg_procedure_id := None |}) ∧
  sup_quantity <$> supplies (post_logs (use_supply 5) operatory).1 !! 1 = Some (-2) ∧
  os_quantity <$> op_supplies (post_logs (use_supply 5) operatory).1 = [-2] ∧
  ¬ non_negative (post_logs (use_supply 5) operatory).1.
Proof.
  split; [|split; [|split; [|split]]].
  - apply (bool_decide_unpack _). vm_compute. reflexivity.
  - vm_compute. reflexivity.
  - vm_compute. reflexivity.
  - vm_compute. reflexivity.
  - apply (proj1 (bool_decide_eq_false _)). vm_compute. reflexivity.
Qed.

(** The transfer route refuses a zero quantity only: a negative one passes
    the sufficiency test, adds to the source and leaves the destination
    below zero. *)
Lemma post_inventory_transfer_negative_quantity :
  non_negative practice ∧
  (post_inventory_transfer 7 1 11 12 (-6) practice).2 = res_json JSuccess ∧
  quantity_at (post_inventory_transfer 7 1 11 12 (-6) practice).1 1 11 = 12 ∧
  quantity_at (post_inventory_transfer 7 1 11 12 (-6) practice).1 1 12 = -6.
Proof.
  split; [|split; [|split]].
  - apply (bool_decide_unpack _). vm_compute. reflexivity.
  - vm_compute. reflexivity.
  - vm_compute. reflexivity.
  - vm_compute. reflexivity.
Qed.

(** ** The audit log, route by route *)

Ltac tx_cases :=
  repeat (simpl;
          match goal with
          | |- context [match ?x with _ => _ end] =>
            lazymatch x with
            | context [match _ with _ => _ end] => fail
            | _ => destruct x eqn:?
            end
          end);
  unfold logs_are in *; simpl; auto.

Lemma consume_item_logs (L : list log_row) (userId location : Z) (item : supply_item) :
  hoare (logs_are L) (consume_item userId location item) (fun _ => logs_are L).
Proof. intros d Hd. unfold consume_item. tx_simpl. tx_cases. Qed.

Lemma add_item_logs (L : list log_row) (userId : Z) (destination : string)
    (location commonAreaId : Z) (item : supply_item) :
  hoare (logs_are L) (add_item userId destination location commonAreaId item)
        (fun _ => logs_are L).
Proof.
  intros d Hd. unfold add_item, resolve_inventory_id. tx_simpl. tx_cases.
Qed.

Lemma post_inventory_consume_logs (userId location : Z) (items : list supply_item)
    (d : db) :
  supply_logs (post_inventory_consume userId location items d).1 = supply_logs d.
Proof.
  unfold post_inventory_consume.
  destruct ((location =? 0) || is_empty items); [reflexivity|].
  apply (hoare_transact (logs_are (supply_logs d))); [|reflexivity].
  eapply hoare_bind; [apply hoare_for_of, consume_item_logs|].
  intros u. apply hoare_ret. auto.
Qed.

Lemma post_inventory_add_logs (userId : Z) (destination : string) (location : Z)
    (items : list supply_item) (d : db) :
  supply_logs (post_inventory_add userId destination location items d).1 = supply_logs d.
Proof.
  unfold post_inventory_add.
  apply (hoare_transact (logs_are (supply_logs d))); [|reflexivity].
  intros d0 Hd0. tx_simpl.
  destruct (select_location_named "Common Area" userId d0) as [|r rows]; [exact I|].
  destruct (loc_id r =? 0); [exact I|].
  pose proof (hoare_for_of _ items _
                (add_item_logs (supply_logs d) userId destination location (loc_id r))
                d0 Hd0) as H.
  destruct (for_of items (add_item userId destination location (loc_id r)) d0);
    simpl; auto.
Qed.

Lemma post_inventory_transfer_logs
    (userId inventory_id source_location_id destination_location_id quantity : Z)
    (d : db) :
  supply_logs (post_inventory_transfer userId inventory_id source_location_id
                 destination_location_id quantity d).1 = supply_logs d.
Proof.
  unfold post_inventory_transfer.
  destruct ((inventory_id =? 0) || (source_location_id =? 0) ||
            (destination_location_id =? 0) || (quantity =? 0)); [reflexivity|].
  apply (hoare_transact (logs_are (supply_logs d))); [|reflexivity].
  intros d0 Hd0. tx_simpl. tx_cases.
Qed.

Lemma post_op_supplies_logs (op_id supply_id : Z) (quantity : option Z) (d : db) :
  supply_logs (post_op_supplies op_id supply_id quantity d).1 = supply_logs d.
Proof.
  unfold post_op_supplies. destruct quantity as [qty|]; [|reflexivity].
  destruct (qty <=? 0); [reflexivity|].
  apply (hoare_transact (logs_are (supply_logs d))); [|reflexivity].
  intros d0 Hd0. tx_simpl. tx_cases.
Qed.

Lemma post_barcode_checkin_logs (inventory_id : Z) (quantity : option Z)
    (location_id : Z) (d : db) :
  supply_logs (post_barcode_checkin inventory_id quantity location_id d).1 = supply_logs d.
Proof.
  unfold post_barcode_checkin. destruct quantity as [qty|]; [|reflexivity].
  apply (hoare_transact (logs_are (supply_logs d))); [|reflexivity].
  intros d0 Hd0. tx_simpl. tx_cases.
Qed.

Lemma post_barcode_consume_logs (userId inventory_id : Z) (quantity : option Z)
    (location_id : Z) (d : db) :
  supply_logs (post_barcode_consume userId inventory_id quantity location_id d).1 =
  supply_logs d.
Proof.
  unfold post_barcode_consume. destruct quantity as [qty|]; [|reflexivity].
  destruct (qty <=? 0); [reflexivity|].
  apply (hoare_transact (logs_are (supply_logs d))); [|reflexivity].
  intros d0 Hd0. tx_simpl. tx_cases.
Qed.

(** POST /api/logs, case by case. *)
Lemma post_logs_cases (req : log_request) (d : db) :
  match supplies d !! lr_supply_id req with
  | Some supply =>
    if op_known (lr_op_id req) d then
      post_logs req d =
        (let row :=
           {| lg_user_id := lr_user_id req; lg_op_id := lr_op_id req;
              lg_supply_id := lr_supply_id req; lg_quantity := lr_quantity req;
              lg_action := lr_action req;
              lg_unit_cost := parseFloat_or_0 (sup_cost_per_unit supply);
              lg_total_cost := PrimFloat.mul (parseFloat_or_0 (sup_cost_per_unit supply))
                                             (Number (lr_quantity req));
              lg_procedure_id := or_null (lr_procedure_id req) |} in
         (set_supply_logs (supply_logs d ++ [row])
            (set_supplies
               (update_supplies_quantity (lr_supply_id req)
                  (fun current => apply_action (lr_action req) current (lr_quantity req))
                  (supplies d))
               (set_op_supplies
                  (update_op_supplies_where (lr_op_id req) (lr_supply_id req)
                     (fun current => apply_action (lr_action req) current (lr_quantity req))
                     (op_supplies d)) d)),
          res_json (JLog row)))
    else post_logs req d = (d, res_error 500 "Failed to log supply usage")
  | None => post_logs req d = (d, res_error 500 "Failed to log supply usage")
  end.
Proof.
  unfold post_logs, transact, post_logs_body. tx_simpl.
  destruct (supplies d !! lr_supply_id req) as [supply|] eqn:Hsup; simpl; [|reflexivity].
  change (op_known (lr_op_id req) (set_supplies _ _)) with (op_known (lr_op_id req) d).
  destruct (op_known (lr_op_id req) d); reflexivity.
Qed.

Lemma op_known_elem (op_id : Z) (d : db) :
  op_known op_id d = true -> ∃ o, o ∈ ops d ∧ o_id o = op_id.
Proof.
  unfold op_known. intros H. apply existsb_exists in H as (o & Hin & Hid).
  exists o. split; [apply list_elem_of_In, Hin|apply Z.eqb_eq, Hid].
Qed.

Lemma post_logs_committed (req : log_request) (d : db) :
  status (post_logs req d).2 = 200 ->
  ∃ supply after row,
    supplies d !! lr_supply_id req = Some supply ∧
    (∃ o, o ∈ ops d ∧ o_id o = lr_op_id req) ∧
    (post_logs req d).2 = res_json (JLog row) ∧
    supply_logs (post_logs req d).1 = supply_logs d ++ [row] ∧
    lg_user_id row = lr_user_id req ∧
    lg_op_id row = lr_op_id req ∧
    lg_supply_id row = lr_supply_id req ∧
    lg_quantity row = lr_quantity req ∧
    lg_action row = lr_action req ∧
    lg_unit_cost row =
      match sup_cost_per_unit supply with Some c => c | None => 0%float end ∧
    lg_total_cost row =
      PrimFloat.mul (lg_unit_cost row)
        (SF2Prim (SpecFloat.binary_normalize prec emax (lr_quantity req) 0 false)) ∧
    supplies (post_logs req d).1 !! lr_supply_id req = Some after ∧
    sup_cost_per_unit after = sup_cost_per_unit supply ∧
    (lr_action req = "use" ->
     sup_quantity after = sup_quantity supply - lr_quantity req) ∧
    (lr_action req ≠ "use" ->
     sup_quantity after = sup_quantity supply + lr_quantity req).
Proof.
  intros Hok. pose proof (post_logs_cases req d) as H.
  destruct (supplies d !! lr_supply_id req) as [supply|] eqn:Hsup;
    [|rewrite H in Hok; discriminate].
  destruct (op_known (lr_op_id req) d) eqn:Hop; [|rewrite H in Hok; discriminate].
  rewrite H. clear H Hok. simpl.
  eexists supply, _, _. split; [reflexivity|].
  split; [apply op_known_elem, Hop|].
  do 7 (split; [reflexivity|]).
  split; [destruct (sup_cost_per_unit supply); reflexivity|].
  split; [reflexivity|].
  split; [unfold update_supplies_quantity; rewrite lookup_alter_eq, Hsup; reflexivity|].
  split; [reflexivity|]. simpl. unfold apply_action. split.
  - intros ->. reflexivity.
  - intros Hne. apply String.eqb_neq in Hne. rewrite Hne. reflexivity.
Qed.

Lemma post_logs_refused (req : log_request) (d : db) :
  status (post_logs req d).2 ≠ 200 -> (post_logs req d).1 = d.
Proof.
  intros Hno. pose proof (post_logs_cases req d) as H.
  destruct (supplies d !! lr_supply_id req); [|rewrite H; reflexivity].
  destruct (op_known (lr_op_id req) d); [|rewrite H; reflexivity].
  rewrite H in Hno. simpl in Hno. contradiction.
Qed.

(** C2, as the code has it: the audit log is written by POST /api/logs
    and by nothing else.  A logging call that commits has found its supply
    in the catalog and its operatory among the operatories, and has
    appended exactly one row: the row it answers with, carrying the
    request's user, operatory, supply, quantity and action, as unit cost
    the cost the catalog has for the supply (zero where it has none), as
    total cost the product in binary64 of that unit cost and the quantity;
    and it has moved the global row of the supply by exactly that
    quantity, down for the action use and up for any other.  A logging
    call that does not commit leaves the store, and so the log, as it was.
    Consume, add (receive), transfer, assign, scan check-in and scan
    consume leave the audit log as it was, committed or not. *)
Theorem audit_log_written_by_post_logs_only :
  (∀ req d,
     status (post_logs req d).2 = 200 ->
     ∃ supply after row,
       supplies d !! lr_supply_id req = Some supply ∧
       (∃ o, o ∈ ops d ∧ o_id o = lr_op_id req) ∧
       (post_logs req d).2 = res_json (JLog row) ∧
       supply_logs (post_logs req d).1 = supply_logs d ++ [row] ∧
       lg_user_id row = lr_user_id req ∧
       lg_op_id row = lr_op_id req ∧
       lg_supply_id row = lr_supply_id req ∧
       lg_quantity row = lr_quantity req ∧
       lg_action row = lr_action req ∧
       lg_unit_cost row =
         match sup_cost_per_unit supply with Some c => c | None => 0%float end ∧
       lg_total_cost row =
         PrimFloat.mul (lg_unit_cost row)
           (SF2Prim (SpecFloat.binary_normalize prec emax (lr_quantity req) 0 false)) ∧
       supplies (post_logs req d).1 !! lr_supply_id req = Some after ∧
       sup_cost_per_unit after = sup_cost_per_unit supply ∧
       (lr_action req = "use" ->
        sup_quantity after = sup_quantity supply - lr_quantity req) ∧
       (lr_action req ≠ "use" ->
        sup_quantity after = sup_quantity supply + lr_quantity req)) ∧
  (∀ req d, status (post_logs req d).2 ≠ 200 -> (post_logs req d).1 = d) ∧
  (∀ userId location items d,
     supply_logs (post_inventory_consume userId location items d).1 = supply_logs d) ∧
  (∀ userId destination location items d,
     supply_logs (post_inventory_add userId destination location items d).1 =
     supply_logs d) ∧
  (∀ userId inventory_id source_location_id destination_location_id quantity d,
     supply_logs (post_inventory_transfer userId inventory_id source_location_id
                    destination_location_id quantity d).1 = supply_logs d) ∧
  (∀ op_id supply_id quantity d,
     supply_logs (post_op_supplies op_id supply_id quantity d).1 = supply_logs d) ∧
  (∀ inventory_id quantity location_id d,
     supply_logs (post_barcode_checkin inventory_id quantity location_id d).1 =
     supply_logs d) ∧
  (∀ userId inventory_id quantity location_id d,
     supply_logs (post_barcode_consume userId inventory_id quantity location_id d).1 =
     supply_logs d).
Proof.
  split; [exact post_logs_committed|].
  split; [exact post_logs_refused|].
  split; [exact post_inventory_consume_logs|].
  split; [exact post_inventory_add_logs|].
  split; [exact post_inventory_transfer_logs|].
  split; [exact post_op_supplies_logs|].
  split; [exact post_barcode_checkin_logs|exact post_barcode_consume_logs].
Qed.

Lemma audit_log_written_by_post_logs_only_witness :
  ∃ row,
    supply_logs (post_logs (use_supply 2) operatory).1 = supply_logs operatory ++ [row] ∧
    lg_quantity row = 2 ∧ lg_unit_cost row = 2.5%float ∧ lg_total_cost row = 5%float ∧
    sup_quantity <$> supplies (post_logs (use_supply 2) operatory).1 !! 1 = Some 1.
Proof.
  destruct (proj1 audit_log_written_by_post_logs_only (use_supply 2) operatory eq_refl)
    as (supply & after & row & Hsup & _ & _ & Hlog & _ & _ & _ & Hq & _ & Hunit & Htotal &
        Hafter & _ & Huse & _).
  exists row. vm_compute in Hsup. injection Hsup as <-.
  split; [exact Hlog|]. split; [exact Hq|].
  split; [exact Hunit|].
  split; [rewrite Htotal, Hunit; vm_compute; reflexivity|].
  change (lr_supply_id (use_supply 2)) with 1 in Hafter.
  rewrite Hafter. simpl. rewrite (Huse eq_refl). reflexivity.
Defined.

(** C2, as stated, fails: consuming 4 Gauze in Room A commits (6 become 2)
    and the audit log gains no row. *)
Lemma consume_commits_without_log_entry :
  (post_inventory_consume 7 11 [existing_item 1 4] practice).2 =
    res_json (JMessage "Inventory consumed successfully") ∧
  quantity_at practice 1 11 = 6 ∧
  quantity_at (post_inventory_consume 7 11 [existing_item 1 4] practice).1 1 11 = 2 ∧
  ¬ ∃ row, supply_logs (post_inventory_consume 7 11 [existing_item 1 4] practice).1 =
           supply_logs practice ++ [row].
Proof.
  split; [vm_compute; reflexivity|].
  split; [vm_compute; reflexivity|].
  split; [vm_compute; reflexivity|].
  intros [row Hrow]. rewrite post_inventory_consume_logs in Hrow.
  simpl in Hrow. discriminate.
Qed.

(** ** Consume *)

Lemma is_empty_false {A} (l : list A) : l ≠ [] -> is_empty l = false.
Proof. destruct l; [contradiction|reflexivity]. Qed.

(** C3, as the code has it: a consume of one owned item with a positive
    quantity answers 404 when the item has no row at the location and 400
    when the row holds less than asked, both naming the item and the
    location and leaving the store as it was; otherwise it commits the row
    less the quantity asked. *)
Theorem consume_single_item_outcome (userId location : Z) (item : supply_item) (d : db) :
  location ≠ 0 -> inventory_id item ≠ 0 -> 0 < quantity item ->
  select_inventory_owned (inventory_id item) userId d ≠ [] ->
  post_inventory_consume userId location [item] d =
    match location_inventory d !! (inventory_id item, location) with
    | None =>
      (d, res_error 404 ("Item ID " +:+ pretty (inventory_id item) +:+
                         " not found at location " +:+ pretty location))
    | Some currentQty =>
      if currentQty <? quantity item then
        (d, res_error 400 ("Not enough quantity of item ID " +:+
                           pretty (inventory_id item) +:+
                           " at location " +:+ pretty location))
      else
        (set_location_inventory
           (<[(inventory_id item, location) := currentQty - quantity item]>
              (location_inventory d)) d,
         res_json (JMessage "Inventory consumed successfully"))
    end.
Proof.
  intros Hloc Hid Hq Howned. unfold post_inventory_consume.
  apply Z.eqb_neq in Hloc. rewrite Hloc. simpl.
  unfold transact, consume_item.
  apply Z.eqb_neq in Hid. rewrite Hid.
  unfold quantity in *. destruct (item_quantity item) as [q|]; simpl in *; [|lia].
  assert (Hq' : (q <=? 0) = false) by (apply Z.leb_gt; exact Hq).
  rewrite Hq'. tx_simpl. rewrite (is_empty_false _ Howned).
  destruct (location_inventory d !! (inventory_id item, location)) as [currentQty|] eqn:Hrow;
    [|reflexivity].
  destruct (currentQty <? q); [reflexivity|].
  simpl. rewrite (alter_present _ _ _ _ Hrow). reflexivity.
Qed.

Lemma consume_single_item_outcome_witness :
  post_inventory_consume 7 11 [existing_item 1 4] practice =
    (set_location_inventory (<[(1, 11) := 6 - 4]> (location_inventory practice)) practice,
     res_json (JMessage "Inventory consumed successfully")).
Proof.
  refine (consume_single_item_outcome 7 11 (existing_item 1 4) practice _ _ _ _).
  - lia.
  - simpl. lia.
  - reflexivity.
  - vm_compute. discriminate.
Defined.

(** C3, as stated, fails: with 6 Gauze in Room A, asking for 10 and asking
    for 11 get the same 400 answer, and so does asking for 10 once only 2
    are left; the answer carries neither the quantity held nor the quantity
    asked.  A missing row is answered 404 with another message. *)
Lemma consume_error_carries_no_quantities :
  quantity_at practice 1 11 = 6 ∧
  post_inventory_consume 7 11 [existing_item 1 10] practice =
    (practice, res_error 400 "Not enough quantity of item ID 1 at location 11") ∧
  post_inventory_consume 7 11 [existing_item 1 11] practice =
    (practice, res_error 400 "Not enough quantity of item ID 1 at location 11") ∧
  quantity_at (post_inventory_consume 7 11 [existing_item 1 4] practice).1 1 11 = 2 ∧
  (post_inventory_consume 7 11 [existing_item 1 10]
     (post_inventory_consume 7 11 [existing_item 1 4] practice).1).2 =
    res_error 400 "Not enough quantity of item ID 1 at location 11" ∧
  post_inventory_consume 7 12 [existing_item 1 10] practice =
    (practice, res_error 404 "Item ID 1 not found at location 12").
Proof. repeat split; vm_compute; reflexivity. Qed.

(** ** Batches *)

Lemma consume_item_skips (userId location : Z) (x : supply_item) (d : db) :
  inventory_id x = 0 ∨ (∃ q, item_quantity x = Some q ∧ q ≤ 0) ->
  consume_item userId location x d = Next tt d.
Proof.
  unfold consume_item. intros [->|(q & -> & Hq)]; [reflexivity|].
  simpl. apply Z.leb_le in Hq. rewrite Hq, orb_true_r. reflexivity.
Qed.

Lemma add_item_skips (userId : Z) (destination : string) (location commonAreaId : Z)
    (x : supply_item) (d : db) :
  (if isNew x then name x = "" else inventory_id x = 0) ∨
  (∃ q, item_quantity x = Some q ∧ q ≤ 0) ->
  add_item userId destination location commonAreaId x d = Next tt d.
Proof.
  unfold add_item, resolve_inventory_id. intros [Hfield|(q & -> & Hq)].
  - destruct (isNew x); rewrite Hfield; reflexivity.
  - simpl. apply Z.leb_le in Hq. rewrite Hq, !orb_true_r. destruct (isNew x); reflexivity.
Qed.

(** A movement the body passes over can be taken out of the batch. *)
Lemma for_of_skip {A} (pre post : list A) (x : A) (body : A -> tx unit) (d : db) :
  (∀ w, body x w = Next tt w) ->
  for_of (pre ++ x :: post) body d = for_of (pre ++ post) body d.
Proof.
  intros Hx. revert d. induction pre as [|p pre IH]; intros d; simpl.
  - rewrite bind_unfold, Hx. reflexivity.
  - rewrite !bind_unfold. destruct (body p d) as [[] d1| |]; [apply IH| |]; reflexivity.
Qed.

Lemma post_inventory_consume_throw (userId location : Z)
    (pre post : list supply_item) (x : supply_item) (d w : db) (e : js_error) :
  location ≠ 0 ->
  for_of pre (consume_item userId location) d = Next tt w ->
  consume_item userId location x w = Throw e ->
  post_inventory_consume userId location (pre ++ x :: post) d =
    (d, res_error 500 "Server error while consuming inventory").
Proof.
  intros Hloc Hpre Hx. unfold post_inventory_consume.
  apply Z.eqb_neq in Hloc. rewrite Hloc.
  replace (is_empty (pre ++ x :: post)) with false by (destruct pre; reflexivity).
  simpl. unfold transact. rewrite bind_unfold.
  rewrite (for_of_app_throw pre post x _ d w e Hpre Hx). reflexivity.
Qed.

Lemma post_inventory_consume_skip (userId location : Z)
    (pre post : list supply_item) (x : supply_item) (d : db) :
  inventory_id x = 0 ∨ (∃ q, item_quantity x = Some q ∧ q ≤ 0) ->
  (post_inventory_consume userId location (pre ++ x :: post) d).1 =
  (post_inventory_consume userId location (pre ++ post) d).1.
Proof.
  intros Hx. unfold post_inventory_consume.
  destruct (location =? 0); [reflexivity|].
  replace (is_empty (pre ++ x :: post)) with false by (destruct pre; reflexivity).
  simpl. unfold transact. rewrite !bind_unfold.
  rewrite (for_of_skip pre post x) by (intros w; apply consume_item_skips, Hx).
  destruct (is_empty (pre ++ post)) eqn:Hempty; [|reflexivity].
  destruct pre; [|discriminate]. destruct post; [|discriminate]. reflexivity.
Qed.

Lemma post_inventory_add_skip (userId : Z) (destination : string) (location : Z)
    (pre post : list supply_item) (x : supply_item) (d : db) :
  (if isNew x then name x = "" else inventory_id x = 0) ∨
  (∃ q, item_quantity x = Some q ∧ q ≤ 0) ->
  post_inventory_add userId destination location (pre ++ x :: post) d =
  post_inventory_add userId destination location (pre ++ post) d.
Proof.
  intros Hx. unfold post_inventory_add, transact. tx_simpl.
  destruct (select_location_named "Common Area" userId d) as [|c rows]; [reflexivity|].
  destruct (loc_id c =? 0); [reflexivity|].
  rewrite (for_of_skip pre post x) by (intros w; apply add_item_skips, Hx).
  reflexivity.
Qed.

Lemma post_inventory_consume_rollback (userId location : Z)
    (pre post : list supply_item) (x : supply_item) (d w : db) (r : response) :
  location ≠ 0 ->
  for_of pre (consume_item userId location) d = Next tt w ->
  consume_item userId location x w = Rollback r ->
  post_inventory_consume userId location (pre ++ x :: post) d = (d, r).
Proof.
  intros Hloc Hpre Hx. unfold post_inventory_consume.
  apply Z.eqb_neq in Hloc. rewrite Hloc.
  replace (is_empty (pre ++ x :: post)) with false by (destruct pre; reflexivity).
  simpl. unfold transact. rewrite bind_unfold.
  rewrite (for_of_app_rollback pre post x _ d w r Hpre Hx). reflexivity.
Qed.

Lemma post_inventory_add_rollback (userId : Z) (destination : string) (location : Z)
    (pre post : list supply_item) (x : supply_item) (d w : db) (r : response)
    (common : location_row) (others : list location_row) :
  select_location_named "Common Area" userId d = common :: others ->
  loc_id common ≠ 0 ->
  for_of pre (add_item userId destination location (loc_id common)) d = Next tt w ->
  add_item userId destination location (loc_id common) x w = Rollback r ->
  post_inventory_add userId destination location (pre ++ x :: post) d = (d, r).
Proof.
  intros Hcommon Hid Hpre Hx. unfold post_inventory_add, transact.
  rewrite bind_unfold. unfold get at 1. rewrite Hcommon.
  apply Z.eqb_neq in Hid. rewrite Hid. rewrite bind_unfold.
  rewrite (for_of_app_rollback pre post x _ d w r Hpre Hx). reflexivity.
Qed.

Lemma post_inventory_add_throw (userId : Z) (destination : string) (location : Z)
    (pre post : list supply_item) (x : supply_item) (d w : db) (e : js_error)
    (common : location_row) (others : list location_row) :
  select_location_named "Common Area" userId d = common :: others ->
  loc_id common ≠ 0 ->
  for_of pre (add_item userId destination location (loc_id common)) d = Next tt w ->
  add_item userId destination location (loc_id common) x w = Throw e ->
  post_inventory_add userId destination location (pre ++ x :: post) d =
    (d, add_on_catch e).
Proof.
  intros Hcommon Hid Hpre Hx. unfold post_inventory_add, transact.
  rewrite bind_unfold. unfold get at 1. rewrite Hcommon.
  apply Z.eqb_neq in Hid. rewrite Hid. rewrite bind_unfold.
  rewrite (for_of_app_throw pre post x _ d w e Hpre Hx). reflexivity.
Qed.

Lemma consume_item_not_passed_over (userId location : Z) (x : supply_item) (w w' : db) :
  inventory_id x ≠ 0 -> item_quantity x = None ->
  consume_item userId location x w ≠ Next tt w'.
Proof.
  intros Hid Hq. unfold consume_item. rewrite Hq. simpl. rewrite orb_false_r.
  destruct (Z.eqb_spec (inventory_id x) 0) as [|_]; [contradiction|].
  tx_simpl.
  destruct (is_empty (select_inventory_owned (inventory_id x) userId w)); [discriminate|].
  destruct (location_inventory w !! (inventory_id x, location)); discriminate.
Qed.

Lemma add_item_not_passed_over (userId : Z) (destination : string)
    (location commonAreaId : Z) (x : supply_item) (w w' : db) :
  (if isNew x then name x ≠ "" else inventory_id x ≠ 0) -> item_quantity x = None ->
  add_item userId destination location commonAreaId x w ≠ Next tt w'.
Proof.
  intros Hnamed Hq.
  unfold add_item, resolve_inventory_id. rewrite Hq. simpl. rewrite !orb_false_r.
  destruct (isNew x).
  - destruct (String.eqb_spec (name x) "") as [|_]; [contradiction|].
    tx_simpl. tx_cases; discriminate.
  - destruct (Z.eqb_spec (inventory_id x) 0) as [|_]; [contradiction|].
    tx_simpl. tx_cases; discriminate.
Qed.

(** C4, as the code has it: in a consume batch and in an add batch, once a
    movement is rejected (the handler rolls back and answers with that
    movement's error) or a statement of it raises an error, the store is
    what it was before the batch, whatever the earlier movements did to
    the working store and whatever follows.  A movement that names no item
    (no item id; for a new item, no name) or whose quantity is an integer
    that is zero or less is not rejected: it is passed over, and the batch
    does to the store what it does without that movement.  A movement
    that names an item and carries no quantity is not passed over: the
    guard [quantity <= 0] is false of it. *)
Theorem batch_rolls_back_on_rejection :
  (∀ userId location pre post x d w r,
     location ≠ 0 ->
     for_of pre (consume_item userId location) d = Next tt w ->
     consume_item userId location x w = Rollback r ->
     post_inventory_consume userId location (pre ++ x :: post) d = (d, r)) ∧
  (∀ userId location pre post x d w e,
     location ≠ 0 ->
     for_of pre (consume_item userId location) d = Next tt w ->
     consume_item userId location x w = Throw e ->
     post_inventory_consume userId location (pre ++ x :: post) d =
       (d, res_error 500 "Server error while consuming inventory")) ∧
  (∀ userId destination location pre post x d w r common others,
     select_location_named "Common Area" userId d = common :: others ->
     loc_id common ≠ 0 ->
     for_of pre (add_item userId destination location (loc_id common)) d = Next tt w ->
     add_item userId destination location (loc_id common) x w = Rollback r ->
     post_inventory_add userId destination location (pre ++ x :: post) d = (d, r)) ∧
  (∀ userId destination location pre post x d w e common others,
     select_location_named "Common Area" userId d = common :: others ->
     loc_id common ≠ 0 ->
     for_of pre (add_item userId destination location (loc_id common)) d = Next tt w ->
     add_item userId destination location (loc_id common) x w = Throw e ->
     post_inventory_add userId destination location (pre ++ x :: post) d =
       (d, add_on_catch e)) ∧
  (∀ userId location pre post x d,
     inventory_id x = 0 ∨ (∃ q, item_quantity x = Some q ∧ q ≤ 0) ->
     (∀ w, consume_item userId location x w = Next tt w) ∧
     (post_inventory_consume userId location (pre ++ x :: post) d).1 =
     (post_inventory_consume userId location (pre ++ post) d).1 ∧
     (pre ++ post ≠ [] ->
      post_inventory_consume userId location (pre ++ x :: post) d =
      post_inventory_consume userId location (pre ++ post) d)) ∧
  (∀ userId destination location pre post x d,
     (if isNew x then name x = "" else inventory_id x = 0) ∨
     (∃ q, item_quantity x = Some q ∧ q ≤ 0) ->
     (∀ commonAreaId w,
        add_item userId destination location commonAreaId x w = Next tt w) ∧
     post_inventory_add userId destination location (pre ++ x :: post) d =
     post_inventory_add userId destination location (pre ++ post) d) ∧
  (∀ userId location x w,
     inventory_id x ≠ 0 -> item_quantity x = None ->
     consume_item userId location x w ≠ Next tt w) ∧
  (∀ userId destination location commonAreaId x w,
     (if isNew x then name x ≠ "" else inventory_id x ≠ 0) -> item_quantity x = None ->
     add_item userId destination location commonAreaId x w ≠ Next tt w).
Proof.
  split; [intros; eapply post_inventory_consume_rollback; eauto|].
  split; [intros; eapply post_inventory_consume_throw; eauto|].
  split; [intros; eapply post_inventory_add_rollback; eauto|].
  split; [intros; eapply post_inventory_add_throw; eauto|].
  split.
  - intros userId location pre post x d Hx.
    split; [intros w; apply consume_item_skips, Hx|].
    split; [apply post_inventory_consume_skip, Hx|].
    intros Hne. unfold post_inventory_consume.
    destruct (location =? 0); [reflexivity|].
    replace (is_empty (pre ++ x :: post)) with false by (destruct pre; reflexivity).
    rewrite (is_empty_false _ Hne). simpl. unfold transact. rewrite !bind_unfold.
    rewrite (for_of_skip pre post x) by (intros w; apply consume_item_skips, Hx).
    reflexivity.
  - split; [|split].
    + intros userId destination location pre post x d Hx.
      split; [intros c w; apply add_item_skips, Hx|].
      apply post_inventory_add_skip, Hx.
    + intros. apply consume_item_not_passed_over; assumption.
    + intros. apply add_item_not_passed_over; assumption.
Qed.

Lemma batch_rolls_back_on_rejection_witness :
  post_inventory_consume 7 11 batch_with_shortage practice =
    (practice, res_error 400 "Not enough quantity of item ID 2 at location 11").
Proof.
  refine (proj1 batch_rolls_back_on_rejection 7 11 [existing_item 1 4]
            [existing_item 1 1] (existing_item 2 10) practice
            (set_location_inventory (<[(1, 11) := 2]> (location_inventory practice))
               practice)
            (res_error 400 "Not enough quantity of item ID 2 at location 11") _ _ _).
  - lia.
  - vm_compute. reflexivity.
  - vm_compute. reflexivity.
Defined.

(** C4, as stated, fails: the second of three movements asks for -1, which
    no Consume accepts, yet the batch commits the first and the third. *)
Lemma consume_batch_passes_over_invalid_movement :
  Exists (fun x => quantity x ≤ 0) batch_with_invalid ∧
  (post_inventory_consume 7 11 batch_with_invalid practice).2 =
    res_json (JMessage "Inventory consumed successfully") ∧
  quantity_at practice 1 11 = 6 ∧
  quantity_at practice 2 11 = 5 ∧
  quantity_at (post_inventory_consume 7 11 batch_with_invalid practice).1 1 11 = 2 ∧
  quantity_at (post_inventory_consume 7 11 batch_with_invalid practice).1 2 11 = 4 ∧
  (post_inventory_consume 7 11 batch_with_invalid practice).1 ≠ practice.
Proof.
  split.
  { apply Exists_cons_tl, Exists_cons_hd. unfold quantity. simpl. lia. }
  do 5 (split; [vm_compute; reflexivity|]).
  intros Heq. apply (f_equal (fun d => quantity_at d 1 11)) in Heq.
  vm_compute in Heq. discriminate.
Qed.

(** ** Transfer *)

(** What a transfer that answers 200 has done. *)
Lemma post_inventory_transfer_success
    (userId inventory_id source_location_id destination_location_id quantity : Z)
    (d d' : db) (r : response) :
  post_inventory_transfer userId inventory_id source_location_id
    destination_location_id quantity d = (d', r) ->
  status r = 200 ->
  ∃ sourceQty,
    location_inventory d !! (inventory_id, source_location_id) = Some sourceQty ∧
    quantity ≤ sourceQty ∧
    let decremented := <[(inventory_id, source_location_id) := sourceQty - quantity]>
                         (location_inventory d) in
    d' = set_location_inventory
           (<[(inventory_id, destination_location_id) :=
                default 0 (decremented !! (inventory_id, destination_location_id))
                + quantity]> decremented) d.
Proof.
  unfold post_inventory_transfer.
  destruct ((inventory_id =? 0) || (source_location_id =? 0) ||
            (destination_location_id =? 0) || (quantity =? 0)).
  { intros [= <- <-]. discriminate. }
  unfold transact. tx_simpl.
  destruct (is_empty (select_inventory_owned inventory_id userId d)).
  { intros [= <- <-]. discriminate. }
  destruct (location_inventory d !! (inventory_id, source_location_id))
    as [sourceQty|] eqn:Hsrc.
  2:{ intros [= <- <-]. discriminate. }
  destruct (sourceQty <? quantity) eqn:Hlt.
  { intros [= <- <-]. discriminate. }
  apply Z.ltb_ge in Hlt. simpl.
  rewrite (alter_present _ _ _ _ Hsrc).
  destruct (<[(inventory_id, source_location_id) := sourceQty - quantity]>
              (location_inventory d) !! (inventory_id, destination_location_id))
    as [current|] eqn:Hdst; simpl.
  - intros [= <- <-] _.
    exists sourceQty. split; [reflexivity|]. split; [exact Hlt|]. simpl.
    rewrite Hdst. reflexivity.
  - destruct (location_known destination_location_id _); simpl;
      [|intros [= <- <-]; discriminate].
    intros [= <- <-] _.
    exists sourceQty. split; [reflexivity|]. split; [exact Hlt|]. simpl.
    rewrite Hdst. reflexivity.
Qed.

(** C5: a transfer that succeeds leaves the item's total over the source
    and the destination as it was.  The source row, which exists and holds
    at least the quantity, is decremented by exactly the quantity, and the
    destination row is then incremented by exactly the quantity, or created
    with it when absent; between two different locations the source ends
    with the quantity less and the destination with the quantity more; no
    other row changes. *)
Theorem transfer_conserves_quantity
    (userId inventory_id source_location_id destination_location_id quantity : Z)
    (d d' : db) (r : response) :
  post_inventory_transfer userId inventory_id source_location_id
    destination_location_id quantity d = (d', r) ->
  status r = 200 ->
  quantity_at d' inventory_id source_location_id +
  quantity_at d' inventory_id destination_location_id =
  quantity_at d inventory_id source_location_id +
  quantity_at d inventory_id destination_location_id ∧
  (∃ sourceQty,
     location_inventory d !! (inventory_id, source_location_id) = Some sourceQty ∧
     quantity ≤ sourceQty ∧
     let decremented := <[(inventory_id, source_location_id) := sourceQty - quantity]>
                          (location_inventory d) in
     location_inventory d' =
       <[(inventory_id, destination_location_id) :=
           default 0 (decremented !! (inventory_id, destination_location_id)) + quantity]>
         decremented) ∧
  (source_location_id ≠ destination_location_id ->
   quantity_at d' inventory_id source_location_id =
     quantity_at d inventory_id source_location_id - quantity ∧
   quantity_at d' inventory_id destination_location_id =
     quantity_at d inventory_id destination_location_id + quantity ∧
   is_Some (location_inventory d' !! (inventory_id, destination_location_id))) ∧
  (∀ k, k ≠ (inventory_id, source_location_id) ->
        k ≠ (inventory_id, destination_location_id) ->
        location_inventory d' !! k = location_inventory d !! k).
Proof.
  intros Hrun Hok.
  destruct (post_inventory_transfer_success _ _ _ _ _ _ _ _ Hrun Hok)
    as (sourceQty & Hsrc & Hle & Hd').
  simpl in Hd'. subst d'. unfold quantity_at. simpl.
  split; [|split; [|split]].
  2:{ exists sourceQty. split; [exact Hsrc|]. split; [exact Hle|reflexivity]. }
  - destruct (decide (source_location_id = destination_location_id)) as [->|Hne].
    + rewrite !lookup_insert_eq, Hsrc. simpl. lia.
    + assert (Hk : (inventory_id, source_location_id) ≠
                   (inventory_id, destination_location_id)) by congruence.
      rewrite lookup_insert_eq.
      rewrite (lookup_insert_ne _ (inventory_id, destination_location_id)
                 (inventory_id, source_location_id)) by congruence.
      rewrite lookup_insert_eq.
      rewrite (lookup_insert_ne _ (inventory_id, source_location_id)
                 (inventory_id, destination_location_id)) by congruence.
      rewrite Hsrc. simpl. lia.
  - intros Hne.
    rewrite lookup_insert_eq.
    rewrite (lookup_insert_ne _ (inventory_id, destination_location_id)
               (inventory_id, source_location_id)) by congruence.
    rewrite lookup_insert_eq.
    rewrite (lookup_insert_ne _ (inventory_id, source_location_id)
               (inventory_id, destination_location_id)) by congruence.
    rewrite Hsrc. simpl. repeat split; eauto.
  - intros k Hks Hkd.
    rewrite lookup_insert_ne by congruence.
    rewrite lookup_insert_ne by congruence. reflexivity.
Qed.

Lemma transfer_conserves_quantity_witness :
  quantity_at (post_inventory_transfer 7 1 11 12 6 practice).1 1 11 +
  quantity_at (post_inventory_transfer 7 1 11 12 6 practice).1 1 12 =
  quantity_at practice 1 11 + quantity_at practice 1 12.
Proof.
  refine (proj1 (transfer_conserves_quantity 7 1 11 12 6 practice
                   (post_inventory_transfer 7 1 11 12 6 practice).1
                   (post_inventory_transfer 7 1 11 12 6 practice).2 _ _)).
  - vm_compute. reflexivity.
  - vm_compute. reflexivity.
Defined.

(** The scenario of the specification: six Gauze go from Room A, which is
    left with none, to Room B, whose row is created with six. *)
Example transfer_gauze_to_room_b :
  (post_inventory_transfer 7 1 11 12 6 practice).2 = res_json JSuccess ∧
  location_inventory (post_inventory_transfer 7 1 11 12 6 practice).1 !! (1, 11) = Some 0 ∧
  location_inventory practice !! (1, 12) = None ∧
  location_inventory (post_inventory_transfer 7 1 11 12 6 practice).1 !! (1, 12) = Some 6.
Proof. repeat split; vm_compute; reflexivity. Qed.




(** ** Scan check-in *)

Lemma location_known_elem (locationId : Z) (d : db) :
  location_known locationId d = true ↔ ∃ r, r ∈ locations d ∧ loc_id r = locationId.
Proof.
  unfold location_known. rewrite existsb_exists. split.
  - intros (r & Hin & Hid). exists r. split; [apply list_elem_of_In, Hin|apply Z.eqb_eq, Hid].
  - intros (r & Hin & Hid). exists r. split; [apply list_elem_of_In, Hin|apply Z.eqb_eq, Hid].
Qed.

Lemma location_unknown (locationId : Z) (d : db) :
  (∀ r, r ∈ locations d -> loc_id r ≠ locationId) -> location_known locationId d = false.
Proof.
  intros Hno. destruct (location_known locationId d) eqn:Hk; [|reflexivity].
  apply location_known_elem in Hk as (r & Hin & Hid). destruct (Hno r Hin Hid).
Qed.

Lemma int4_true (z : Z) : -2147483648 ≤ z ≤ 2147483647 -> int4 z = true.
Proof. unfold int4. intros [H1 H2]. apply andb_true_iff. split; apply Z.leb_le; assumption. Qed.

Lemma int4_false (z : Z) : 2147483647 < z -> int4 z = false.
Proof.
  unfold int4. intros H. apply andb_false_iff. right. apply Z.leb_gt. exact H.
Qed.

(** C10, as the code has it: POST /api/barcode/checkin takes zero and
    negative quantities, and no more than the quantity column holds.
    Where the (item, location) row exists, the call is refused with 400
    when the quantity held plus the quantity given is below zero, fails
    with 500 when that sum is above 2147483647, and otherwise succeeds and
    sets the row to the sum.  Where no row exists, the call is refused
    with 400 when the quantity given is below zero, fails with 500 when it
    is above 2147483647 or the location is not in locations, and for an
    item of the catalog otherwise succeeds and inserts a row holding the
    quantity.  A call that does not succeed leaves the store as it was. *)
Theorem checkin_accepts_any_integer (inventory_id qty location_id : Z) (d : db) :
  (∀ currentQty,
     location_inventory d !! (inventory_id, location_id) = Some currentQty ->
     (currentQty + qty < 0 ->
      post_barcode_checkin inventory_id (Some qty) location_id d =
        (d, res_error 400 "Insufficient quantity at location")) ∧
     (2147483647 < currentQty + qty ->
      post_barcode_checkin inventory_id (Some qty) location_id d =
        (d, res_error 500 "Check-in failed")) ∧
     (0 ≤ currentQty + qty ≤ 2147483647 ->
      post_barcode_checkin inventory_id (Some qty) location_id d =
        (set_location_inventory
           (<[(inventory_id, location_id) := currentQty + qty]> (location_inventory d)) d,
         res_json JSuccess) ∧
      location_inventory (post_barcode_checkin inventory_id (Some qty) location_id d).1 =
        <[(inventory_id, location_id) := currentQty + qty]> (location_inventory d))) ∧
  (location_inventory d !! (inventory_id, location_id) = None ->
   (qty < 0 ->
    post_barcode_checkin inventory_id (Some qty) location_id d =
      (d, res_error 400 "Insufficient quantity at location")) ∧
   (0 ≤ qty ->
    2147483647 < qty ∨ (∀ r, r ∈ locations d -> loc_id r ≠ location_id) ->
    post_barcode_checkin inventory_id (Some qty) location_id d =
      (d, res_error 500 "Check-in failed")) ∧
   (0 ≤ qty ≤ 2147483647 ->
    (∃ r, r ∈ locations d ∧ loc_id r = location_id) ->
    (∃ r, r ∈ inventory d ∧ inv_id r = inventory_id) ->
    post_barcode_checkin inventory_id (Some qty) location_id d =
      (set_location_inventory
         (<[(inventory_id, location_id) := qty]> (location_inventory d)) d,
       res_json JSuccess) ∧
    location_inventory (post_barcode_checkin inventory_id (Some qty) location_id d).1 =
      <[(inventory_id, location_id) := qty]> (location_inventory d))).
Proof.
  split.
  - intros currentQty Hrow.
    unfold post_barcode_checkin, transact. tx_simpl. rewrite Hrow. simpl.
    split; [|split].
    + intros Hneg. apply Z.ltb_lt in Hneg. rewrite Hneg. reflexivity.
    + intros Hbig.
      destruct (Z.ltb_spec (currentQty + qty) 0) as [|_]; [lia|].
      rewrite (int4_false _ Hbig). reflexivity.
    + intros Hfit.
      destruct (Z.ltb_spec (currentQty + qty) 0) as [|_]; [lia|].
      rewrite int4_true by lia. simpl.
      rewrite (alter_present _ _ _ _ Hrow). split; reflexivity.
  - intros Hrow.
    unfold post_barcode_checkin, transact. tx_simpl. rewrite Hrow. simpl.
    change (0 + qty) with qty.
    split; [|split].
    + intros Hneg. apply Z.ltb_lt in Hneg. rewrite Hneg. reflexivity.
    + intros Hpos Hwhy.
      destruct (Z.ltb_spec qty 0) as [|_]; [lia|].
      destruct Hwhy as [Hbig|Hloc].
      * rewrite (int4_false _ Hbig). reflexivity.
      * destruct (int4 qty); [|reflexivity]. simpl.
        rewrite (location_unknown _ _ Hloc). reflexivity.
    + intros Hfit Hloc _.
      destruct (Z.ltb_spec qty 0) as [|_]; [lia|].
      rewrite int4_true by lia. simpl.
      rewrite (proj2 (location_known_elem _ _) Hloc). split; reflexivity.
Qed.

Lemma checkin_accepts_any_integer_witness :
  post_barcode_checkin 1 (Some (-3)) 11 practice =
    (set_location_inventory (<[(1, 11) := 6 + -3]> (location_inventory practice)) practice,
     res_json JSuccess).
Proof.
  refine (proj1 (proj2 (proj2
            (proj1 (checkin_accepts_any_integer 1 (-3) 11 practice) 6 _)) _)).
  - vm_compute. reflexivity.
  - lia.
Defined.

(** C10, as stated, fails: with 6 Gauze in Room A, a check-in of
    2147483647 makes a sum that is at least zero, and the call fails with
    500; so does a check-in of 5 at a location that is not there. *)
Lemma checkin_beyond_the_column_fails :
  location_inventory practice !! (1, 11) = Some 6 ∧
  0 ≤ 6 + 2147483647 ∧
  post_barcode_checkin 1 (Some 2147483647) 11 practice =
    (practice, res_error 500 "Check-in failed") ∧
  location_inventory practice !! (1, 99) = None ∧
  post_barcode_checkin 1 (Some 5) 99 practice =
    (practice, res_error 500 "Check-in failed").
Proof.
  split; [vm_compute; reflexivity|]. split; [lia|].
  split; [vm_compute; reflexivity|].
  split; vm_compute; reflexivity.
Qed.

(** Scan check-in at work: a negative quantity takes stock away, zero
    creates an empty row, and what would go below zero is refused. *)
Example checkin_negative_and_zero :
  quantity_at (post_barcode_checkin 1 (Some (-3)) 11 practice).1 1 11 = 3 ∧
  (post_barcode_checkin 1 (Some (-7)) 11 practice) =
    (practice, res_error 400 "Insufficient quantity at location") ∧
  location_inventory (post_barcode_checkin 1 (Some 0) 12 practice).1 !! (1, 12) = Some 0 ∧
  (post_barcode_checkin 1 (Some (-1)) 12 practice) =
    (practice, res_error 400 "Insufficient quantity at location") ∧
  (post_barcode_checkin 1 None 11 practice) = (practice, res_error 400 "Invalid quantity").
Proof. repeat split; vm_compute; reflexivity. Qed.

(** ** Cost of a logged movement *)

Lemma put_supplies_cases (id q : Z) (cost : option float) (d : db) :
  status (put_supplies id q cost d).2 = 200 ->
  supplies (put_supplies id q cost d).1 !! id =
    Some {| sup_quantity := q; sup_cost_per_unit := cost |}.
Proof.
  unfold put_supplies. destruct (supplies d !! id); [|discriminate].
  intros _. simpl. apply lookup_insert_eq.
Qed.

(** C8, as the code has it: a logged movement records as unit cost the
    cost the catalog holds for the supply when POST /api/logs runs, read
    as a binary64 number (zero where the catalog holds none), and as total
    cost the binary64 product of that unit cost and the logged quantity.
    The cost is the one of the time of the call: once PUT
    /api/supplies/:id has given the supply another cost, a logging call
    records that one. *)
Theorem post_logs_cost_at_call_time (req : log_request) (d : db) :
  (status (post_logs req d).2 = 200 ->
   ∃ supply row,
     supplies d !! lr_supply_id req = Some supply ∧
     (post_logs req d).2 = res_json (JLog row) ∧
     supply_logs (post_logs req d).1 = supply_logs d ++ [row] ∧
     lg_quantity row = lr_quantity req ∧
     lg_unit_cost row =
       match sup_cost_per_unit supply with Some c => c | None => 0%float end ∧
     lg_total_cost row =
       PrimFloat.mul (lg_unit_cost row)
         (SF2Prim (SpecFloat.binary_normalize prec emax (lr_quantity req) 0 false))) ∧
  (∀ q cost,
     status (put_supplies (lr_supply_id req) q cost d).2 = 200 ->
     status (post_logs req (put_supplies (lr_supply_id req) q cost d).1).2 = 200 ->
     ∃ row,
       (post_logs req (put_supplies (lr_supply_id req) q cost d).1).2 =
         res_json (JLog row) ∧
       lg_unit_cost row = match cost with Some c => c | None => 0%float end ∧
       lg_total_cost row =
         PrimFloat.mul (lg_unit_cost row)
           (SF2Prim (SpecFloat.binary_normalize prec emax (lr_quantity req) 0 false))).
Proof.
  split.
  - intros Hok.
    destruct (post_logs_committed req d Hok)
      as (supply & after & row & Hsup & _ & Hres & Hlog & _ & _ & _ & Hq & _ & Hunit &
          Htotal & _).
    exists supply, row. repeat split; assumption.
  - intros q cost Hput Hok.
    destruct (post_logs_committed req _ Hok)
      as (supply & after & row & Hsup & _ & Hres & _ & _ & _ & _ & _ & _ & Hunit &
          Htotal & _).
    rewrite (put_supplies_cases _ _ _ _ Hput) in Hsup. injection Hsup as <-.
    exists row. repeat split; assumption.
Qed.

Lemma post_logs_cost_at_call_time_witness :
  ∃ row,
    (post_logs (use_supply 2) operatory).2 = res_json (JLog row) ∧
    lg_unit_cost row = 2.5%float ∧ lg_total_cost row = 5%float.
Proof.
  destruct (proj1 (post_logs_cost_at_call_time (use_supply 2) operatory) eq_refl)
    as (supply & row & Hsup & Hres & _ & _ & Hunit & Htotal).
  vm_compute in Hsup. injection Hsup as <-.
  exists row. split; [exact Hres|]. split; [exact Hunit|].
  rewrite Htotal, Hunit. vm_compute. reflexivity.
Defined.

(** C8, as stated, fails: the total cost is not the quantity times the
    cost per unit.  Three units used at 0.10 a unit are logged with the
    total cost 0.30000000000000004, which is not 0.30. *)
Lemma post_logs_total_cost_is_rounded :
  sup_cost_per_unit <$> supplies priced_by_the_tenth !! 1 = Some (Some tenth) ∧
  (post_logs (use_supply 3) priced_by_the_tenth).2 =
    res_json (JLog {| lg_user_id := 7; lg_op_id := 1; lg_supply_id := 1; lg_quantity := 3;
                      lg_action := "use"; lg_unit_cost := tenth;
                      lg_total_cost := 0x1.3333333333334p-2%float;
                      lg_procedure_id := None |}) ∧
  0x1.3333333333334p-2%float ≠ three_tenths.
Proof.
  split; [vm_compute; reflexivity|]. split; [vm_compute; reflexivity|].
  intros H. apply (f_equal Prim2SF) in H. vm_compute in H. discriminate.
Qed.

Example post_logs_after_price_change :
  (post_logs (use_supply 2) operatory).2 =
    res_json (JLog {| lg_user_id := 7; lg_op_id := 1; lg_supply_id := 1; lg_quantity := 2;
                      lg_action := "use"; lg_unit_cost := 2.5%float;
                      lg_total_cost := 5%float; lg_procedure_id := None |}) ∧
  (post_logs (use_supply 2) (put_supplies 1 3 (Some 4%float) operatory).1).2 =
    res_json (JLog {| lg_user_id := 7; lg_op_id := 1; lg_supply_id := 1; lg_quantity := 2;
                      lg_action := "use"; lg_unit_cost := 4%float;
                      lg_total_cost := 8%float; lg_procedure_id := None |}).
Proof. split; vm_compute; reflexivity. Qed.

(** ** The retry helpers *)

Lemma backoff_first : backoff 1 = 1000.
Proof. reflexivity. Qed.

(** Each delay doubles the uncapped one before it, up to the cap. *)
Lemma backoff_doubles (attempt : nat) :
  (1 ≤ attempt)%nat ->
  backoff (S attempt) = Z.min (2 * (1000 * 2 ^ (Z.of_nat attempt - 1))) 5000.
Proof.
  intros Hle. unfold backoff.
  replace (Z.of_nat (S attempt) - 1) with (Z.succ (Z.of_nat attempt - 1)) by lia.
  rewrite Z.pow_succ_r by lia. f_equal. lia.
Qed.

Lemma backoff_bounds (attempt : nat) :
  (1 ≤ attempt)%nat -> 1000 ≤ backoff attempt ≤ 5000.
Proof.
  intros Hle. unfold backoff.
  assert (0 < 2 ^ (Z.of_nat attempt - 1)) by (apply Z.pow_pos_nonneg; lia).
  lia.
Qed.

Lemma dont_retry_codes (error : js_error) :
  dont_retry error = true ↔
  err_code error = Some "23505" ∨ err_code error = Some "23503" ∨
  err_code error = Some "42P01" ∨ err_code error = Some "42703".
Proof.
  unfold dont_retry. rewrite !orb_true_iff, !bool_decide_eq_true. tauto.
Qed.

(** One turn of the loop of [query]. *)
Lemma query_loop_step {A} (pool_query : nat -> settled A) (retries k : nat)
    (lastError : option js_error) :
  query_loop pool_query retries (S k) lastError =
    match pool_query (retries - k)%nat with
    | Resolved result => ([Attempt (retries - k)], Returned result)
    | Rejected error =>
      if dont_retry error then ([Attempt (retries - k)], Thrown (Some error))
      else
        (Attempt (retries - k) ::
           (if (retries - k <? retries)%nat then [Sleep (backoff (retries - k))] else []) ++
           (query_loop pool_query retries k (Some error)).1,
         (query_loop pool_query retries k (Some error)).2)
    end.
Proof.
  simpl. destruct (pool_query (retries - k)%nat) as [result|error]; [reflexivity|].
  destruct (dont_retry error); [reflexivity|].
  destruct (query_loop pool_query retries k (Some error)). reflexivity.
Qed.

(** What the events of a retried turn are. *)
Lemma elem_of_retried (x : event) (attempt retries : nat) (events : list event) :
  x ∈ Attempt attempt ::
        (if (attempt <? retries)%nat then [Sleep (backoff attempt)] else []) ++ events ↔
  x = Attempt attempt ∨
  ((attempt < retries)%nat ∧ x = Sleep (backoff attempt)) ∨
  x ∈ events.
Proof.
  rewrite elem_of_cons, elem_of_app.
  destruct (Nat.ltb_spec attempt retries) as [Hlt|Hge].
  - rewrite list_elem_of_singleton. tauto.
  - rewrite elem_of_nil. split; [tauto|]. intros [?|[[? ?]|?]]; [tauto|lia|tauto].
Qed.

Lemma query_loop_first {A} (pool_query : nat -> settled A) (retries k : nat)
    (lastError : option js_error) :
  Attempt (retries - k) ∈ (query_loop pool_query retries (S k) lastError).1.
Proof.
  rewrite query_loop_step.
  destruct (pool_query (retries - k)%nat) as [result|error]; simpl.
  - apply list_elem_of_here.
  - destruct (dont_retry error); simpl; apply list_elem_of_here.
Qed.

(** Attempts are numbered within the bound. *)
Lemma query_loop_attempts {A} (pool_query : nat -> settled A) (retries : nat) :
  ∀ remaining lastError n,
    (remaining ≤ retries)%nat ->
    Attempt n ∈ (query_loop pool_query retries remaining lastError).1 ->
    (retries - remaining < n ≤ retries)%nat.
Proof.
  induction remaining as [|k IH]; intros lastError n Hle.
  { simpl. intros Hn. apply elem_of_nil in Hn. contradiction. }
  rewrite query_loop_step.
  destruct (pool_query (retries - k)%nat) as [result|error]; simpl.
  { rewrite list_elem_of_singleton. intros [= ->]. lia. }
  destruct (dont_retry error); simpl.
  { rewrite list_elem_of_singleton. intros [= ->]. lia. }
  rewrite elem_of_retried. intros [[= ->]|[[_ [=]]|Hn]]; [lia|].
  apply IH in Hn; lia.
Qed.

(** Every wait follows a failed attempt short of the last and lasts what
    the backoff says. *)
Lemma query_loop_sleeps {A} (pool_query : nat -> settled A) (retries : nat) :
  ∀ remaining lastError ms,
    (remaining ≤ retries)%nat ->
    Sleep ms ∈ (query_loop pool_query retries remaining lastError).1 ->
    ∃ n, (retries - remaining < n < retries)%nat ∧ ms = backoff n.
Proof.
  induction remaining as [|k IH]; intros lastError ms Hle.
  { simpl. intros Hn. apply elem_of_nil in Hn. contradiction. }
  rewrite query_loop_step.
  destruct (pool_query (retries - k)%nat) as [result|error]; simpl.
  { rewrite list_elem_of_singleton. intros [=]. }
  destruct (dont_retry error); simpl.
  { rewrite list_elem_of_singleton. intros [=]. }
  rewrite elem_of_retried. intros [[=]|[[Hlt [= ->]]|Hn]].
  - exists (retries - k)%nat. split; [lia|reflexivity].
  - apply IH in Hn as (n & Hn & ->); [|lia]. exists n. split; [lia|reflexivity].
Qed.

(** An attempt that settles the call, either way, is the last one. *)
Lemma query_loop_stops {A} (pool_query : nat -> settled A) (retries : nat) :
  ∀ remaining lastError n,
    (remaining ≤ retries)%nat ->
    Attempt n ∈ (query_loop pool_query retries remaining lastError).1 ->
    match pool_query n with
    | Resolved result =>
      (query_loop pool_query retries remaining lastError).2 = Returned result ∧
      Attempt (S n) ∉ (query_loop pool_query retries remaining lastError).1
    | Rejected error =>
      if dont_retry error then
        (query_loop pool_query retries remaining lastError).2 = Thrown (Some error) ∧
        Attempt (S n) ∉ (query_loop pool_query retries remaining lastError).1
      else
        (n < retries)%nat ->
        Sleep (backoff n) ∈ (query_loop pool_query retries remaining lastError).1 ∧
        Attempt (S n) ∈ (query_loop pool_query retries remaining lastError).1
    end.
Proof.
  induction remaining as [|k IH]; intros lastError n Hle.
  { simpl. intros Hn. apply elem_of_nil in Hn. contradiction. }
  rewrite query_loop_step.
  destruct (pool_query (retries - k)%nat) as [result|error] eqn:Hq; simpl.
  { rewrite list_elem_of_singleton. intros [= ->]. rewrite Hq.
    split; [reflexivity|]. rewrite list_elem_of_singleton. intros [=]. lia. }
  destruct (dont_retry error) eqn:Hstop; simpl.
  { rewrite list_elem_of_singleton. intros [= ->]. rewrite Hq, Hstop.
    split; [reflexivity|]. rewrite list_elem_of_singleton. intros [=]. lia. }
  rewrite elem_of_retried. intros [[= ->]|[[_ [=]]|Hn]].
  - rewrite Hq, Hstop. intros Hlt. rewrite !elem_of_retried. split; [auto|].
    right. right. destruct k as [|k']; [lia|].
    replace (S (retries - S k'))%nat with (retries - k')%nat by lia.
    apply query_loop_first.
  - pose proof (query_loop_attempts _ _ _ _ _ (Nat.lt_le_incl _ _ Hle) Hn) as Hrange.
    specialize (IH (Some error) n (Nat.lt_le_incl _ _ Hle) Hn).
    destruct (pool_query n) as [result|e].
    + destruct IH as [-> Hnot]. split; [reflexivity|].
      rewrite elem_of_retried. intros [[=]|[[_ [=]]|?]]; [lia|contradiction].
    + destruct (dont_retry e).
      * destruct IH as [-> Hnot]. split; [reflexivity|].
        rewrite elem_of_retried. intros [[=]|[[_ [=]]|?]]; [lia|contradiction].
      * intros Hlt. destruct (IH Hlt) as [Hs Ha]. rewrite !elem_of_retried. auto.
Qed.

(** One turn of the loop of [transaction]. *)
Lemma transaction_loop_step {A} (pool_connect : nat -> option js_error)
    (callback : nat -> db -> settled (A * db)) (retries k : nat)
    (lastError : option js_error) (d : db) :
  transaction_loop pool_connect callback retries (S k) lastError d =
    match pool_connect (retries - k)%nat with
    | Some unavailable => (d, [Attempt (retries - k)], Thrown (Some unavailable))
    | None =>
      match callback (retries - k)%nat d with
      | Resolved (result, working) => (working, [Attempt (retries - k)], Returned result)
      | Rejected error =>
        if dont_retry error then (d, [Attempt (retries - k)], Thrown (Some error))
        else
          ((transaction_loop pool_connect callback retries k (Some error) d).1.1,
           Attempt (retries - k) ::
             (if (retries - k <? retries)%nat
              then [Sleep (backoff (retries - k))] else []) ++
             (transaction_loop pool_connect callback retries k (Some error) d).1.2,
           (transaction_loop pool_connect callback retries k (Some error) d).2)
      end
    end.
Proof.
  simpl. destruct (pool_connect (retries - k)%nat); [reflexivity|].
  destruct (callback (retries - k)%nat d) as [[result working]|error]; [reflexivity|].
  destruct (dont_retry error); [reflexivity|].
  destruct (transaction_loop pool_connect callback retries k (Some error) d) as [[? ?] ?].
  reflexivity.
Qed.

Lemma transaction_loop_first {A} (pool_connect : nat -> option js_error)
    (callback : nat -> db -> settled (A * db)) (retries k : nat)
    (lastError : option js_error) (d : db) :
  Attempt (retries - k) ∈
    (transaction_loop pool_connect callback retries (S k) lastError d).1.2.
Proof.
  rewrite transaction_loop_step.
  destruct (pool_connect (retries - k)%nat); simpl; [apply list_elem_of_here|].
  destruct (callback (retries - k)%nat d) as [[result working]|error]; simpl;
    [apply list_elem_of_here|].
  destruct (dont_retry error); simpl; apply list_elem_of_here.
Qed.

Lemma transaction_loop_attempts {A} (pool_connect : nat -> option js_error)
    (callback : nat -> db -> settled (A * db)) (retries : nat) (d : db) :
  ∀ remaining lastError n,
    (remaining ≤ retries)%nat ->
    Attempt n ∈ (transaction_loop pool_connect callback retries remaining lastError d).1.2 ->
    (retries - remaining < n ≤ retries)%nat.
Proof.
  induction remaining as [|k IH]; intros lastError n Hle.
  { simpl. intros Hn. apply elem_of_nil in Hn. contradiction. }
  rewrite transaction_loop_step.
  destruct (pool_connect (retries - k)%nat); simpl.
  { rewrite list_elem_of_singleton. intros [= ->]. lia. }
  destruct (callback (retries - k)%nat d) as [[result working]|error]; simpl.
  { rewrite list_elem_of_singleton. intros [= ->]. lia. }
  destruct (dont_retry error); simpl.
  { rewrite list_elem_of_singleton. intros [= ->]. lia. }
  rewrite elem_of_retried. intros [[= ->]|[[_ [=]]|Hn]]; [lia|].
  apply IH in Hn; lia.
Qed.

Lemma transaction_loop_sleeps {A} (pool_connect : nat -> option js_error)
    (callback : nat -> db -> settled (A * db)) (retries : nat) (d : db) :
  ∀ remaining lastError ms,
    (remaining ≤ retries)%nat ->
    Sleep ms ∈ (transaction_loop pool_connect callback retries remaining lastError d).1.2 ->
    ∃ n, (retries - remaining < n < retries)%nat ∧ ms = backoff n.
Proof.
  induction remaining as [|k IH]; intros lastError ms Hle.
  { simpl. intros Hn. apply elem_of_nil in Hn. contradiction. }
  rewrite transaction_loop_step.
  destruct (pool_connect (retries - k)%nat); simpl.
  { rewrite list_elem_of_singleton. intros [=]. }
  destruct (callback (retries - k)%nat d) as [[result working]|error]; simpl.
  { rewrite list_elem_of_singleton. intros [=]. }
  destruct (dont_retry error); simpl.
  { rewrite list_elem_of_singleton. intros [=]. }
  rewrite elem_of_retried. intros [[=]|[[Hlt [= ->]]|Hn]].
  - exists (retries - k)%nat. split; [lia|reflexivity].
  - apply IH in Hn as (n & Hn & ->); [|lia]. exists n. split; [lia|reflexivity].
Qed.

(** An attempt that cannot connect, or whose callback settles the call, is
    the last one; only a resolved callback changes the store. *)
Lemma transaction_loop_stops {A} (pool_connect : nat -> option js_error)
    (callback : nat -> db -> settled (A * db)) (retries : nat) (d : db) :
  ∀ remaining lastError n,
    (remaining ≤ retries)%nat ->
    Attempt n ∈ (transaction_loop pool_connect callback retries remaining lastError d).1.2 ->
    match pool_connect n with
    | Some unavailable =>
      (transaction_loop pool_connect callback retries remaining lastError d).2 =
        Thrown (Some unavailable) ∧
      (transaction_loop pool_connect callback retries remaining lastError d).1.1 = d ∧
      Attempt (S n) ∉
        (transaction_loop pool_connect callback retries remaining lastError d).1.2
    | None =>
      match callback n d with
      | Resolved (result, working) =>
        (transaction_loop pool_connect callback retries remaining lastError d).2 =
          Returned result ∧
        (transaction_loop pool_connect callback retries remaining lastError d).1.1 =
          working ∧
        Attempt (S n) ∉
          (transaction_loop pool_connect callback retries remaining lastError d).1.2
      | Rejected error =>
        if dont_retry error then
          (transaction_loop pool_connect callback retries remaining lastError d).2 =
            Thrown (Some error) ∧
          (transaction_loop pool_connect callback retries remaining lastError d).1.1 = d ∧
          Attempt (S n) ∉
            (transaction_loop pool_connect callback retries remaining lastError d).1.2
        else
          (n < retries)%nat ->
          Sleep (backoff n) ∈
            (transaction_loop pool_connect callback retries remaining lastError d).1.2 ∧
          Attempt (S n) ∈
            (transaction_loop pool_connect callback retries remaining lastError d).1.2
      end
    end.
Proof.
  induction remaining as [|k IH]; intros lastError n Hle.
  { simpl. intros Hn. apply elem_of_nil in Hn. contradiction. }
  rewrite transaction_loop_step.
  destruct (pool_connect (retries - k)%nat) as [unavailable|] eqn:Hc; simpl.
  { rewrite list_elem_of_singleton. intros [= ->]. rewrite Hc.
    repeat split. rewrite list_elem_of_singleton. intros [=]. lia. }
  destruct (callback (retries - k)%nat d) as [[result working]|error] eqn:Hq; simpl.
  { rewrite list_elem_of_singleton. intros [= ->]. rewrite Hc, Hq.
    repeat split. rewrite list_elem_of_singleton. intros [=]. lia. }
  destruct (dont_retry error) eqn:Hstop; simpl.
  { rewrite list_elem_of_singleton. intros [= ->]. rewrite Hc, Hq, Hstop.
    repeat split. rewrite list_elem_of_singleton. intros [=]. lia. }
  rewrite elem_of_retried. intros [[= ->]|[[_ [=]]|Hn]].
  - rewrite Hc, Hq, Hstop. intros Hlt. rewrite !elem_of_retried. split; [auto|].
    right. right. destruct k as [|k']; [lia|].
    replace (S (retries - S k'))%nat with (retries - k')%nat by lia.
    apply transaction_loop_first.
  - pose proof (transaction_loop_attempts _ _ _ _ _ _ _ (Nat.lt_le_incl _ _ Hle) Hn)
      as Hrange.
    specialize (IH (Some error) n (Nat.lt_le_incl _ _ Hle) Hn).
    assert (Hnot : ∀ events : list event,
              Attempt (S n) ∉ events ->
              Attempt (S n) ∉
                Attempt (retries - k) ::
                  (if (retries - k <? retries)%nat
                   then [Sleep (backoff (retries - k))] else []) ++ events).
    { intros events Hev. rewrite elem_of_retried.
      intros [[=]|[[_ [=]]|?]]; [lia|contradiction]. }
    destruct (pool_connect n) as [unavailable|].
    + destruct IH as (Hout & Hd & Hev). auto.
    + destruct (callback n d) as [[result working]|e].
      * destruct IH as (Hout & Hd & Hev). auto.
      * destruct (dont_retry e).
        -- destruct IH as (Hout & Hd & Hev). auto.
        -- intros Hlt. destruct (IH Hlt) as [Hs Ha]. rewrite !elem_of_retried. auto.
Qed.

(** A transaction that throws leaves the store as it was. *)
Lemma transaction_loop_thrown {A} (pool_connect : nat -> option js_error)
    (callback : nat -> db -> settled (A * db)) (retries : nat) (d : db) :
  ∀ remaining lastError e,
    (transaction_loop pool_connect callback retries remaining lastError d).2 = Thrown e ->
    (transaction_loop pool_connect callback retries remaining lastError d).1.1 = d.
Proof.
  induction remaining as [|k IH]; intros lastError e; [reflexivity|].
  rewrite transaction_loop_step.
  destruct (pool_connect (retries - k)%nat); [reflexivity|].
  destruct (callback (retries - k)%nat d) as [[result working]|error]; [discriminate|].
  destruct (dont_retry error); [reflexivity|]. simpl. apply IH.
Qed.

(** C6, as the code has it: [query] and [transaction] make at most
    [retries] attempts, the first whenever [retries] is at least one.  An
    attempt that fails with code 23505, 23503, 42P01 or 42703 is the last:
    its error is thrown with no wait and no further attempt.  After an
    attempt short of the last that fails with any other error the helper
    waits min(1000 * 2^(attempt-1), 5000) milliseconds, 1000 at first and
    never more than 5000, and tries again; a not-null violation (23502) is
    such an error.  [transaction] moreover throws at once when no client
    can be had from the pool, and leaves the store as it was unless its
    callback resolves. *)
Theorem retry_policy :
  (∀ (A : Type) (pool_query : nat -> settled A) (retries : nat),
     ((1 ≤ retries)%nat -> Attempt 1 ∈ (query pool_query retries).1) ∧
     (∀ n, Attempt n ∈ (query pool_query retries).1 ->
        (1 ≤ n ≤ retries)%nat ∧
        match pool_query n with
        | Resolved result =>
          (query pool_query retries).2 = Returned result ∧
          Attempt (S n) ∉ (query pool_query retries).1
        | Rejected error =>
          if dont_retry error then
            (query pool_query retries).2 = Thrown (Some error) ∧
            Attempt (S n) ∉ (query pool_query retries).1
          else
            (n < retries)%nat ->
            Sleep (backoff n) ∈ (query pool_query retries).1 ∧
            Attempt (S n) ∈ (query pool_query retries).1
        end) ∧
     (∀ ms, Sleep ms ∈ (query pool_query retries).1 ->
        ∃ n, (1 ≤ n < retries)%nat ∧ ms = backoff n ∧ 1000 ≤ ms ≤ 5000)) ∧
  (∀ (A : Type) (pool_connect : nat -> option js_error)
     (callback : nat -> db -> settled (A * db)) (retries : nat) (d : db),
     ((1 ≤ retries)%nat ->
      Attempt 1 ∈ (transaction pool_connect callback retries d).1.2) ∧
     (∀ n, Attempt n ∈ (transaction pool_connect callback retries d).1.2 ->
        (1 ≤ n ≤ retries)%nat ∧
        match pool_connect n with
        | Some unavailable =>
          (transaction pool_connect callback retries d).2 = Thrown (Some unavailable) ∧
          (transaction pool_connect callback retries d).1.1 = d ∧
          Attempt (S n) ∉ (transaction pool_connect callback retries d).1.2
        | None =>
          match callback n d with
          | Resolved (result, working) =>
            (transaction pool_connect callback retries d).2 = Returned result ∧
            (transaction pool_connect callback retries d).1.1 = working ∧
            Attempt (S n) ∉ (transaction pool_connect callback retries d).1.2
          | Rejected error =>
            if dont_retry error then
              (transaction pool_connect callback retries d).2 = Thrown (Some error) ∧
              (transaction pool_connect callback retries d).1.1 = d ∧
              Attempt (S n) ∉ (transaction pool_connect callback retries d).1.2
            else
              (n < retries)%nat ->
              Sleep (backoff n) ∈ (transaction pool_connect callback retries d).1.2 ∧
              Attempt (S n) ∈ (transaction pool_connect callback retries d).1.2
          end
        end) ∧
     (∀ ms, Sleep ms ∈ (transaction pool_connect callback retries d).1.2 ->
        ∃ n, (1 ≤ n < retries)%nat ∧ ms = backoff n ∧ 1000 ≤ ms ≤ 5000) ∧
     (∀ e, (transaction pool_connect callback retries d).2 = Thrown e ->
        (transaction pool_connect callback retries d).1.1 = d)) ∧
  (∀ error,
     dont_retry error = true ↔
     err_code error = Some "23505" ∨ err_code error = Some "23503" ∨
     err_code error = Some "42P01" ∨ err_code error = Some "42703") ∧
  dont_retry not_null_violation = false ∧
  backoff 1 = 1000 ∧
  (∀ attempt, (1 ≤ attempt)%nat ->
     backoff (S attempt) = Z.min (2 * (1000 * 2 ^ (Z.of_nat attempt - 1))) 5000).
Proof.
  split; [|split; [|split; [|split; [|split]]]].
  - intros A pool_query retries. unfold query. split; [|split].
    + intros Hle. destruct retries as [|k]; [lia|].
      replace 1%nat with (S k - k)%nat by lia. apply query_loop_first.
    + intros n Hn. split.
      * apply query_loop_attempts in Hn; lia.
      * apply query_loop_stops; [lia|exact Hn].
    + intros ms Hms. apply query_loop_sleeps in Hms as (n & Hn & ->); [|lia].
      exists n. split; [lia|]. split; [reflexivity|]. apply backoff_bounds. lia.
  - intros A pool_connect callback retries d. unfold transaction.
    split; [|split; [|split]].
    + intros Hle. destruct retries as [|k]; [lia|].
      replace 1%nat with (S k - k)%nat by lia. apply transaction_loop_first.
    + intros n Hn. split.
      * apply transaction_loop_attempts in Hn; lia.
      * apply transaction_loop_stops; [lia|exact Hn].
    + intros ms Hms. apply transaction_loop_sleeps in Hms as (n & Hn & ->); [|lia].
      exists n. split; [lia|]. split; [reflexivity|]. apply backoff_bounds. lia.
    + intros e. apply transaction_loop_thrown.
  - exact dont_retry_codes.
  - reflexivity.
  - exact backoff_first.
  - exact backoff_doubles.
Qed.

Lemma retry_policy_witness :
  Sleep (backoff 4) ∈ (query (fun _ => @Rejected unit connection_reset) 5).1 ∧
  Attempt 5 ∈ (query (fun _ => @Rejected unit connection_reset) 5).1.
Proof.
  refine (proj2 (proj1 (proj2 (proj1 retry_policy unit
                   (fun _ => Rejected connection_reset) 5%nat)) 4%nat _) _).
  - vm_compute. do 6 apply list_elem_of_further. apply list_elem_of_here.
  - lia.
Defined.

(** The helpers at work on a store that keeps resetting the connection,
    and on one that answers a unique violation at the second attempt. *)
Example query_backoff_trace :
  query (fun _ => @Rejected unit connection_reset) 5 =
    ([Attempt 1; Sleep 1000; Attempt 2; Sleep 2000; Attempt 3; Sleep 4000;
      Attempt 4; Sleep 5000; Attempt 5], Thrown (Some connection_reset)) ∧
  query (fun n => if (n <? 2)%nat then @Rejected unit connection_reset
                  else Rejected unique_violation) default_retries =
    ([Attempt 1; Sleep 1000; Attempt 2], Thrown (Some unique_violation)) ∧
  query (fun n => if (n <? 3)%nat then Rejected connection_reset else Resolved n)
        default_retries =
    ([Attempt 1; Sleep 1000; Attempt 2; Sleep 2000; Attempt 3], Returned 3%nat).
Proof. repeat split; vm_compute; reflexivity. Qed.

(** C6, as stated, fails: a not-null violation is not surfaced at the
    first attempt; [query] and [transaction] both wait and try again until
    the attempts run out. *)
Lemma not_null_violation_is_retried :
  err_code not_null_violation = Some "23502" ∧
  query (fun _ => @Rejected unit not_null_violation) default_retries =
    ([Attempt 1; Sleep 1000; Attempt 2; Sleep 2000; Attempt 3],
     Thrown (Some not_null_violation)) ∧
  transaction (fun _ => None) (fun _ _ => @Rejected (unit * db) not_null_violation)
              default_retries practice =
    (practice, [Attempt 1; Sleep 1000; Attempt 2; Sleep 2000; Attempt 3],
     Thrown (Some not_null_violation)).
Proof. repeat split; vm_compute; reflexivity. Qed.

(** ** New items in an add batch *)

Lemma MatchText_cons (c : ascii) (p1 : string) (x : ascii) (t' : string) :
  MatchText (String c p1) (String x t') =
    if Ascii.eqb c backslash then
      match p1 with
      | EmptyString => LIKE_ERROR
      | String e p2 => if same_char e x then MatchText p2 t' else LIKE_FALSE
      end
    else if Ascii.eqb c percent then after_percent p1 (String x t')
    else if Ascii.eqb c underscore then MatchText p1 t'
    else if same_char c x then MatchText p1 t' else LIKE_FALSE.
Proof. reflexivity. Qed.

Lemma after_percent_cons (c : ascii) (p1 t : string) :
  after_percent (String c p1) t =
    if Ascii.eqb c percent then after_percent p1 t
    else if Ascii.eqb c underscore then
      match t with
      | EmptyString => LIKE_ABORT
      | String _ t' => after_percent p1 t'
      end
    else if Ascii.eqb c backslash then
      match p1 with
      | EmptyString => LIKE_ERROR
      | String e p2 => scan_text e (MatchText p2) t
      end
    else scan_text c (MatchText p1) t.
Proof. reflexivity. Qed.

Lemma scan_text_no_error (firstpat : ascii) (rest : string -> like_result) (t : string) :
  (∀ t', rest t' ≠ LIKE_ERROR) -> scan_text firstpat rest t ≠ LIKE_ERROR.
Proof.
  intros Hrest. induction t as [|x t IH]; simpl; [discriminate|].
  destruct (same_char firstpat x); [|exact IH].
  pose proof (Hrest t) as Ht. destruct (rest t); congruence.
Qed.

(** Without a backslash in the pattern the matcher never raises. *)
Lemma MatchText_no_error (p : string) :
  has_backslash p = false ->
  ∀ t, MatchText p t ≠ LIKE_ERROR ∧ after_percent p t ≠ LIKE_ERROR.
Proof.
  induction p as [|c p1 IH]; intros Hb t.
  { split; [destruct t|]; discriminate. }
  simpl in Hb. apply orb_false_iff in Hb as [Hc Hp1]. specialize (IH Hp1).
  split.
  - destruct t as [|x t'].
    + simpl. destruct (Ascii.eqb c percent && only_percents p1); discriminate.
    + rewrite MatchText_cons, Hc.
      destruct (Ascii.eqb c percent); [apply IH|].
      destruct (Ascii.eqb c underscore); [apply IH|].
      destruct (same_char c x); [apply IH|discriminate].
  - rewrite after_percent_cons, Hc.
    destruct (Ascii.eqb c percent); [apply IH|].
    destruct (Ascii.eqb c underscore).
    + destruct t; [discriminate|apply IH].
    + apply scan_text_no_error. intros t'. apply IH.
Qed.

Lemma ilike_no_error (pattern : string) :
  has_backslash pattern = false -> ∀ text, ilike pattern text ≠ None.
Proof.
  intros Hb text. unfold ilike.
  pose proof (proj1 (MatchText_no_error pattern Hb text)) as H.
  destruct (MatchText pattern text); congruence.
Qed.

Lemma append_snoc (s : string) (x : ascii) (t : string) :
  (s +:+ String x EmptyString) +:+ t = s +:+ String x t.
Proof.
  induction s as [|z s IH]; [reflexivity|].
  change (String z ((s +:+ String x EmptyString) +:+ t) = String z (s +:+ String x t)).
  f_equal. exact IH.
Qed.

(** A text behind a prefix, less its first character, is a text behind a
    prefix. *)
Lemma append_tail (s : string) (x : ascii) (t : string) :
  ∃ z s', s +:+ String x t = String z (s' +:+ t).
Proof.
  destruct s as [|z s].
  - exists x, EmptyString. reflexivity.
  - exists z, (s +:+ String x EmptyString). rewrite append_snoc. reflexivity.
Qed.

Lemma lower_percent (x : ascii) : lower percent = lower x -> x = percent.
Proof.
  destruct x as [[] [] [] [] [] [] [] []]; vm_compute; intros H;
    first [reflexivity | discriminate].
Qed.

Lemma scan_text_finds (c x : ascii) (rest : string -> like_result) (s t : string) :
  same_char c x = true -> rest t = LIKE_TRUE ->
  (∀ s', rest (s' +:+ t) ≠ LIKE_ABORT) -> (∀ t', rest t' ≠ LIKE_ERROR) ->
  scan_text c rest (s +:+ String x t) = LIKE_TRUE.
Proof.
  intros Hcx Ht Habort Herror. induction s as [|z s IH].
  - change (EmptyString +:+ String x t) with (String x t). simpl.
    rewrite Hcx, Ht. reflexivity.
  - change (String z s +:+ String x t) with (String z (s +:+ String x t)). simpl.
    destruct (same_char c z); [|exact IH].
    pose proof (Habort (s +:+ String x EmptyString)) as Ha.
    rewrite append_snoc in Ha. pose proof (Herror (s +:+ String x t)) as He.
    destruct (rest (s +:+ String x t)); [reflexivity|exact IH|contradiction|contradiction].
Qed.

(** A pattern without a backslash matches the text that is the pattern up
    to case, wherever the search for it starts. *)
Lemma MatchText_same_name (p : string) :
  has_backslash p = false ->
  ∀ t, fold_case p = fold_case t ->
    MatchText p t = LIKE_TRUE ∧
    (∀ s, after_percent p (s +:+ t) = LIKE_TRUE) ∧
    (∀ s, MatchText p (s +:+ t) ≠ LIKE_ABORT).
Proof.
  induction p as [|c p1 IH]; intros Hb t Hsame.
  { destruct t; [|discriminate]. split; [reflexivity|]. split; [reflexivity|].
    intros s. destruct (s +:+ ""); discriminate. }
  simpl in Hb. apply orb_false_iff in Hb as [Hc Hp1].
  destruct t as [|x t']; [discriminate|].
  simpl in Hsame. injection Hsame as Hcx Hrest.
  destruct (IH Hp1 t' Hrest) as (Hmatch & Hafter & Habort).
  pose proof (MatchText_no_error p1 Hp1) as Herror.
  assert (Hsame_char : same_char c x = true).
  { unfold same_char. rewrite Hcx. apply Ascii.eqb_refl. }
  destruct (Ascii.eqb c percent) eqn:Hpc.
  - apply Ascii.eqb_eq in Hpc. subst c. apply lower_percent in Hcx. subst x.
    assert (Hany : ∀ s, after_percent p1 (s +:+ String percent t') = LIKE_TRUE).
    { intros s. rewrite <- append_snoc. apply Hafter. }
    split; [|split].
    + rewrite MatchText_cons. simpl. apply (Hany EmptyString).
    + intros s. rewrite after_percent_cons. simpl. apply Hany.
    + intros s. destruct (append_tail s percent t') as (z & s' & Htail).
      rewrite Htail, MatchText_cons. simpl. rewrite <- Htail, Hany. discriminate.
  - destruct (Ascii.eqb c underscore) eqn:Hu.
    + split; [|split].
      * rewrite MatchText_cons, Hc, Hpc, Hu. exact Hmatch.
      * intros s. destruct (append_tail s x t') as (z & s' & Htail).
        rewrite Htail, after_percent_cons, Hpc, Hu. apply Hafter.
      * intros s. destruct (append_tail s x t') as (z & s' & Htail).
        rewrite Htail, MatchText_cons, Hc, Hpc, Hu. apply Habort.
    + split; [|split].
      * rewrite MatchText_cons, Hc, Hpc, Hu, Hsame_char. exact Hmatch.
      * intros s. rewrite after_percent_cons, Hpc, Hu, Hc.
        apply scan_text_finds; [exact Hsame_char|exact Hmatch|exact Habort|].
        intros t0. apply Herror.
      * intros s. destruct (append_tail s x t') as (z & s' & Htail).
        rewrite Htail, MatchText_cons, Hc, Hpc, Hu.
        destruct (same_char c z); [apply Habort|discriminate].
Qed.

(** Without a backslash in it, a name used as a pattern matches every
    name equal to it up to case. *)
Lemma ilike_same_name (pattern : string) :
  has_backslash pattern = false ->
  ∀ text, same_name pattern text -> ilike pattern text = Some true.
Proof.
  intros Hb text Hsame. unfold ilike.
  rewrite (proj1 (MatchText_same_name pattern Hb text Hsame)). reflexivity.
Qed.

(** The ILIKE selection finds a row whenever the user has an item of that
    name up to case, and every row it yields is a row of the user. *)
Lemma select_inventory_ilike_finds (nm : string) (userId : Z) (t : list inventory_row) :
  has_backslash nm = false ->
  (∃ r, r ∈ t ∧ inv_user_id r = userId ∧ same_name nm (inv_name r)) ->
  ∃ first rest, select_inventory_ilike nm userId t = Some (first :: rest).
Proof.
  intros Hb. induction t as [|r t' IH]; intros (r0 & Hin & Hu & Hname).
  { apply elem_of_nil in Hin. contradiction. }
  simpl. destruct (inv_user_id r =? userId) eqn:Hur.
  - pose proof (ilike_no_error nm Hb (inv_name r)) as Hne.
    destruct (ilike nm (inv_name r)) as [matched|] eqn:Hm; [|congruence].
    apply elem_of_cons in Hin as [->|Hin].
    + rewrite (ilike_same_name nm Hb _ Hname) in Hm. injection Hm as <-.
      assert (Hrest : ∃ rest, select_inventory_ilike nm userId t' = Some rest).
      { clear IH. induction t' as [|r1 t1 IH1]; simpl; [eauto|].
        destruct (inv_user_id r1 =? userId); [|exact IH1].
        pose proof (ilike_no_error nm Hb (inv_name r1)) as Hne1.
        destruct (ilike nm (inv_name r1)); [|congruence].
        destruct IH1 as [rest ->]. eauto. }
      destruct Hrest as [rest ->]. eauto.
    + destruct IH as (first & rest & ->); [eauto|].
      destruct matched; eauto.
  - apply elem_of_cons in Hin as [->|Hin].
    + apply Z.eqb_neq in Hur. contradiction.
    + apply IH. eauto.
Qed.

(** Where the name carries no backslash, C9 holds: a new item whose name
    equals, up to case, that of an item the user already has adds no row to
    the catalog. *)
Lemma add_item_reuses_existing (userId : Z) (destination : string)
    (location commonAreaId : Z) (item : supply_item) (d : db) :
  isNew item = true -> has_backslash (name item) = false ->
  (∃ r, r ∈ inventory d ∧ inv_user_id r = userId ∧ same_name (name item) (inv_name r)) ->
  match add_item userId destination location commonAreaId item d with
  | Next _ d' => inventory d' = inventory d
  | _ => True
  end.
Proof.
  intros Hnew Hb Hex.
  destruct (select_inventory_ilike_finds _ _ _ Hb Hex) as (first & rest & Hsel).
  unfold add_item, resolve_inventory_id. rewrite Hnew. tx_simpl.
  destruct (String.eqb (name item) "" || js_le_0 (item_quantity item)); [reflexivity|].
  simpl. rewrite Hsel. tx_cases.
Qed.

(** C9: the lookup of a new item's name is [name ILIKE $1], a pattern
    match, and a backslash in the name is read as an escape: the name
    "Pads S\M" as a pattern stands for "Pads SM".  The stockroom already
    lists "Pads S\M" for user 7; adding a new item of that very name finds
    nothing, inserts a second catalog item of the same name and stocks the
    new one, and adding it once more would insert a third. *)
Theorem add_new_item_with_backslash_creates_duplicate :
  pads ∈ inventory stockroom ∧
  inv_user_id pads = 7 ∧
  same_name "Pads S\M" (inv_name pads) ∧
  ilike "Pads S\M" (inv_name pads) = Some false ∧
  ilike "Pads S\M" "pads sm" = Some true ∧
  (post_inventory_add 7 "common_area" 0 [new_item "Pads S\M" 5] stockroom).2 =
    res_json (JMessage "Inventory added successfully!") ∧
  map inv_name (inventory stockroom) = ["Gauze"; "Gloves"; "Pads S\M"] ∧
  map inv_name
    (inventory (post_inventory_add 7 "common_area" 0 [new_item "Pads S\M" 5] stockroom).1) =
    ["Gauze"; "Gloves"; "Pads S\M"; "Pads S\M"] ∧
  quantity_at (post_inventory_add 7 "common_area" 0 [new_item "Pads S\M" 5] stockroom).1
    3 10 = 2 ∧
  quantity_at (post_inventory_add 7 "common_area" 0 [new_item "Pads S\M" 5] stockroom).1
    4 10 = 5 ∧
  map inv_name
    (inventory
       (post_inventory_add 7 "common_area" 0 [new_item "Pads S\M" 5]
          (post_inventory_add 7 "common_area" 0 [new_item "Pads S\M" 5] stockroom).1).1) =
    ["Gauze"; "Gloves"; "Pads S\M"; "Pads S\M"; "Pads S\M"].
Proof.
  split.
  { unfold stockroom. simpl. do 2 apply list_elem_of_further. apply list_elem_of_here. }
  repeat split; vm_compute; reflexivity.
Qed.

(** The same batch with a name free of backslashes reuses the item found:
    "GAUZE" goes to the Gauze already listed, and the catalog keeps its
    rows. *)
Example add_new_item_reuses_gauze :
  inventory (post_inventory_add 7 "common_area" 0 [new_item "GAUZE" 5] stockroom).1 =
    inventory stockroom ∧
  quantity_at (post_inventory_add 7 "common_area" 0 [new_item "GAUZE" 5] stockroom).1
    1 10 = 5.
Proof. split; vm_compute; reflexivity. Qed.

(** A name used as a pattern may also match an item of another name, and
    the first row found is the one stocked. *)
Example add_new_item_wildcard_name :
  (post_inventory_add 7 "common_area" 0 [new_item "G_____" 5] stockroom).2 =
    res_json (JMessage "Inventory added successfully!") ∧
  inventory (post_inventory_add 7 "common_area" 0 [new_item "G_____" 5] stockroom).1 =
    inventory stockroom ∧
  quantity_at (post_inventory_add 7 "common_area" 0 [new_item "G_____" 5] stockroom).1
    2 10 = 5.
Proof. repeat split; vm_compute; reflexivity. Qed.

(** * Further properties of the routes *)

(** ** Runs of requests *)

Ltac tx_cases_with tac :=
  repeat (simpl;
          match goal with
          | |- context [match ?x with _ => _ end] =>
            lazymatch x with
            | context [match _ with _ => _ end] => fail
            | _ => destruct x eqn:?
            end
          end);
  simpl; try exact I; tac.

Lemma Forall_List_filter {A} (P : A -> Prop) (f : A -> bool) (l : list A) :
  Forall P l -> Forall P (List.filter f l).
Proof.
  induction 1 as [|x l Hx Hl IH]; simpl; [constructor|].
  destruct (f x); [constructor|]; assumption.
Qed.

Lemma put_inventory_non_negative (userId id : Z) (nm : string) (code : option string)
    (location_id qty : Z) (d : db) :
  0 ≤ qty -> non_negative d ->
  non_negative (put_inventory userId id nm code location_id qty d).1.
Proof.
  intros Hq Hd. unfold put_inventory. apply hoare_transact; [|exact Hd].
  clear d Hd. intros d Hd. unfold update_inventory. tx_simpl.
  tx_cases_with idtac.
  all: try (apply (non_negative_set_location_inventory _ (set_inventory _ d) Hd);
            first [ apply map_Forall_alter_2; [apply Hd|intros; assumption]
                  | apply map_Forall_insert_2; [exact Hq|apply Hd] ]).
Qed.

Lemma delete_inventory_location_non_negative (userId inventoryId locationId : Z)
    (d : db) :
  non_negative d ->
  non_negative (delete_inventory_location userId inventoryId locationId d).1.
Proof.
  intros Hd. unfold delete_inventory_location. apply hoare_transact; [|exact Hd].
  clear d Hd. intros d Hd. unfold delete_location_inventory, delete_inventory. tx_simpl.
  assert (Hdel : map_Forall (fun _ q => 0 ≤ q)
                   (delete (inventoryId, locationId) (location_inventory d))).
  { apply map_Forall_delete, Hd. }
  tx_cases_with idtac.
  all: destruct Hd as (_ & Hs & Ho); repeat split; assumption.
Qed.

Lemma delete_op_supplies_non_negative (id : Z) (d : db) :
  non_negative d -> non_negative (delete_op_supplies id d).1.
Proof.
  intros Hd. unfold delete_op_supplies. apply hoare_transact; [|exact Hd].
  clear d Hd. intros d Hd. tx_simpl.
  destruct (List.filter (fun r => os_id r =? id) (op_supplies d)); [exact I|].
  simpl. destruct Hd as (Hl & Hs & Ho). repeat split; try assumption.
  simpl. apply Forall_List_filter, Ho.
Qed.

Lemma put_supplies_non_negative (id quantity : Z) (cost_per_unit : option float) (d : db) :
  0 ≤ quantity -> non_negative d ->
  non_negative (put_supplies id quantity cost_per_unit d).1.
Proof.
  intros Hq Hd. unfold put_supplies. destruct (supplies d !! id); [|exact Hd].
  destruct Hd as (Hl & Hs & Ho). repeat split; try assumption.
  simpl. apply map_Forall_insert_2; [exact Hq|exact Hs].
Qed.

Lemma serve_non_negative (r : request) (d : db) :
  guarded r -> non_negative d -> non_negative (serve r d).1.
Proof.
  destruct r; simpl; intros Hg Hd.
  - apply post_inventory_add_non_negative, Hd.
  - apply post_inventory_consume_non_negative, Hd.
  - apply post_inventory_transfer_non_negative; assumption.
  - apply put_inventory_non_negative; assumption.
  - apply delete_inventory_location_non_negative, Hd.
  - apply post_barcode_checkin_non_negative, Hd.
  - apply post_barcode_consume_non_negative, Hd.
  - apply post_op_supplies_non_negative, Hd.
  - apply delete_op_supplies_non_negative, Hd.
  - destruct Hg. apply post_logs_restock_non_negative; assumption.
  - apply put_supplies_non_negative; assumption.
Qed.

(** X1: served one after another from a store whose quantities are all at
    least zero, guarded requests to the eleven routes of [request] never
    leave a quantity below zero, in any table, at any point of the run.
    Guarded are all requests to these routes but a log request with
    action use or a quantity below zero, a transfer of a quantity that is
    not above zero, and a PUT of an item or of a supply that writes a
    quantity below zero. *)
Theorem guarded_requests_keep_non_negative (rs : list request) (d : db) (n : nat) :
  non_negative d -> Forall guarded rs -> non_negative (serve_all (take n rs) d).
Proof.
  intros Hd Hrs. revert d n Hd.
  induction Hrs as [|r rs Hr Hrs IH]; intros d n Hd.
  - destruct n; exact Hd.
  - destruct n as [|n]; [exact Hd|]. simpl.
    apply IH, serve_non_negative; assumption.
Qed.

Lemma guarded_requests_keep_non_negative_witness :
  non_negative (serve_all (take 4 morning) practice).
Proof.
  refine (guarded_requests_keep_non_negative morning practice 4 _ _).
  - apply (bool_decide_unpack _). vm_compute. reflexivity.
  - unfold morning. repeat constructor; simpl; lia.
Defined.

(** The morning, step by step, in Room A, Room B and the Common Area. *)
Example morning_at_the_practice :
  map (fun n => (quantity_at (serve_all (take n morning) practice) 1 11,
                 quantity_at (serve_all (take n morning) practice) 1 12,
                 quantity_at (serve_all (take n morning) practice) 2 11,
                 quantity_at (serve_all (take n morning) practice) 2 10))
      [0; 1; 2; 3; 4; 5; 6]%nat =
    [(6, 0, 5, 0); (2, 0, 5, 0); (0, 2, 5, 0); (0, 2, 5, 10); (0, 2, 0, 10);
     (0, 2, 0, 10); (0, 1, 0, 10)].
Proof. vm_compute. reflexivity. Qed.

(** ** The audit log over a run *)

Lemma put_inventory_logs (userId id : Z) (nm : string) (code : option string)
    (location_id qty : Z) (d : db) :
  supply_logs (put_inventory userId id nm code location_id qty d).1 = supply_logs d.
Proof.
  unfold put_inventory.
  apply (hoare_transact (logs_are (supply_logs d))); [|reflexivity].
  intros d0 Hd0. unfold update_inventory. tx_simpl. tx_cases.
Qed.

Lemma delete_inventory_location_logs (userId inventoryId locationId : Z) (d : db) :
  supply_logs (delete_inventory_location userId inventoryId locationId d).1 =
  supply_logs d.
Proof.
  unfold delete_inventory_location.
  apply (hoare_transact (logs_are (supply_logs d))); [|reflexivity].
  intros d0 Hd0. unfold delete_location_inventory, delete_inventory. tx_simpl. tx_cases.
Qed.

Lemma delete_op_supplies_logs (id : Z) (d : db) :
  supply_logs (delete_op_supplies id d).1 = supply_logs d.
Proof.
  unfold delete_op_supplies.
  apply (hoare_transact (logs_are (supply_logs d))); [|reflexivity].
  intros d0 Hd0. tx_simpl. tx_cases.
Qed.

Lemma serve_logs (r : request) (d : db) :
  supply_logs (serve r d).1 = supply_logs d ∨
  ∃ req row, r = PostLogs req ∧ supply_logs (serve r d).1 = supply_logs d ++ [row].
Proof.
  destruct r; simpl.
  - left. apply post_inventory_add_logs.
  - left. apply post_inventory_consume_logs.
  - left. apply post_inventory_transfer_logs.
  - left. apply put_inventory_logs.
  - left. apply delete_inventory_location_logs.
  - left. apply post_barcode_checkin_logs.
  - left. apply post_barcode_consume_logs.
  - left. apply post_op_supplies_logs.
  - left. apply delete_op_supplies_logs.
  - pose proof (post_logs_cases req d) as H.
    destruct (supplies d !! lr_supply_id req); [|left; rewrite H; reflexivity].
    destruct (op_known (lr_op_id req) d); [|left; rewrite H; reflexivity].
    right. rewrite H. eauto.
  - left. unfold put_supplies. destruct (supplies d !! id); reflexivity.
Qed.

(** X2: the audit log is append-only.  Whatever requests are served, the
    rows the log held are still there, unchanged and in place, at the head
    of the log; each request adds at most one row, and only a logging
    request adds any. *)
Theorem audit_log_is_append_only (rs : list request) (d : db) :
  prefix (supply_logs d) (supply_logs (serve_all rs d)) ∧
  (length (supply_logs (serve_all rs d)) ≤
     length (supply_logs d) +
     length (List.filter (fun r => match r with PostLogs _ => true | _ => false end) rs))%nat.
Proof.
  revert d. induction rs as [|r rs IH]; intros d; simpl.
  { split; [reflexivity|lia]. }
  destruct (IH (serve r d).1) as [Hpre Hlen].
  destruct (serve_logs r d) as [Heq|(req & row & -> & Heq)].
  - rewrite Heq in Hpre, Hlen. split; [exact Hpre|].
    destruct r; simpl in *; lia.
  - rewrite Heq in Hpre, Hlen. split.
    + etrans; [|exact Hpre]. apply prefix_app_r. reflexivity.
    + rewrite length_app in Hlen. simpl in *. lia.
Qed.

(** ** Rows of the location ledger over a run *)

Ltac rows_solver :=
  unfold rows_kept in *; simpl;
  rewrite ?dom_insert_L, ?dom_alter_L; try set_solver.

Lemma consume_item_rows (K : gset (Z * Z)) (userId location : Z) (item : supply_item) :
  hoare (rows_kept K) (consume_item userId location item) (fun _ => rows_kept K).
Proof. intros d Hd. unfold consume_item. tx_simpl. tx_cases_with rows_solver. Qed.

Lemma add_item_rows (K : gset (Z * Z)) (userId : Z) (destination : string)
    (location commonAreaId : Z) (item : supply_item) :
  hoare (rows_kept K) (add_item userId destination location commonAreaId item)
        (fun _ => rows_kept K).
Proof.
  intros d Hd. unfold add_item, resolve_inventory_id. tx_simpl.
  tx_cases_with rows_solver.
Qed.

Lemma serve_rows (r : request) (d : db) :
  keeps_rows r -> dom (location_inventory d) ⊆ dom (location_inventory (serve r d).1).
Proof.
  set (K := dom (location_inventory d)).
  assert (Hd : rows_kept K d) by (unfold rows_kept; reflexivity).
  change (keeps_rows r -> rows_kept K (serve r d).1).
  destruct r as [u dest loc items|u loc items|u inv src dst q|u id nm code loc q
                |u inv loc|inv oq loc|u inv oq loc|op sup oq|id|req|id q cost];
    simpl; intros Hr.
  - unfold post_inventory_add. apply hoare_transact; [|exact Hd].
    intros d0 Hd0. tx_simpl.
    destruct (select_location_named "Common Area" u d0) as [|c rows]; [exact I|].
    destruct (loc_id c =? 0); [exact I|].
    pose proof (hoare_for_of _ items _
                  (add_item_rows K u dest loc (loc_id c)) d0 Hd0) as H.
    destruct (for_of items (add_item u dest loc (loc_id c)) d0); simpl; auto.
  - unfold post_inventory_consume.
    destruct ((loc =? 0) || is_empty items); [exact Hd|].
    apply hoare_transact; [|exact Hd].
    eapply hoare_bind; [apply hoare_for_of, consume_item_rows|].
    intros t. apply hoare_ret. auto.
  - unfold post_inventory_transfer.
    destruct ((inv =? 0) || (src =? 0) || (dst =? 0) || (q =? 0)); [exact Hd|].
    apply hoare_transact; [|exact Hd]. intros d0 Hd0. tx_simpl.
    tx_cases_with rows_solver.
  - unfold put_inventory. apply hoare_transact; [|exact Hd].
    intros d0 Hd0. unfold update_inventory. tx_simpl. tx_cases_with rows_solver.
  - contradiction.
  - unfold post_barcode_checkin. destruct oq as [qty|]; [|exact Hd].
    apply hoare_transact; [|exact Hd]. intros d0 Hd0. tx_simpl.
    tx_cases_with rows_solver.
  - unfold post_barcode_consume. destruct oq as [qty|]; [|exact Hd].
    destruct (qty <=? 0); [exact Hd|].
    apply hoare_transact; [|exact Hd]. intros d0 Hd0. tx_simpl.
    tx_cases_with rows_solver.
  - unfold post_op_supplies. destruct oq as [qty|]; [|exact Hd].
    destruct (qty <=? 0); [exact Hd|].
    apply hoare_transact; [|exact Hd]. intros d0 Hd0. tx_simpl.
    tx_cases_with rows_solver.
  - unfold delete_op_supplies. apply hoare_transact; [|exact Hd].
    intros d0 Hd0. tx_simpl. tx_cases_with rows_solver.
  - unfold post_logs, post_logs_body. apply hoare_transact; [|exact Hd].
    intros d0 Hd0. tx_simpl. tx_cases_with rows_solver.
  - unfold put_supplies. destruct (supplies d !! id); exact Hd.
Qed.

(** X3: no movement removes a row from the location ledger.  Over any
    run of requests other than the removal of an item from a location,
    every (item, location) row present at the start is present at the end:
    a row consumed or transferred down to zero is kept, holding zero. *)
Theorem movements_keep_rows (rs : list request) (d : db) (k : Z * Z) :
  Forall keeps_rows rs ->
  is_Some (location_inventory d !! k) ->
  is_Some (location_inventory (serve_all rs d) !! k).
Proof.
  intros Hrs. revert d. induction Hrs as [|r rs Hr Hrs IH]; intros d Hk; [exact Hk|].
  simpl. apply IH. apply elem_of_dom. apply (serve_rows r d Hr). apply elem_of_dom, Hk.
Qed.

Lemma movements_keep_rows_witness :
  is_Some (location_inventory (serve_all morning practice) !! (1, 11)).
Proof.
  refine (movements_keep_rows morning practice (1, 11) _ _).
  - unfold morning. repeat constructor.
  - vm_compute. eauto.
Defined.

(** Gauze in Room A after the morning: used up, and its row still there. *)
Example gauze_row_at_zero :
  location_inventory practice !! (1, 11) = Some 6 ∧
  location_inventory (serve_all morning practice) !! (1, 11) = Some 0.
Proof. split; vm_compute; reflexivity. Qed.

(** ** What a committed batch has moved *)

Lemma refusing_bind {A B} (m : tx A) (f : A -> tx B) :
  refusing m -> (∀ a, refusing (f a)) -> refusing (m ≫= f).
Proof.
  intros Hm Hf d r. rewrite bind_unfold.
  destruct (m d) as [a d'|r'|e] eqn:Hmd; [apply Hf| |discriminate].
  intros [= ->]. eapply Hm, Hmd.
Qed.

Lemma refusing_for_of {A} (xs : list A) (body : A -> tx unit) :
  (∀ x, refusing (body x)) -> refusing (for_of xs body).
Proof.
  intros Hbody. induction xs as [|x xs IH]; simpl.
  - intros d r [=].
  - apply refusing_bind; [apply Hbody|]. intros _. exact IH.
Qed.

Ltac refusing_solver :=
  try discriminate;
  try (intros [= <-]; simpl; lia).

Lemma consume_item_refusing (userId location : Z) (x : supply_item) :
  refusing (consume_item userId location x).
Proof.
  intros d r. unfold consume_item. tx_simpl. tx_cases_with refusing_solver.
Qed.

Lemma add_item_refusing (userId : Z) (destination : string) (location commonAreaId : Z)
    (x : supply_item) :
  refusing (add_item userId destination location commonAreaId x).
Proof.
  intros d r. unfold add_item, resolve_inventory_id. tx_simpl.
  tx_cases_with refusing_solver.
Qed.

(** A batch consume that answers 200 ran its loop to the end. *)
Lemma post_inventory_consume_committed (userId location : Z) (items : list supply_item)
    (d : db) :
  status (post_inventory_consume userId location items d).2 = 200 ->
  for_of items (consume_item userId location) d =
    Next tt (post_inventory_consume userId location items d).1.
Proof.
  unfold post_inventory_consume.
  destruct ((location =? 0) || is_empty items); [discriminate|].
  unfold transact. rewrite bind_unfold.
  pose proof (refusing_for_of items _ (consume_item_refusing userId location) d) as Href.
  destruct (for_of items (consume_item userId location) d) as [[] d'|r|e]; simpl.
  - reflexivity.
  - intros Hst. exfalso. exact (Href r eq_refl Hst).
  - discriminate.
Qed.

Lemma consume_item_moves (userId location : Z) (x : supply_item) (d d' : db) :
  consume_item userId location x d = Next tt d' ->
  (∀ inv, quantity_at d' inv location =
          quantity_at d inv location -
          (if consumed x && (inventory_id x =? inv) then quantity x else 0)) ∧
  (∀ inv l, l ≠ location ->
            location_inventory d' !! (inv, l) = location_inventory d !! (inv, l)) ∧
  (∀ inv, is_Some (location_inventory d !! (inv, location)) ->
          is_Some (location_inventory d' !! (inv, location))).
Proof.
  unfold consume_item, consumed. item_cases x.
  - destruct ((inventory_id0 =? 0) || (q <=? 0)); simpl.
    { intros [= <-]. repeat split; auto. intros; lia. }
    tx_simpl.
    destruct (is_empty (select_inventory_owned inventory_id0 userId d)); [discriminate|].
    destruct (location_inventory d !! (inventory_id0, location)) as [currentQty|] eqn:Hrow;
      [|discriminate].
    destruct (currentQty <? q); [discriminate|]. simpl. intros [= <-].
    unfold quantity_at. simpl. repeat split.
    + intros inv. destruct (Z.eqb_spec inventory_id0 inv) as [<-|Hne].
      * rewrite lookup_alter_eq, Hrow. reflexivity.
      * rewrite lookup_alter_ne by congruence. lia.
    + intros inv l Hl. rewrite lookup_alter_ne by congruence. reflexivity.
    + intros inv. rewrite lookup_alter. case_decide as Hk; [|auto].
      injection Hk as <-. rewrite Hrow. simpl. eauto.
  - simpl. rewrite orb_true_r. simpl.
    destruct (inventory_id0 =? 0).
    { intros [= <-]. repeat split; auto. intros; lia. }
    tx_simpl.
    destruct (is_empty (select_inventory_owned inventory_id0 userId d)); [discriminate|].
    destruct (location_inventory d !! (inventory_id0, location)); discriminate.
Qed.

Lemma for_of_consume_moves (userId location : Z) (items : list supply_item) :
  ∀ d d',
    for_of items (consume_item userId location) d = Next tt d' ->
    (∀ inv, quantity_at d' inv location =
            quantity_at d inv location - batch_quantity_of consumed inv items) ∧
    (∀ inv l, l ≠ location ->
              location_inventory d' !! (inv, l) = location_inventory d !! (inv, l)).
Proof.
  induction items as [|x items IH]; intros d d'; simpl.
  { intros [= <-]. split; [intros; lia|auto]. }
  rewrite bind_unfold.
  destruct (consume_item userId location x d) as [[] d1| |] eqn:Hx; try discriminate.
  intros Hrest. apply consume_item_moves in Hx as (Hq1 & Ho1 & _).
  apply IH in Hrest as (Hq & Ho). split.
  - intros inv. rewrite Hq, Hq1. lia.
  - intros inv l Hl. rewrite Ho, Ho1 by assumption. reflexivity.
Qed.

(** X4: what a committed batch consume has taken.  Take a batch in
    which every movement carries a quantity.  When POST
    /api/inventory/consume answers 200 to it, every item's quantity at the
    location has gone down by exactly the sum of the batch's quantities
    for that item, movements with no item id or a quantity of zero or less
    counting for nothing, and no row at any other location has changed. *)
Theorem consume_batch_takes_what_it_says (userId location : Z)
    (items : list supply_item) (d : db) :
  Forall (fun x => is_Some (item_quantity x)) items ->
  status (post_inventory_consume userId location items d).2 = 200 ->
  (∀ inv, quantity_at (post_inventory_consume userId location items d).1 inv location =
          quantity_at d inv location -
          foldr (fun x acc =>
                   match item_quantity x with
                   | Some q =>
                     if (inventory_id x =? inv) && negb (inventory_id x =? 0) && (0 <? q)
                     then q + acc else acc
                   | None => acc
                   end) 0 items) ∧
  (∀ inv l, l ≠ location ->
     location_inventory (post_inventory_consume userId location items d).1 !! (inv, l) =
     location_inventory d !! (inv, l)).
Proof.
  intros Hgiven Hok.
  pose proof (post_inventory_consume_committed _ _ _ _ Hok) as Hrun.
  destruct (for_of_consume_moves _ _ _ _ _ Hrun) as [Hq Ho].
  split; [|exact Ho].
  intros inv. rewrite Hq. f_equal. clear -Hgiven.
  unfold batch_quantity_of, consumed, quantity.
  induction Hgiven as [|x items [q Hx] _ IH]; [reflexivity|]. simpl.
  rewrite IH, Hx. simpl.
  destruct (inventory_id x =? 0), (inventory_id x =? inv),
    (Z.leb_spec q 0), (Z.ltb_spec 0 q); simpl; lia.
Qed.

Lemma consume_batch_takes_what_it_says_witness :
  quantity_at (post_inventory_consume 7 11 batch_with_invalid practice).1 2 11 =
  quantity_at practice 2 11 - 1.
Proof.
  refine (proj1 (consume_batch_takes_what_it_says 7 11 batch_with_invalid
                   practice _ _) 2).
  - repeat constructor; eexists; reflexivity.
  - vm_compute. reflexivity.
Defined.

Lemma stock_sum_commutes (j1 j2 : Z * Z) (z1 z2 y : Z) :
  z1 + (z2 + y) = z2 + (z1 + y).
Proof. lia. Qed.

Lemma total_stock_insert_new (d : db) (k : Z * Z) (v : Z) :
  location_inventory d !! k = None ->
  total_stock (set_location_inventory (<[k := v]> (location_inventory d)) d) =
  total_stock d + v.
Proof.
  intros Hk. unfold total_stock. simpl.
  rewrite map_fold_insert_L; [lia| |exact Hk].
  intros; apply stock_sum_commutes; assumption.
Qed.

Lemma total_stock_insert_over (d : db) (k : Z * Z) (x v : Z) :
  location_inventory d !! k = Some x ->
  total_stock (set_location_inventory (<[k := v]> (location_inventory d)) d) =
  total_stock d - x + v.
Proof.
  intros Hk. unfold total_stock. simpl.
  rewrite <- insert_delete_eq.
  rewrite map_fold_insert_L;
    [|intros; apply stock_sum_commutes; assumption|apply lookup_delete_eq].
  rewrite (map_fold_delete_L _ _ k x (location_inventory d));
    [lia|intros; apply stock_sum_commutes; assumption|exact Hk].
Qed.

Lemma total_stock_alter (d : db) (k : Z * Z) (f : Z -> Z) (x : Z) :
  location_inventory d !! k = Some x ->
  total_stock (set_location_inventory (alter f k (location_inventory d)) d) =
  total_stock d - x + f x.
Proof.
  intros Hk. rewrite (alter_present _ _ _ _ Hk). apply total_stock_insert_over, Hk.
Qed.

Lemma resolve_inventory_id_total (userId : Z) (x : supply_item) (d : db) (q : Z) :
  item_quantity x = Some q ->
  match resolve_inventory_id userId x d with
  | Next resolved d' =>
    total_stock d' = total_stock d ∧
    received x = match resolved with Some _ => true | None => false end
  | _ => True
  end.
Proof.
  intros Hq. unfold resolve_inventory_id, received, quantity. rewrite Hq. simpl.
  destruct (isNew x).
  - destruct (String.eqb (name x) "" || (q <=? 0)); simpl; [auto|].
    tx_simpl. tx_cases_with auto.
  - destruct ((inventory_id x =? 0) || (q <=? 0)); simpl; [auto|].
    tx_simpl. tx_cases_with auto.
Qed.

(** A movement with no quantity goes on only where it is passed over. *)
Lemma add_item_without_quantity (userId : Z) (destination : string)
    (location commonAreaId : Z) (x : supply_item) (d : db) :
  item_quantity x = None ->
  match add_item userId destination location commonAreaId x d with
  | Next _ d' => d' = d
  | _ => True
  end.
Proof.
  intros Hq. unfold add_item, resolve_inventory_id. rewrite Hq. tx_simpl.
  tx_cases_with auto.
Qed.

Lemma add_item_total (userId : Z) (destination : string) (location commonAreaId : Z)
    (x : supply_item) (d : db) :
  match add_item userId destination location commonAreaId x d with
  | Next _ d' =>
    total_stock d' =
    total_stock d +
    (if String.eqb destination "transfer" then 0
     else if received x then quantity x else 0)
  | _ => True
  end.
Proof.
  destruct (item_quantity x) as [q|] eqn:Hq.
  2:{ pose proof (add_item_without_quantity userId destination location commonAreaId
                    x d Hq) as H.
      destruct (add_item userId destination location commonAreaId x d); [|exact I|exact I].
      subst. unfold quantity. rewrite Hq. simpl.
      destruct (String.eqb destination "transfer"); [lia|]. destruct (received x); lia. }
  unfold add_item. rewrite bind_unfold.
  pose proof (resolve_inventory_id_total userId x d q Hq) as Hres.
  destruct (resolve_inventory_id userId x d) as [[inventoryId|] d0| |];
    [| |exact I|exact I]; destruct Hres as [Hd0 Hrec]; rewrite Hrec, <- Hd0.
  2:{ simpl. destruct (String.eqb destination "transfer"); lia. }
  clear d Hd0 Hrec. unfold quantity. rewrite Hq. simpl.
  assert (Hfinish : ∀ (target : Z) (d1 : db),
    match (if target =? 0
           then rollback (res_error 400
                  ("No valid location selected for " +:+ dquote +:+
                   name_or_id x inventoryId +:+ dquote +:+ "."))
           else
             locRows ← select_location_inventory inventoryId target;
             match locRows with
             | Some _ => update_location_inventory_by inventoryId target Z.add (Some q)
             | None => insert_location_inventory_of inventoryId target (Some q)
             end) d1 with
    | Next _ d' => total_stock d' = total_stock d1 + q
    | _ => True
    end).
  { intros target d1. destruct (target =? 0); [exact I|]. tx_simpl.
    destruct (location_inventory d1 !! (inventoryId, target)) as [current|] eqn:Hrow.
    - rewrite (total_stock_alter _ _ _ _ Hrow). lia.
    - destruct (location_known target d1); [|exact I].
      apply total_stock_insert_new, Hrow. }
  rewrite bind_unfold.
  destruct (String.eqb destination "transfer").
  - rewrite bind_unfold. tx_simpl.
    destruct (location_inventory d0 !! (inventoryId, commonAreaId)) as [available|] eqn:Hrow;
      [|exact I].
    destruct (available <? q); [exact I|].
    pose proof (Hfinish location
      (set_location_inventory
         (alter (fun current => current - q) (inventoryId, commonAreaId)
            (location_inventory d0)) d0)) as H.
    pose proof (total_stock_alter d0 (inventoryId, commonAreaId)
                  (fun current => current - q) available Hrow) as Hdec.
    destruct (location =? 0); [exact I|].
    revert H. tx_simpl.
    destruct (alter (fun current => current - q) (inventoryId, commonAreaId)
                (location_inventory d0) !! (inventoryId, location)); simpl.
    + intros H. rewrite H, Hdec. lia.
    + destruct (location_known location _); [|auto].
      intros H. rewrite H, Hdec. lia.
  - apply Hfinish.
Qed.

Lemma for_of_add_total (userId : Z) (destination : string) (location commonAreaId : Z)
    (items : list supply_item) :
  ∀ d,
    match for_of items (add_item userId destination location commonAreaId) d with
    | Next _ d' =>
      total_stock d' =
      total_stock d +
      (if String.eqb destination "transfer" then 0 else batch_quantity received items)
    | _ => True
    end.
Proof.
  induction items as [|x items IH]; intros d; simpl.
  { unfold batch_quantity. simpl. destruct (String.eqb destination "transfer"); lia. }
  rewrite bind_unfold.
  pose proof (add_item_total userId destination location commonAreaId x d) as Hx.
  destruct (add_item userId destination location commonAreaId x d) as [[] d1| |];
    [|exact I|exact I].
  specialize (IH d1).
  destruct (for_of items (add_item userId destination location commonAreaId) d1)
    as [[] d'| |]; [|exact I|exact I].
  rewrite IH, Hx. unfold batch_quantity. simpl.
  destruct (String.eqb destination "transfer"); [lia|].
  destruct (received x); simpl; lia.
Qed.

(** X5: what a committed batch add has brought.  Take a batch in which
    every movement carries a quantity.  When POST /api/inventory/add
    answers 200 to it, the stock of the whole location ledger has risen by
    exactly the sum of the quantities above zero of the movements that
    name an item (by name when new, by id otherwise), the others being
    passed over; with destination 'transfer' it has not changed at all,
    every movement having taken from the Common Area what it gave to the
    location. *)
Theorem add_batch_brings_what_it_says (userId : Z) (destination : string)
    (location : Z) (items : list supply_item) (d : db) :
  Forall (fun x => is_Some (item_quantity x)) items ->
  status (post_inventory_add userId destination location items d).2 = 200 ->
  total_stock (post_inventory_add userId destination location items d).1 =
  total_stock d +
  (if String.eqb destination "transfer" then 0
   else foldr (fun x acc =>
                 match item_quantity x with
                 | Some q =>
                   if (if isNew x then negb (String.eqb (name x) "")
                       else negb (inventory_id x =? 0)) && (0 <? q)
                   then q + acc else acc
                 | None => acc
                 end) 0 items).
Proof.
  intros Hgiven.
  assert (Hsum : batch_quantity received items =
                 foldr (fun x acc =>
                          match item_quantity x with
                          | Some q =>
                            if (if isNew x then negb (String.eqb (name x) "")
                                else negb (inventory_id x =? 0)) && (0 <? q)
                            then q + acc else acc
                          | None => acc
                          end) 0 items).
  { unfold batch_quantity, received, quantity.
    induction Hgiven as [|x items [q Hq] _ IH]; [reflexivity|]. simpl.
    rewrite <- IH, Hq. simpl.
    destruct (isNew x).
    - destruct (String.eqb (name x) ""), (Z.leb_spec q 0), (Z.ltb_spec 0 q);
        simpl; rewrite ?Hq; simpl; lia.
    - destruct (inventory_id x =? 0), (Z.leb_spec q 0), (Z.ltb_spec 0 q);
        simpl; rewrite ?Hq; simpl; lia. }
  rewrite <- Hsum. clear Hsum Hgiven.
  unfold post_inventory_add, transact. tx_simpl.
  destruct (select_location_named "Common Area" userId d) as [|c rows]; [discriminate|].
  destruct (loc_id c =? 0); [discriminate|].
  pose proof (for_of_add_total userId destination location (loc_id c) items d) as Htotal.
  pose proof (refusing_for_of items _
                (add_item_refusing userId destination location (loc_id c)) d) as Href.
  destruct (for_of items (add_item userId destination location (loc_id c)) d)
    as [[] d'|r|e]; simpl.
  - intros _. exact Htotal.
  - intros Hst. exfalso. exact (Href r eq_refl Hst).
  - unfold add_on_catch.
    destruct (bool_decide (err_code e = Some "23505") &&
              (bool_decide (err_constraint e = Some "inventory_barcode_key") ||
               bool_decide (err_constraint e = Some "inventory_user_barcode_unique")));
      discriminate.
Qed.

Lemma add_batch_brings_what_it_says_witness :
  total_stock
    (post_inventory_add 7 "common_area" 0
       [existing_item 2 10; new_item "Masks" 3; existing_item 1 0] practice).1 =
  total_stock practice + 13.
Proof.
  refine (add_batch_brings_what_it_says 7 "common_area" 0
            [existing_item 2 10; new_item "Masks" 3; existing_item 1 0] practice _ _).
  - repeat constructor; eexists; reflexivity.
  - vm_compute. reflexivity.
Defined.

(** ** Removing an item from a location *)

Lemma select_location_inventory_of_empty (inventoryId : Z) (d : db) :
  is_empty (select_location_inventory_of inventoryId d) = true ↔
  ∀ l, location_inventory d !! (inventoryId, l) = None.
Proof.
  unfold select_location_inventory_of. split.
  - intros Hempty l.
    destruct (location_inventory d !! (inventoryId, l)) as [q|] eqn:Hq; [|reflexivity].
    apply elem_of_map_to_list in Hq. apply list_elem_of_In in Hq.
    assert (Hin : In (inventoryId, l, q)
                    (List.filter (fun row => row.1.1 =? inventoryId)
                       (map_to_list (location_inventory d)))).
    { apply List.filter_In. split; [exact Hq|]. simpl. apply Z.eqb_refl. }
    destruct (List.filter _ (map_to_list (location_inventory d)));
      [contradiction|discriminate].
  - intros Hnone.
    destruct (List.filter _ (map_to_list (location_inventory d)))
      as [|[[i l] q] rest] eqn:Hf; [reflexivity|].
    assert (Hin : In (i, l, q)
                    (List.filter (fun row => row.1.1 =? inventoryId)
                       (map_to_list (location_inventory d)))).
    { rewrite Hf. left. reflexivity. }
    apply List.filter_In in Hin as [Hin Hi]. simpl in Hi. apply Z.eqb_eq in Hi. subst i.
    apply list_elem_of_In, elem_of_map_to_list in Hin. rewrite Hnone in Hin. discriminate.
Qed.

(** X6: DELETE /api/inventory/:inventoryId/location/:locationId, for an
    item of the caller that has a row at the location, removes that row
    and no other, and removes the item from the catalog exactly when that
    was its last row: afterwards the catalog lists the item if and only if
    some location still has a row for it. *)
Theorem delete_inventory_location_removes (userId inventoryId locationId : Z) (d : db) :
  select_inventory_owned inventoryId userId d ≠ [] ->
  is_Some (location_inventory d !! (inventoryId, locationId)) ->
  (delete_inventory_location userId inventoryId locationId d).2 =
    res_json (JMessage "Item deleted from location successfully") ∧
  location_inventory (delete_inventory_location userId inventoryId locationId d).1 =
    delete (inventoryId, locationId) (location_inventory d) ∧
  ((∃ l, is_Some (location_inventory
                    (delete_inventory_location userId inventoryId locationId d).1
                    !! (inventoryId, l))) ->
   inventory (delete_inventory_location userId inventoryId locationId d).1 = inventory d) ∧
  ((∀ l, location_inventory
           (delete_inventory_location userId inventoryId locationId d).1
           !! (inventoryId, l) = None) ->
   inventory (delete_inventory_location userId inventoryId locationId d).1 =
     List.filter (fun r => negb (inv_id r =? inventoryId)) (inventory d)) ∧
  ((∃ r, r ∈ inventory (delete_inventory_location userId inventoryId locationId d).1 ∧
         inv_id r = inventoryId) ↔
   (∃ l, is_Some (location_inventory
                    (delete_inventory_location userId inventoryId locationId d).1
                    !! (inventoryId, l)))).
Proof.
  intros Howned [q Hrow]. unfold delete_inventory_location, transact.
  unfold delete_location_inventory, delete_inventory. tx_simpl.
  rewrite (is_empty_false _ Howned), Hrow. simpl.
  set (d1 := set_location_inventory
               (delete (inventoryId, locationId) (location_inventory d)) d).
  pose proof (select_location_inventory_of_empty inventoryId d1) as Hempty.
  destruct (is_empty (select_location_inventory_of inventoryId d1)) eqn:Hlast; simpl.
  - pose proof (proj1 Hempty eq_refl) as Hnone. simpl in Hnone.
    split; [reflexivity|]. split; [reflexivity|]. split; [|split].
    + intros [l [x Hl]]. rewrite Hnone in Hl. discriminate.
    + intros _. reflexivity.
    + split.
      * intros (r & Hr & Hid). apply list_elem_of_In, List.filter_In in Hr as [_ Hr].
        rewrite Hid, Z.eqb_refl in Hr. discriminate.
      * intros [l [x Hl]]. rewrite Hnone in Hl. discriminate.
  - split; [reflexivity|]. split; [reflexivity|]. split; [|split].
    + intros _. reflexivity.
    + intros Hnone. apply Hempty in Hnone. congruence.
    + split.
      * intros _.
        destruct (select_location_inventory_of inventoryId d1)
          as [|[[i l] x] rest] eqn:Hf; [discriminate|].
        assert (Hin : In (i, l, x) (select_location_inventory_of inventoryId d1)).
        { rewrite Hf. left. reflexivity. }
        unfold select_location_inventory_of in Hin.
        apply List.filter_In in Hin as [Hin Hi]. simpl in Hi.
        apply Z.eqb_eq in Hi. subst i.
        apply list_elem_of_In, elem_of_map_to_list in Hin. exists l. eauto.
      * intros _. unfold select_inventory_owned in Howned.
        destruct (List.filter _ (inventory d)) as [|r rest] eqn:Hf; [contradiction|].
        assert (Hin : In r (List.filter
                              (fun r => (inv_id r =? inventoryId) &&
                                        (inv_user_id r =? userId)) (inventory d))).
        { rewrite Hf. left. reflexivity. }
        apply List.filter_In in Hin as [Hin Hr].
        apply andb_true_iff in Hr as [Hid _]. apply Z.eqb_eq in Hid.
        exists r. split; [apply list_elem_of_In, Hin|exact Hid].
Qed.

Lemma delete_inventory_location_removes_witness :
  location_inventory (delete_inventory_location 7 1 11 practice).1 =
    delete (1, 11) (location_inventory practice).
Proof.
  refine (proj1 (proj2 (delete_inventory_location_removes 7 1 11 practice _ _))).
  - vm_compute. discriminate.
  - vm_compute. eauto.
Defined.

(** X7: the same route refuses, and leaves the store as it was, when the
    item is not the caller's (403) and when the item has no row at the
    location (404); another user's request never removes a row. *)
Theorem delete_inventory_location_refuses (userId inventoryId locationId : Z) (d : db) :
  (select_inventory_owned inventoryId userId d = [] ->
   delete_inventory_location userId inventoryId locationId d =
     (d, res_error 403 "You do not have permission to delete this inventory item")) ∧
  (select_inventory_owned inventoryId userId d ≠ [] ->
   location_inventory d !! (inventoryId, locationId) = None ->
   delete_inventory_location userId inventoryId locationId d =
     (d, res_error 404 "Inventory item at that location not found")).
Proof.
  unfold delete_inventory_location, transact, delete_location_inventory. tx_simpl.
  split.
  - intros ->. reflexivity.
  - intros Howned Hrow. rewrite (is_empty_false _ Howned), Hrow. reflexivity.
Qed.

Lemma delete_inventory_location_refuses_witness :
  delete_inventory_location 8 1 11 practice =
    (practice, res_error 403 "You do not have permission to delete this inventory item").
Proof.
  refine (proj1 (delete_inventory_location_refuses 8 1 11 practice) _).
  vm_compute. reflexivity.
Defined.

(** ** Correcting an item *)

Lemma List_filter_nil {A} (f : A -> bool) (l : list A) (x : A) :
  List.filter f l = [] -> x ∈ l -> f x = false.
Proof.
  intros Hnil Hx. destruct (f x) eqn:Hfx; [|reflexivity].
  assert (Hin : In x (List.filter f l)).
  { apply List.filter_In. split; [apply list_elem_of_In, Hx|exact Hfx]. }
  rewrite Hnil in Hin. contradiction.
Qed.

Lemma truthy_barcode_Some (code : option string) (c : string) :
  truthy_barcode code = Some c -> code = Some c ∧ c ≠ "".
Proof.
  unfold truthy_barcode. destruct code as [s|]; [|discriminate].
  destruct (String.eqb_spec s ""); [discriminate|]. intros [= <-]. auto.
Qed.

Lemma List_filter_elem {A} (f : A -> bool) (l : list A) (x : A) :
  x ∈ List.filter f l ↔ x ∈ l ∧ f x = true.
Proof. rewrite !list_elem_of_In. apply List.filter_In. Qed.

Lemma List_filter_empty {A} (f : A -> bool) (l : list A) :
  (∀ x, x ∈ l -> f x = false) -> List.filter f l = [].
Proof.
  induction l as [|a l IH]; intros H; [reflexivity|]. simpl.
  rewrite (H a) by apply list_elem_of_here. apply IH. intros x Hx.
  apply H, list_elem_of_further, Hx.
Qed.

Lemma existsb_none {A} (f : A -> bool) (l : list A) :
  (∀ x, x ∈ l -> f x = false) -> existsb f l = false.
Proof.
  intros H. destruct (existsb f l) eqn:E; [|reflexivity].
  apply existsb_exists in E as (x & Hin & Hfx).
  rewrite (H x) in Hfx by apply list_elem_of_In, Hin. discriminate.
Qed.

(** No row beside carries the barcode: neither constraint is broken. *)
Lemma no_barcode_conflict (code : option string) (userId : Z)
    (others : list inventory_row) (d : db) :
  (∀ c r, code = Some c -> r ∈ others -> inv_barcode r ≠ Some c) ->
  barcode_conflict code userId others d = None.
Proof.
  intros Hfree. unfold barcode_conflict. destruct code as [c|]; [|reflexivity].
  rewrite (existsb_none (fun r => bool_decide (inv_barcode r = Some c))).
  2:{ intros r Hr. apply bool_decide_eq_false_2, (Hfree c r eq_refl Hr). }
  rewrite andb_false_r.
  rewrite (existsb_none (fun r => bool_decide (inv_barcode r = Some c) &&
                                  (inv_user_id r =? userId))).
  2:{ intros r Hr. rewrite (bool_decide_eq_false_2 _ (Hfree c r eq_refl Hr)). reflexivity. }
  rewrite andb_false_r. reflexivity.
Qed.

Lemma put_inventory_run (userId id : Z) (nm : string) (code : option string)
    (location_id qty : Z) (d : db) :
  select_inventory_owned id userId d ≠ [] ->
  (∀ c r, code = Some c -> r ∈ inventory d -> inv_barcode r = Some c -> inv_id r = id) ->
  is_Some (location_inventory d !! (id, location_id)) ∨
  (∃ r, r ∈ locations d ∧ loc_id r = location_id) ->
  put_inventory userId id nm code location_id qty d =
    (set_location_inventory (<[(id, location_id) := qty]> (location_inventory d))
       (set_inventory
          (List.filter (fun r => negb (inv_id r =? id)) (inventory d) ++
           map (fun r => {| inv_id := inv_id r; inv_name := nm; inv_barcode := code;
                            inv_user_id := inv_user_id r |})
               (List.filter (fun r => inv_id r =? id) (inventory d))) d),
     res_json (JMessage "Inventory updated successfully")).
Proof.
  intros Howned Hfree Hloc.
  unfold put_inventory, transact. tx_simpl.
  rewrite (is_empty_false _ Howned).
  assert (Hcheck : (match truthy_barcode code with
                    | Some c =>
                      match select_inventory_barcode_other c id userId d with
                      | [] => mret tt
                      | existing :: _ =>
                        rollback (res_error 400
                          ("Barcode " +:+ dquote +:+ c +:+ dquote +:+
                           " is already used by item " +:+
                           dquote +:+ inv_name existing +:+ dquote))
                      end
                    | None => mret tt
                    end) d = Next tt d).
  { destruct (truthy_barcode code) as [c|] eqn:Hc; [|reflexivity].
    apply truthy_barcode_Some in Hc as [Hc _].
    unfold select_inventory_barcode_other. rewrite List_filter_empty; [reflexivity|].
    intros r Hr. destruct (bool_decide (inv_barcode r = Some c)) eqn:Hb; [|reflexivity].
    apply bool_decide_eq_true in Hb. rewrite (Hfree c r Hc Hr Hb), Z.eqb_refl. reflexivity. }
  unfold mret, tx_ret, rollback in Hcheck. rewrite Hcheck. clear Hcheck.
  destruct (List.filter (fun r => inv_id r =? id) (inventory d)) as [|r rows] eqn:Hmine.
  { exfalso. apply Howned. unfold select_inventory_owned. apply List_filter_empty.
    intros x Hx. pose proof (List_filter_nil _ _ x Hmine Hx) as Hid. simpl in Hid.
    rewrite Hid. reflexivity. }
  rewrite no_barcode_conflict.
  2:{ intros c x Hc Hx Hb. apply List_filter_elem in Hx as [Hx Hid].
      rewrite (Hfree c x Hc Hx Hb), Z.eqb_refl in Hid. discriminate. }
  simpl.
  destruct (location_inventory d !! (id, location_id)) as [x|] eqn:Hrow; simpl.
  - rewrite (alter_present _ _ _ _ Hrow). reflexivity.
  - destruct Hloc as [[x Hx]|Hloc]; [discriminate|].
    change (location_known location_id (set_inventory _ d))
      with (location_known location_id d).
    rewrite (proj2 (location_known_elem _ _) Hloc). reflexivity.
Qed.

(** X8: PUT /api/inventory/:id with an integer quantity the column
    holds, for an item of the caller, a barcode no other row of the
    catalog carries and a location that is there (or at which the item
    has a row), answers success and writes the quantity it is given as
    the quantity at the location, whatever was there and whatever its
    sign, creating the row when absent; it gives the catalog row of the
    item the name and the barcode of the request; no other row changes.
    It is the one movement route that can write a quantity below zero: it
    keeps a non-negative store non-negative exactly when the quantity
    given is at least zero. *)
Theorem put_inventory_writes_quantity (userId id : Z) (nm : string)
    (code : option string) (location_id qty : Z) (d : db) :
  select_inventory_owned id userId d ≠ [] ->
  (∀ c r, code = Some c -> r ∈ inventory d -> inv_barcode r = Some c -> inv_id r = id) ->
  is_Some (location_inventory d !! (id, location_id)) ∨
  (∃ r, r ∈ locations d ∧ loc_id r = location_id) ->
  -2147483648 ≤ qty ≤ 2147483647 ->
  (put_inventory userId id nm code location_id qty d).2 =
    res_json (JMessage "Inventory updated successfully") ∧
  location_inventory (put_inventory userId id nm code location_id qty d).1 =
    <[(id, location_id) := qty]> (location_inventory d) ∧
  (∀ r, r ∈ inventory (put_inventory userId id nm code location_id qty d).1 ↔
        (r ∈ inventory d ∧ inv_id r ≠ id) ∨
        (∃ r0, r0 ∈ inventory d ∧ inv_id r0 = id ∧
               r = {| inv_id := id; inv_name := nm; inv_barcode := code;
                      inv_user_id := inv_user_id r0 |})) ∧
  (non_negative d ->
   (non_negative (put_inventory userId id nm code location_id qty d).1 ↔ 0 ≤ qty)).
Proof.
  intros Howned Hfree Hloc _.
  rewrite (put_inventory_run _ _ _ _ _ _ _ Howned Hfree Hloc). simpl.
  split; [reflexivity|]. split; [reflexivity|]. split.
  - intros r. rewrite elem_of_app, list_elem_of_fmap, List_filter_elem. split.
    + intros [[Hr Hid]|(r0 & -> & Hr0)].
      * left. split; [exact Hr|]. apply negb_true_iff, Z.eqb_neq in Hid. exact Hid.
      * apply List_filter_elem in Hr0 as [Hr0 Hid]. apply Z.eqb_eq in Hid.
        right. exists r0. rewrite Hid. auto.
    + intros [[Hr Hid]|(r0 & Hr0 & Hid & ->)].
      * left. split; [exact Hr|]. apply negb_true_iff, Z.eqb_neq. exact Hid.
      * right. exists r0. rewrite Hid. split; [reflexivity|].
        apply List_filter_elem. split; [exact Hr0|]. apply Z.eqb_eq, Hid.
  - intros (Hl & Hs & Ho). split.
    + intros (Hl' & _). simpl in Hl'.
      apply (Hl' (id, location_id) qty). apply lookup_insert_eq.
    + intros Hq. repeat split; simpl; try assumption.
      apply map_Forall_insert_2; assumption.
Qed.

Lemma put_inventory_writes_quantity_witness :
  location_inventory (put_inventory 7 1 "Gauze 4x4" None 12 (-3) practice).1 =
    <[(1, 12) := -3]> (location_inventory practice).
Proof.
  refine (proj1 (proj2 (put_inventory_writes_quantity 7 1 "Gauze 4x4" None 12 (-3)
                          practice _ _ _ _))).
  - vm_compute. discriminate.
  - intros c r. discriminate.
  - right. exists {| loc_id := 12; loc_name := "Room B"; loc_user_id := 7 |}.
    split; [|reflexivity]. do 2 apply list_elem_of_further. apply list_elem_of_here.
  - lia.
Defined.

(** ** The catalog over a run *)

Lemma NoDup_map_inj {A B} (f : A -> B) (l : list A) (x y : A) :
  NoDup (map f l) -> x ∈ l -> y ∈ l -> f x = f y -> x = y.
Proof.
  induction l as [|a l IH]; simpl; intros Hnd Hx Hy Hf.
  { apply elem_of_nil in Hx. contradiction. }
  apply NoDup_cons in Hnd as [Ha Hnd].
  apply elem_of_cons in Hx as [->|Hx]; apply elem_of_cons in Hy as [->|Hy].
  - reflexivity.
  - exfalso. apply Ha. rewrite Hf. apply list_elem_of_fmap_2, Hy.
  - exfalso. apply Ha. rewrite <- Hf. apply list_elem_of_fmap_2, Hx.
  - apply IH; assumption.
Qed.

Lemma next_inventory_id_fresh (t : list inventory_row) (r : inventory_row) :
  r ∈ t -> inv_id r < next_inventory_id t.
Proof.
  unfold next_inventory_id. induction t as [|a t IH]; intros Hr.
  { apply elem_of_nil in Hr. contradiction. }
  simpl. apply elem_of_cons in Hr as [->|Hr]; [lia|]. specialize (IH Hr). lia.
Qed.

Lemma catalog_ok_insert (t : list inventory_row) (nm : string) (code : option string)
    (userId : Z) :
  catalog_ok t ->
  (∀ c, code = Some c -> c ≠ "" ->
        List.filter (fun r => bool_decide (inv_barcode r = Some c) &&
                              (inv_user_id r =? userId)) t = []) ->
  catalog_ok (t ++ [{| inv_id := next_inventory_id t; inv_name := nm;
                       inv_barcode := code; inv_user_id := userId |}]).
Proof.
  intros [Hids Hcodes] Hfree. split.
  - rewrite map_app. simpl. apply NoDup_app. split; [exact Hids|]. split.
    + intros i Hi Hnew. apply list_elem_of_singleton in Hnew. subst i.
      apply list_elem_of_fmap in Hi as (r & Hr & Hin).
      apply next_inventory_id_fresh in Hin. lia.
    + apply NoDup_singleton.
  - assert (Hclash : ∀ r c, r ∈ t -> inv_user_id r = userId ->
                            inv_barcode r = Some c -> code = Some c -> c ≠ "" -> False).
    { intros r c Hr Hu Hb Hc Hne.
      pose proof (List_filter_nil _ _ r (Hfree c Hc Hne) Hr) as Hf. simpl in Hf.
      rewrite (bool_decide_eq_true_2 _ Hb), Hu, Z.eqb_refl in Hf. discriminate. }
    intros r1 r2 c H1 H2 Hu Hb1 Hb2 Hne.
    apply elem_of_app in H1 as [H1|H1]; apply elem_of_app in H2 as [H2|H2].
    + eapply Hcodes; eauto.
    + apply list_elem_of_singleton in H2. subst r2. simpl in *.
      exfalso. eapply Hclash; eauto.
    + apply list_elem_of_singleton in H1. subst r1. simpl in *.
      exfalso. eapply (Hclash r2 c); eauto.
    + apply list_elem_of_singleton in H1, H2. congruence.
Qed.

Lemma catalog_ok_filter (t : list inventory_row) (f : inventory_row -> bool) :
  catalog_ok t -> catalog_ok (List.filter f t).
Proof.
  intros [Hids Hcodes]. split.
  - clear Hcodes. induction t as [|a t IH]; simpl; [constructor|].
    apply NoDup_cons in Hids as [Ha Hids]. destruct (f a); simpl; [|auto].
    apply NoDup_cons. split; [|auto].
    intros Hin. apply Ha. apply list_elem_of_fmap in Hin as (r & -> & Hr).
    apply list_elem_of_In, List.filter_In in Hr as [Hr _].
    apply list_elem_of_fmap_2, list_elem_of_In, Hr.
  - intros r1 r2 c H1 H2. apply list_elem_of_In, List.filter_In in H1 as [H1 _].
    apply list_elem_of_In, List.filter_In in H2 as [H2 _].
    apply Hcodes; apply list_elem_of_In; assumption.
Qed.

Lemma catalog_ok_update (t : list inventory_row) (id userId : Z) (nm : string)
    (code : option string) :
  catalog_ok t ->
  List.filter (fun r => (inv_id r =? id) && (inv_user_id r =? userId)) t ≠ [] ->
  (∀ c, truthy_barcode code = Some c ->
        List.filter (fun r => bool_decide (inv_barcode r = Some c) &&
                              negb (inv_id r =? id) && (inv_user_id r =? userId)) t = []) ->
  catalog_ok (map (fun r => if inv_id r =? id
                            then {| inv_id := inv_id r; inv_name := nm;
                                    inv_barcode := code; inv_user_id := inv_user_id r |}
                            else r) t).
Proof.
  intros [Hids Hcodes] Howned Hfree.
  set (upd := fun r => if inv_id r =? id
                       then {| inv_id := inv_id r; inv_name := nm; inv_barcode := code;
                               inv_user_id := inv_user_id r |}
                       else r).
  assert (Hupd_id : ∀ r, inv_id (upd r) = inv_id r).
  { intros r. unfold upd. destruct (inv_id r =? id); reflexivity. }
  assert (Hupd_user : ∀ r, inv_user_id (upd r) = inv_user_id r).
  { intros r. unfold upd. destruct (inv_id r =? id); reflexivity. }
  assert (Howner : ∀ r, r ∈ t -> inv_id r = id -> inv_user_id r = userId).
  { intros r Hr Hid.
    destruct (List.filter _ t) as [|r0 rest] eqn:Hf; [contradiction|].
    assert (Hin : In r0 (List.filter
                           (fun r => (inv_id r =? id) && (inv_user_id r =? userId)) t)).
    { rewrite Hf. left. reflexivity. }
    apply List.filter_In in Hin as [Hin H0]. apply andb_true_iff in H0 as [Hid0 Hu0].
    apply Z.eqb_eq in Hid0, Hu0.
    rewrite (NoDup_map_inj inv_id t r r0 Hids Hr (proj2 (list_elem_of_In _ _) Hin));
      congruence. }
  split.
  - replace (map inv_id (map upd t)) with (map inv_id t); [exact Hids|].
    rewrite map_map. apply map_ext. intros r. symmetry. apply Hupd_id.
  - intros r1' r2' c H1 H2 Hu Hb1 Hb2 Hne.
    apply list_elem_of_fmap in H1 as (r1 & -> & H1).
    apply list_elem_of_fmap in H2 as (r2 & -> & H2).
    rewrite !Hupd_user in Hu.
    assert (Hclash : ∀ ra rb, ra ∈ t -> rb ∈ t -> inv_user_id ra = inv_user_id rb ->
              inv_id ra = id -> inv_id rb ≠ id -> code = Some c ->
              inv_barcode rb = Some c -> False).
    { intros ra rb Ha Hb Huab Hida Hidb Hc Hbb.
      assert (Htruthy : truthy_barcode code = Some c).
      { rewrite Hc. unfold truthy_barcode.
        destruct (String.eqb_spec c ""); [contradiction|reflexivity]. }
      pose proof (List_filter_nil _ _ rb (Hfree c Htruthy) Hb) as Hf. simpl in Hf.
      rewrite (bool_decide_eq_true_2 _ Hbb) in Hf.
      apply Z.eqb_neq in Hidb. rewrite Hidb in Hf.
      rewrite <- Huab, (Howner ra Ha Hida), Z.eqb_refl in Hf. discriminate. }
    unfold upd in *.
    destruct (Z.eqb_spec (inv_id r1) id) as [Hid1|Hid1];
      destruct (Z.eqb_spec (inv_id r2) id) as [Hid2|Hid2]; simpl in *.
    + rewrite (NoDup_map_inj inv_id t r1 r2 Hids H1 H2) by congruence. reflexivity.
    + exfalso. eapply (Hclash r1 r2); eauto.
    + exfalso. eapply (Hclash r2 r1); eauto.
    + eapply Hcodes; eauto.
Qed.

Lemma catalog_ok_Permutation (t t' : list inventory_row) :
  Permutation t t' -> catalog_ok t -> catalog_ok t'.
Proof.
  intros Hp [Hids Hcodes]. split.
  - rewrite <- Hp. exact Hids.
  - intros r1 r2 c H1 H2. apply Hcodes; rewrite Hp; assumption.
Qed.

(** The rows of an UPDATE, moved behind the others. *)
Lemma update_moves_rows {A} (p : A -> bool) (f : A -> A) (t : list A) :
  Permutation (map (fun r => if p r then f r else r) t)
              (List.filter (fun r => negb (p r)) t ++ map f (List.filter p t)).
Proof.
  induction t as [|a t IH]; simpl; [constructor|].
  destruct (p a); simpl.
  - etransitivity; [apply perm_skip, IH|]. apply Permutation_middle.
  - apply perm_skip, IH.
Qed.

Lemma catalog_ok_update_moved (t : list inventory_row) (id userId : Z) (nm : string)
    (code : option string) :
  catalog_ok t ->
  List.filter (fun r => (inv_id r =? id) && (inv_user_id r =? userId)) t ≠ [] ->
  (∀ c, truthy_barcode code = Some c ->
        List.filter (fun r => bool_decide (inv_barcode r = Some c) &&
                              negb (inv_id r =? id) && (inv_user_id r =? userId)) t = []) ->
  catalog_ok (List.filter (fun r => negb (inv_id r =? id)) t ++
              map (fun r => {| inv_id := inv_id r; inv_name := nm;
                               inv_barcode := code; inv_user_id := inv_user_id r |})
                  (List.filter (fun r => inv_id r =? id) t)).
Proof.
  intros Hok Howned Hfree.
  eapply catalog_ok_Permutation;
    [|apply (catalog_ok_update t id userId nm code Hok Howned Hfree)].
  apply (update_moves_rows (fun r => inv_id r =? id)).
Qed.

Ltac catalog_solver :=
  unfold catalog_well_formed in *; simpl in *; try assumption.

Lemma add_item_catalog (userId : Z) (destination : string) (location commonAreaId : Z)
    (item : supply_item) :
  hoare catalog_well_formed (add_item userId destination location commonAreaId item)
        (fun _ => catalog_well_formed).
Proof.
  intros d Hd. unfold add_item, resolve_inventory_id. tx_simpl.
  tx_cases_with catalog_solver.
  all: apply catalog_ok_insert; [exact Hd|]; intros c Hc Hne.
  all: try match goal with
           | H : truthy_barcode _ = Some ?s |- _ =>
             injection Hc as <-;
             match goal with
             | H' : select_inventory_barcode _ _ _ = [] |- _ => exact H'
             end
           end.
  all: discriminate.
Qed.

Lemma consume_item_catalog (userId location : Z) (item : supply_item) :
  hoare catalog_well_formed (consume_item userId location item)
        (fun _ => catalog_well_formed).
Proof. intros d Hd. unfold consume_item. tx_simpl. tx_cases_with catalog_solver. Qed.

Lemma serve_catalog (r : request) (d : db) :
  catalog_well_formed d -> catalog_well_formed (serve r d).1.
Proof.
  intros Hd.
  destruct r as [u dest loc items|u loc items|u inv src dst q|u id nm code loc q
                |u inv loc|inv oq loc|u inv oq loc|op sup oq|id|req|id q cost];
    simpl.
  - unfold post_inventory_add. apply hoare_transact; [|exact Hd].
    intros d0 Hd0. tx_simpl.
    destruct (select_location_named "Common Area" u d0) as [|c rows]; [exact I|].
    destruct (loc_id c =? 0); [exact I|].
    pose proof (hoare_for_of _ items _
                  (add_item_catalog u dest loc (loc_id c)) d0 Hd0) as H.
    destruct (for_of items (add_item u dest loc (loc_id c)) d0); simpl; auto.
  - unfold post_inventory_consume.
    destruct ((loc =? 0) || is_empty items); [exact Hd|].
    apply hoare_transact; [|exact Hd].
    eapply hoare_bind; [apply hoare_for_of, consume_item_catalog|].
    intros t. apply hoare_ret. auto.
  - unfold post_inventory_transfer.
    destruct ((inv =? 0) || (src =? 0) || (dst =? 0) || (q =? 0)); [exact Hd|].
    apply hoare_transact; [|exact Hd]. intros d0 Hd0. tx_simpl.
    tx_cases_with catalog_solver.
  - unfold put_inventory. apply hoare_transact; [|exact Hd].
    intros d0 Hd0. unfold update_inventory. tx_simpl.
    destruct (is_empty (select_inventory_owned id u d0)) eqn:Howned; [exact I|].
    assert (Hne : select_inventory_owned id u d0 ≠ []).
    { intros Hnil. rewrite Hnil in Howned. discriminate. }
    tx_cases_with catalog_solver.
    all: match goal with
         | H : List.filter _ (inventory _) = ?i :: ?l
           |- catalog_ok (?a ++ _ :: map ?f ?l) =>
           change (catalog_ok (a ++ map f (i :: l))); rewrite <- H
         end.
    all: apply (catalog_ok_update_moved _ id u); [exact Hd0|exact Hne|].
    all: intros c Hc; try congruence.
    all: match goal with
         | H : truthy_barcode _ = Some ?s |- _ =>
           rewrite H in Hc; injection Hc as <-; assumption
         end.
  - unfold delete_inventory_location. apply hoare_transact; [|exact Hd].
    intros d0 Hd0. unfold delete_location_inventory, delete_inventory. tx_simpl.
    tx_cases_with catalog_solver. apply catalog_ok_filter, Hd0.
  - unfold post_barcode_checkin. destruct oq as [qty|]; [|exact Hd].
    apply hoare_transact; [|exact Hd]. intros d0 Hd0. tx_simpl.
    tx_cases_with catalog_solver.
  - unfold post_barcode_consume. destruct oq as [qty|]; [|exact Hd].
    destruct (qty <=? 0); [exact Hd|].
    apply hoare_transact; [|exact Hd]. intros d0 Hd0. tx_simpl.
    tx_cases_with catalog_solver.
  - unfold post_op_supplies. destruct oq as [qty|]; [|exact Hd].
    destruct (qty <=? 0); [exact Hd|].
    apply hoare_transact; [|exact Hd]. intros d0 Hd0. tx_simpl.
    tx_cases_with catalog_solver.
  - unfold delete_op_supplies. apply hoare_transact; [|exact Hd].
    intros d0 Hd0. tx_simpl. tx_cases_with catalog_solver.
  - unfold post_logs, post_logs_body. apply hoare_transact; [|exact Hd].
    intros d0 Hd0. tx_simpl. tx_cases_with catalog_solver.
  - unfold put_supplies. destruct (supplies d !! id); exact Hd.
Qed.

(** X9: the catalog stays in order over any run of requests to the eleven
    routes of [request].  If no two catalog rows share an id and no two
    items of one user share a non-empty scan code, the same holds after
    every request served: the add route refuses a new item whose code the
    user already uses, the correction route refuses a code another item
    of the user carries, the removal of an item from its last location
    deletes its catalog row, and the other eight do not write the
    catalog. *)
Theorem catalog_stays_well_formed (rs : list request) (d : db) :
  catalog_well_formed d -> catalog_well_formed (serve_all rs d).
Proof.
  revert d. induction rs as [|r rs IH]; intros d Hd; [exact Hd|].
  simpl. apply IH, serve_catalog, Hd.
Qed.

Lemma practice_catalog_well_formed : catalog_well_formed practice.
Proof.
  split.
  - apply (bool_decide_unpack _). vm_compute. reflexivity.
  - intros r1 r2 c H1 H2 _ Hb1 Hb2 _. simpl in H1, H2.
    repeat (apply elem_of_cons in H1 as [->|H1]);
      repeat (apply elem_of_cons in H2 as [->|H2]);
      try (apply elem_of_nil in H1; contradiction);
      try (apply elem_of_nil in H2; contradiction);
      try reflexivity; simpl in *; discriminate.
Qed.

Lemma catalog_stays_well_formed_witness :
  catalog_well_formed (serve_all morning practice).
Proof.
  exact (catalog_stays_well_formed morning practice practice_catalog_well_formed).
Defined.

(** A correction that would give Gauze the scan code of Gloves is refused,
    and so is a new item arriving with that code. *)
Example scan_code_collisions :
  put_inventory 7 1 "Gauze" (Some "123") 11 6 practice =
    (practice,
     res_error 400 ("Barcode " +:+ dquote +:+ "123" +:+ dquote +:+
                    " is already used by item " +:+ dquote +:+ "Gloves" +:+ dquote)) ∧
  post_inventory_add 7 "common_area" 0
    [existing_item 1 2;
     {| isNew := true; inventory_id := 0; name := "Nitrile gloves"; item_quantity := Some 4;
        barcode := Some "123" |}] practice =
    (practice,
     res_error 400 ("Barcode " +:+ dquote +:+ "123" +:+ dquote +:+
                    " is already used by item " +:+ dquote +:+ "Gloves" +:+ dquote)) ∧
  (put_inventory 7 2 "Gloves M" (Some "123") 11 5 practice).2 =
    res_json (JMessage "Inventory updated successfully").
Proof. repeat split; vm_compute; reflexivity. Qed.

(** ** Scanning a code *)

Lemma select_inventory_barcode_spec (code : string) (userId : Z) (d : db)
    (r : inventory_row) :
  r ∈ select_inventory_barcode code userId d ↔
  r ∈ inventory d ∧ inv_barcode r = Some code ∧ inv_user_id r = userId.
Proof.
  unfold select_inventory_barcode.
  rewrite !list_elem_of_In, List.filter_In, andb_true_iff, bool_decide_eq_true, Z.eqb_eq.
  tauto.
Qed.

(** X10: GET /api/barcode/lookup/:barcode answers only with an item of
    the caller that carries the code, and with 404 exactly when the caller
    has none; in a catalog in order, an item of the caller carrying a
    non-empty code is the one the lookup of that code answers with. *)
Theorem barcode_lookup_finds_own_item (userId : Z) (code : string) (d : db) :
  (∀ r, get_barcode_lookup userId code d = Found r ->
        r ∈ inventory d ∧ inv_user_id r = userId ∧ inv_barcode r = Some code) ∧
  (get_barcode_lookup userId code d = Failed 404 "Barcode not found" ↔
   ∀ r, r ∈ inventory d -> inv_user_id r = userId -> inv_barcode r ≠ Some code) ∧
  (catalog_well_formed d -> code ≠ "" ->
   ∀ r, r ∈ inventory d -> inv_user_id r = userId -> inv_barcode r = Some code ->
        get_barcode_lookup userId code d = Found r).
Proof.
  unfold get_barcode_lookup.
  pose proof (select_inventory_barcode_spec code userId d) as Hspec.
  destruct (select_inventory_barcode code userId d) as [|first rest].
  - split; [intros r [=]|]. split.
    + split; [|reflexivity]. intros _ r Hr Hu Hb.
      assert (Hin : r ∈ @nil inventory_row) by (apply Hspec; auto).
      apply elem_of_nil in Hin. contradiction.
    + intros _ _ r Hr Hu Hb.
      assert (Hin : r ∈ @nil inventory_row) by (apply Hspec; auto).
      apply elem_of_nil in Hin. contradiction.
  - assert (Hfirst : first ∈ inventory d ∧ inv_barcode first = Some code ∧
                     inv_user_id first = userId).
    { apply Hspec. apply list_elem_of_here. }
    destruct Hfirst as (Hin & Hb & Hu).
    split; [intros r [= <-]; auto|]. split.
    + split; [discriminate|]. intros Hnone. exfalso. exact (Hnone first Hin Hu Hb).
    + intros [_ Hcodes] Hne r Hr Hur Hbr. f_equal.
      apply (Hcodes first r code); auto. congruence.
Qed.

Lemma barcode_lookup_finds_own_item_witness :
  get_barcode_lookup 7 "123" practice =
    Found {| inv_id := 2; inv_name := "Gloves"; inv_barcode := Some "123";
             inv_user_id := 7 |}.
Proof.
  refine (proj2 (proj2 (barcode_lookup_finds_own_item 7 "123" practice))
            practice_catalog_well_formed _ _ _ _ _).
  - discriminate.
  - simpl. apply list_elem_of_further, list_elem_of_here.
  - reflexivity.
  - reflexivity.
Defined.

Lemma get_barcode_lookup_in_order (userId : Z) (code : string) (d : db)
    (r : inventory_row) :
  catalog_well_formed d -> code ≠ "" ->
  r ∈ inventory d -> inv_user_id r = userId -> inv_barcode r = Some code ->
  get_barcode_lookup userId code d = Found r.
Proof.
  intros [_ Hcodes] Hne Hr Hur Hbr. unfold get_barcode_lookup.
  pose proof (select_inventory_barcode_spec code userId d) as Hspec.
  destruct (select_inventory_barcode code userId d) as [|first rest].
  - assert (Hin : r ∈ @nil inventory_row) by (apply Hspec; auto).
    apply elem_of_nil in Hin. contradiction.
  - assert (Hfirst : first ∈ inventory d ∧ inv_barcode first = Some code ∧
                     inv_user_id first = userId).
    { apply Hspec. apply list_elem_of_here. }
    destruct Hfirst as (Hin & Hb & Hu). f_equal.
    apply (Hcodes first r code); auto. congruence.
Qed.

(** The answer of a catch block is not 200. *)
Ltac answers_error :=
  simpl;
  repeat (match goal with
          | |- context [if ?b then _ else _] => destruct b
          end; simpl);
  discriminate.

(** What PUT /api/inventory/:id has done when it answers 200. *)
Lemma put_inventory_committed (userId id : Z) (nm : string) (code : option string)
    (location_id qty : Z) (d : db) :
  status (put_inventory userId id nm code location_id qty d).2 = 200 ->
  select_inventory_owned id userId d ≠ [] ∧
  (∀ c, truthy_barcode code = Some c ->
        select_inventory_barcode_other c id userId d = []) ∧
  inventory (put_inventory userId id nm code location_id qty d).1 =
    List.filter (fun r => negb (inv_id r =? id)) (inventory d) ++
    map (fun r => {| inv_id := inv_id r; inv_name := nm; inv_barcode := code;
                     inv_user_id := inv_user_id r |})
        (List.filter (fun r => inv_id r =? id) (inventory d)) ∧
  location_inventory (put_inventory userId id nm code location_id qty d).1 =
    <[(id, location_id) := qty]> (location_inventory d).
Proof.
  unfold put_inventory, transact, put_on_catch. tx_simpl.
  destruct (select_inventory_owned id userId d) as [|o os] eqn:Howned; simpl;
    [discriminate|].
  assert (Hmine : List.filter (fun r => inv_id r =? id) (inventory d) ≠ []).
  { intros Hnil. assert (Ho : o ∈ select_inventory_owned id userId d).
    { rewrite Howned. apply list_elem_of_here. }
    unfold select_inventory_owned in Ho. apply List_filter_elem in Ho as [Hin Hid].
    apply andb_true_iff in Hid as [Hid _].
    pose proof (List_filter_nil _ _ o Hnil Hin) as Hno. simpl in Hno. congruence. }
  destruct (truthy_barcode code) as [c|] eqn:Hcode.
  - destruct (select_inventory_barcode_other c id userId d) as [|e es] eqn:Hother; simpl;
      [|discriminate].
    destruct (List.filter (fun r => inv_id r =? id) (inventory d)) as [|r rows];
      [contradiction|].
    destruct (barcode_conflict code (inv_user_id r) _ d); simpl;
      [answers_error|].
    destruct (location_inventory d !! (id, location_id)) as [x|] eqn:Hrow; simpl.
    + intros _. split; [discriminate|]. split; [intros c' [= <-]; exact Hother|].
      split; [reflexivity|]. apply (alter_present _ _ _ _ Hrow).
    + change (location_known location_id (set_inventory _ d))
        with (location_known location_id d).
      destruct (location_known location_id d); simpl;
        [|answers_error].
      intros _. split; [discriminate|]. split; [intros c' [= <-]; exact Hother|].
      split; reflexivity.
  - destruct (List.filter (fun r => inv_id r =? id) (inventory d)) as [|r rows];
      [contradiction|].
    destruct (barcode_conflict code (inv_user_id r) _ d); simpl;
      [answers_error|].
    destruct (location_inventory d !! (id, location_id)) as [x|] eqn:Hrow; simpl.
    + intros _. split; [discriminate|]. split; [intros c' [=]|].
      split; [reflexivity|]. apply (alter_present _ _ _ _ Hrow).
    + change (location_known location_id (set_inventory _ d))
        with (location_known location_id d).
      destruct (location_known location_id d); simpl;
        [|answers_error].
      intros _. split; [discriminate|]. split; [intros c' [=]|].
      split; reflexivity.
Qed.

(** X11: a code given to an item is the code that finds it.  When PUT
    /api/inventory/:id, called on a catalog in order with a non-empty
    barcode, answers 200, the lookup of that barcode by the caller on the
    store it leaves answers with the item of the request, under its new
    name and with the caller as its owner. *)
Theorem put_inventory_then_lookup (userId id : Z) (nm c : string)
    (location_id qty : Z) (d : db) :
  catalog_well_formed d -> c ≠ "" ->
  status (put_inventory userId id nm (Some c) location_id qty d).2 = 200 ->
  get_barcode_lookup userId c (put_inventory userId id nm (Some c) location_id qty d).1 =
    Found {| inv_id := id; inv_name := nm; inv_barcode := Some c; inv_user_id := userId |}.
Proof.
  intros Hd Hc Hok.
  destruct (put_inventory_committed _ _ _ _ _ _ _ Hok) as (Howned & Hfree & Hinv & _).
  apply get_barcode_lookup_in_order.
  - unfold catalog_well_formed. rewrite Hinv.
    apply (catalog_ok_update_moved _ id userId); assumption.
  - exact Hc.
  - rewrite Hinv. unfold select_inventory_owned in Howned.
    destruct (List.filter _ (inventory d)) as [|r0 rest] eqn:Hf; [contradiction|].
    assert (Hin : r0 ∈ List.filter
                           (fun r => (inv_id r =? id) && (inv_user_id r =? userId))
                           (inventory d)).
    { rewrite Hf. apply list_elem_of_here. }
    apply List_filter_elem in Hin as [Hin H0]. apply andb_true_iff in H0 as [Hid Hu].
    apply Z.eqb_eq in Hu. pose proof Hid as Hid'. apply Z.eqb_eq in Hid'.
    apply elem_of_app. right. apply list_elem_of_fmap. exists r0.
    split; [subst; reflexivity|]. apply List_filter_elem. split; assumption.
  - reflexivity.
  - reflexivity.
Qed.

Lemma put_inventory_then_lookup_witness :
  get_barcode_lookup 7 "777" (put_inventory 7 1 "Gauze 4x4" (Some "777") 12 1 practice).1 =
    Found {| inv_id := 1; inv_name := "Gauze 4x4"; inv_barcode := Some "777";
             inv_user_id := 7 |}.
Proof.
  refine (put_inventory_then_lookup 7 1 "Gauze 4x4" "777" 12 1 practice
            practice_catalog_well_formed _ _).
  - discriminate.
  - reflexivity.
Defined.

(** ** The error middleware *)

(** X12: an answer with status 500 never carries the error's own message:
    its text is one of the two fixed sentences, whatever was thrown. *)
Theorem errorHandler_500_hides_message (err : express_error) :
  er_status (errorHandler err) = 500 ->
  er_error (errorHandler err) = "An unexpected error occurred. Please try again." ∨
  er_error (errorHandler err) = "Database schema error. Please contact support.".
Proof.
  unfold errorHandler.
  repeat match goal with
         | |- context [if ?c then _ else _] =>
           lazymatch c with
           | context [if _ then _ else _] => fail
           | _ => destruct c eqn:?
           end
         end; simpl; try discriminate; auto.
  intros Hst. rewrite Hst in *. discriminate.
Qed.

Lemma errorHandler_500_hides_message_witness :
  er_error (errorHandler
              {| ex_error := Error "relation users_pkey: connection string postgres://...";
                 ex_name := "Error"; ex_statusCode := None; ex_status := Some 500 |}) =
    "An unexpected error occurred. Please try again." ∨
  er_error (errorHandler
              {| ex_error := Error "relation users_pkey: connection string postgres://...";
                 ex_name := "Error"; ex_statusCode := None; ex_status := Some 500 |}) =
    "Database schema error. Please contact support.".
Proof.
  refine (errorHandler_500_hides_message _ _). vm_compute. reflexivity.
Defined.

(** X13: the middleware and the retry helpers agree on which errors are
    worth another try.  An error the helpers throw at once is answered as
    a duplicate (409), a bad reference (400) or a schema error (500),
    never as a connection error; an error answered 503 is one the helpers
    retry.  A not-null violation is the exception on both sides: answered
    400 as a missing field, and retried all the same. *)
Theorem errorHandler_agrees_with_retry (err : express_error) :
  (dont_retry (ex_error err) = true ->
   (er_status (errorHandler err), er_code (errorHandler err)) = (409, "DUPLICATE_RECORD") ∨
   (er_status (errorHandler err), er_code (errorHandler err)) = (400, "INVALID_REFERENCE") ∨
   (er_status (errorHandler err), er_code (errorHandler err)) = (500, "SCHEMA_ERROR")) ∧
  (er_status (errorHandler err) = 503 -> dont_retry (ex_error err) = false) ∧
  (err_code (ex_error err) = Some "23502" ->
   (er_status (errorHandler err), er_code (errorHandler err)) =
     (400, "MISSING_REQUIRED_FIELD") ∧
   dont_retry (ex_error err) = false).
Proof.
  assert (Hstop : dont_retry (ex_error err) = true ->
    (er_status (errorHandler err), er_code (errorHandler err)) = (409, "DUPLICATE_RECORD") ∨
    (er_status (errorHandler err), er_code (errorHandler err)) = (400, "INVALID_REFERENCE") ∨
    (er_status (errorHandler err), er_code (errorHandler err)) = (500, "SCHEMA_ERROR")).
  { intros Hstop. apply dont_retry_codes in Hstop.
    unfold errorHandler, has_code.
    destruct Hstop as [Hc|[Hc|[Hc|Hc]]]; rewrite Hc; vm_compute; auto. }
  split; [exact Hstop|]. split.
  - intros H503. destruct (dont_retry (ex_error err)); [|reflexivity].
    destruct (Hstop eq_refl) as [H|[H|H]]; injection H as Hst _; congruence.
  - intros Hc. unfold errorHandler, dont_retry, has_code. rewrite Hc.
    vm_compute. auto.
Qed.

Lemma errorHandler_agrees_with_retry_witness :
  (er_status (errorHandler (express_of unique_violation)),
   er_code (errorHandler (express_of unique_violation))) = (409, "DUPLICATE_RECORD") ∨
  (er_status (errorHandler (express_of unique_violation)),
   er_code (errorHandler (express_of unique_violation))) = (400, "INVALID_REFERENCE") ∨
  (er_status (errorHandler (express_of unique_violation)),
   er_code (errorHandler (express_of unique_violation))) = (500, "SCHEMA_ERROR").
Proof.
  refine (proj1 (errorHandler_agrees_with_retry (express_of unique_violation)) _).
  vm_compute. reflexivity.
Defined.

(** ** The retry helpers, attempt by attempt *)

Lemma attempts_retried (attempt retries : nat) (events : list event) :
  attempts (Attempt attempt ::
              (if (attempt <? retries)%nat then [Sleep (backoff attempt)] else []) ++
              events) = attempt :: attempts events.
Proof. unfold attempts. destruct (attempt <? retries)%nat; reflexivity. Qed.

Lemma waited_retried (attempt retries : nat) (events : list event) :
  waited (Attempt attempt ::
            (if (attempt <? retries)%nat then [Sleep (backoff attempt)] else []) ++
            events) =
  (if (attempt <? retries)%nat then backoff attempt else 0) + waited events.
Proof. unfold waited. destruct (attempt <? retries)%nat; reflexivity. Qed.

Lemma backoff_nonneg (attempt : nat) : 0 ≤ backoff attempt.
Proof.
  unfold backoff.
  assert (0 ≤ 2 ^ (Z.of_nat attempt - 1)) by (apply Z.pow_nonneg; lia). lia.
Qed.

Lemma backoff_le_cap (attempt : nat) : backoff attempt ≤ 5000.
Proof. unfold backoff. lia. Qed.

Lemma backoff_sum_S (from count : nat) :
  backoff_sum from (S count) = backoff from + backoff_sum (S from) count.
Proof. reflexivity. Qed.

Lemma backoff_sum_bounds (from count : nat) :
  0 ≤ backoff_sum from count ≤ 5000 * Z.of_nat count.
Proof.
  revert from. induction count as [|count IH]; intros from.
  - unfold backoff_sum. simpl. lia.
  - rewrite backoff_sum_S. specialize (IH (S from)).
    pose proof (backoff_nonneg from). pose proof (backoff_le_cap from). lia.
Qed.

(** The run up to the first attempt that resolves. *)
Lemma query_loop_run {A} (pool_query : nat -> settled A) (retries : nat) :
  ∀ (remaining : nat) (lastError : option js_error) (k : nat) (a : A),
    (remaining ≤ retries)%nat ->
    (retries - remaining < k ≤ retries)%nat ->
    pool_query k = Resolved a ->
    (∀ n, (retries - remaining < n < k)%nat ->
          ∃ e, pool_query n = Rejected e ∧ dont_retry e = false) ->
    (query_loop pool_query retries remaining lastError).2 = Returned a ∧
    attempts (query_loop pool_query retries remaining lastError).1 =
      seq (S (retries - remaining)) (k - (retries - remaining))%nat ∧
    waited (query_loop pool_query retries remaining lastError).1 =
      backoff_sum (S (retries - remaining)) (k - S (retries - remaining))%nat.
Proof.
  induction remaining as [|r IH]; intros lastError k a Hle Hk Hres Hrej; [lia|].
  rewrite query_loop_step.
  replace (S (retries - S r))%nat with (retries - r)%nat by lia.
  destruct (Nat.eq_dec k (retries - r)%nat) as [->|Hne].
  - rewrite Hres. simpl.
    replace (retries - r - (retries - S r))%nat with 1%nat by lia.
    replace (retries - r - (retries - r))%nat with 0%nat by lia.
    repeat split.
  - destruct (Hrej (retries - r)%nat) as (e & He & Hretry); [lia|].
    rewrite He, Hretry. cbn [fst snd].
    destruct (IH (Some e) k a) as (Hout & Hatt & Hwait); [lia|lia|exact Hres| |].
    { intros n Hn. apply Hrej. lia. }
    rewrite attempts_retried, waited_retried, Hout, Hatt, Hwait.
    assert (Hlt : (retries - r <? retries)%nat = true) by (apply Nat.ltb_lt; lia).
    rewrite Hlt. split; [reflexivity|]. split.
    + replace (k - (retries - S r))%nat with (S (k - (retries - r)))%nat by lia.
      reflexivity.
    + replace (k - (retries - r))%nat with (S (k - S (retries - r)))%nat by lia.
      rewrite backoff_sum_S. reflexivity.
Qed.

(** A value returned comes from an attempt that resolved after retried
    failures only. *)
Lemma query_loop_returned {A} (pool_query : nat -> settled A) (retries : nat) :
  ∀ (remaining : nat) (lastError : option js_error) (a : A),
    (remaining ≤ retries)%nat ->
    (query_loop pool_query retries remaining lastError).2 = Returned a ->
    ∃ k, (retries - remaining < k ≤ retries)%nat ∧
         pool_query k = Resolved a ∧
         ∀ n, (retries - remaining < n < k)%nat ->
              ∃ e, pool_query n = Rejected e ∧ dont_retry e = false.
Proof.
  induction remaining as [|r IH]; intros lastError a Hle; [discriminate|].
  rewrite query_loop_step.
  destruct (pool_query (retries - r)%nat) as [result|e] eqn:Hq; simpl.
  - intros [= ->]. exists (retries - r)%nat. split; [lia|]. split; [exact Hq|].
    intros n Hn. lia.
  - destruct (dont_retry e) eqn:Hretry; simpl; [discriminate|].
    intros Hout. apply IH in Hout as (k & Hk & Hres & Hrej); [|lia].
    exists k. split; [lia|]. split; [exact Hres|].
    intros n Hn. destruct (Nat.eq_dec n (retries - r)%nat) as [->|Hne]; [eauto|].
    apply Hrej. lia.
Qed.

(** The run when every attempt fails with an error that is retried. *)
Lemma query_loop_exhausted {A} (pool_query : nat -> settled A) (retries : nat) :
  ∀ (remaining : nat) (lastError : option js_error) (last : js_error),
    (0 < remaining ≤ retries)%nat ->
    pool_query retries = Rejected last ->
    (∀ n, (retries - remaining < n ≤ retries)%nat ->
          ∃ e, pool_query n = Rejected e ∧ dont_retry e = false) ->
    (query_loop pool_query retries remaining lastError).2 = Thrown (Some last) ∧
    attempts (query_loop pool_query retries remaining lastError).1 =
      seq (S (retries - remaining)) remaining ∧
    waited (query_loop pool_query retries remaining lastError).1 =
      backoff_sum (S (retries - remaining)) (remaining - 1)%nat.
Proof.
  induction remaining as [|r IH]; intros lastError last Hle Hlast Hrej; [lia|].
  rewrite query_loop_step.
  replace (S (retries - S r))%nat with (retries - r)%nat by lia.
  destruct (Hrej (retries - r)%nat) as (e & He & Hretry); [lia|].
  rewrite He, Hretry. cbn [fst snd]. rewrite attempts_retried, waited_retried.
  destruct r as [|r'].
  - replace (retries - 0)%nat with retries in * by lia.
    rewrite Nat.ltb_irrefl. simpl. split; [congruence|]. repeat split.
  - destruct (IH (Some e) last) as (Hout & Hatt & Hwait); [lia|exact Hlast| |].
    { intros n Hn. apply Hrej. lia. }
    rewrite Hout, Hatt, Hwait.
    assert (Hlt : (retries - S r' <? retries)%nat = true) by (apply Nat.ltb_lt; lia).
    rewrite Hlt. split; [reflexivity|]. split; [reflexivity|].
    replace (S (S r') - 1)%nat with (S (S r' - 1))%nat by lia.
    rewrite backoff_sum_S. reflexivity.
Qed.

(** However the attempts go, the waits are those of a full run at most. *)
Lemma query_loop_waited {A} (pool_query : nat -> settled A) (retries : nat) :
  ∀ (remaining : nat) (lastError : option js_error),
    (remaining ≤ retries)%nat ->
    0 ≤ waited (query_loop pool_query retries remaining lastError).1 ≤
      backoff_sum (S (retries - remaining)) (remaining - 1)%nat.
Proof.
  induction remaining as [|r IH]; intros lastError Hle.
  { simpl. unfold backoff_sum. simpl. lia. }
  rewrite query_loop_step.
  replace (S r - 1)%nat with r by lia.
  replace (S (retries - S r))%nat with (retries - r)%nat by lia.
  pose proof (backoff_sum_bounds (retries - r)%nat r) as Hsum.
  destruct (pool_query (retries - r)%nat) as [result|e]; cbn [fst snd].
  { change (waited [Attempt (retries - r)]) with 0. lia. }
  destruct (dont_retry e); cbn [fst snd].
  { change (waited [Attempt (retries - r)]) with 0. lia. }
  rewrite waited_retried. specialize (IH (Some e) (Nat.lt_le_incl _ _ Hle)).
  destruct r as [|r'].
  - replace (retries - 0)%nat with retries in * by lia.
    rewrite Nat.ltb_irrefl. simpl in IH. unfold backoff_sum. simpl. lia.
  - replace (S r' - 1)%nat with r' in IH by lia.
    rewrite backoff_sum_S.
    replace (S (retries - S r'))%nat with (retries - r')%nat in * by lia.
    pose proof (backoff_nonneg (retries - S r')%nat).
    destruct (retries - S r' <? retries)%nat; lia.
Qed.

(** X14: [query] returns a value exactly when some attempt within the
    bound resolves and every attempt before it failed with an error that
    is retried; the value is that attempt's, the attempts made are 1 up to
    it, and the time waited is the sum of the backoffs before it. *)
Theorem query_returns_first_resolved {A} (pool_query : nat -> settled A)
    (retries : nat) (a : A) :
  ((query pool_query retries).2 = Returned a ->
   ∃ k, (1 ≤ k ≤ retries)%nat ∧ pool_query k = Resolved a ∧
        ∀ n, (1 ≤ n < k)%nat -> ∃ e, pool_query n = Rejected e ∧ dont_retry e = false) ∧
  (∀ k, (1 ≤ k ≤ retries)%nat -> pool_query k = Resolved a ->
        (∀ n, (1 ≤ n < k)%nat -> ∃ e, pool_query n = Rejected e ∧ dont_retry e = false) ->
        (query pool_query retries).2 = Returned a ∧
        attempts (query pool_query retries).1 = seq 1 k ∧
        waited (query pool_query retries).1 = backoff_sum 1 (k - 1)).
Proof.
  unfold query. split.
  - intros Hout. apply query_loop_returned in Hout as (k & Hk & Hres & Hrej); [|lia].
    exists k. split; [lia|]. split; [exact Hres|]. intros n Hn. apply Hrej. lia.
  - intros k Hk Hres Hrej.
    destruct (query_loop_run pool_query retries retries None k a) as (Hout & Hatt & Hwait);
      [lia|lia|exact Hres| |].
    { intros n Hn. apply Hrej. lia. }
    rewrite Nat.sub_diag in *. rewrite Nat.sub_0_r in Hatt.
    split; [exact Hout|]. split; [exact Hatt|exact Hwait].
Qed.

Lemma query_returns_first_resolved_witness :
  (query (fun n => if (n <? 3)%nat then Rejected connection_reset else Resolved n)
         default_retries).2 = Returned 3%nat ∧
  attempts (query (fun n => if (n <? 3)%nat then Rejected connection_reset
                            else Resolved n) default_retries).1 = seq 1 3 ∧
  waited (query (fun n => if (n <? 3)%nat then Rejected connection_reset
                          else Resolved n) default_retries).1 = backoff_sum 1 (3 - 1).
Proof.
  refine (proj2 (query_returns_first_resolved
                   (fun n => if (n <? 3)%nat then Rejected connection_reset
                             else Resolved n) default_retries 3%nat) 3%nat _ _ _).
  - unfold default_retries. lia.
  - reflexivity.
  - intros n Hn. exists connection_reset.
    destruct n as [|[|[|n]]]; [lia|split; reflexivity|split; reflexivity|lia].
Defined.

(** X15: when every attempt fails with an error that is retried, [query]
    makes all [retries] attempts, waits between them the backoffs of the
    attempts 1 to [retries - 1], and throws the error of the last attempt,
    not of an earlier one. *)
Theorem query_exhausted_throws_last_error {A} (pool_query : nat -> settled A)
    (retries : nat) (last : js_error) :
  (1 ≤ retries)%nat ->
  pool_query retries = Rejected last ->
  (∀ n, (1 ≤ n ≤ retries)%nat -> ∃ e, pool_query n = Rejected e ∧ dont_retry e = false) ->
  (query pool_query retries).2 = Thrown (Some last) ∧
  attempts (query pool_query retries).1 = seq 1 retries ∧
  waited (query pool_query retries).1 = backoff_sum 1 (retries - 1).
Proof.
  intros Hle Hlast Hrej. unfold query.
  destruct (query_loop_exhausted pool_query retries retries None last)
    as (Hout & Hatt & Hwait); [lia|exact Hlast| |].
  { intros n Hn. apply Hrej. lia. }
  rewrite Nat.sub_diag in *. auto.
Qed.

Lemma query_exhausted_throws_last_error_witness :
  (query (fun n => @Rejected unit
                     (if (n <? 3)%nat then connection_reset else not_null_violation))
         default_retries).2 = Thrown (Some not_null_violation) ∧
  attempts (query (fun n => @Rejected unit
                     (if (n <? 3)%nat then connection_reset else not_null_violation))
                  default_retries).1 = seq 1 default_retries ∧
  waited (query (fun n => @Rejected unit
                     (if (n <? 3)%nat then connection_reset else not_null_violation))
                default_retries).1 = backoff_sum 1 (default_retries - 1).
Proof.
  refine (query_exhausted_throws_last_error
            (fun n => @Rejected unit
                        (if (n <? 3)%nat then connection_reset else not_null_violation))
            default_retries not_null_violation _ _ _).
  - unfold default_retries. lia.
  - reflexivity.
  - intros n Hn. unfold default_retries in Hn.
    destruct n as [|[|[|[|n]]]]; [lia| | | |lia]; eexists; split; reflexivity.
Defined.

(** X16: whatever the store answers, the waits of one [query] add up to
    no more than the backoffs of a full run, which is at most 5000 ms for
    each attempt but the last, and 3000 ms with the default of three
    attempts. *)
Theorem query_waits_are_bounded {A} (pool_query : nat -> settled A) (retries : nat) :
  0 ≤ waited (query pool_query retries).1 ≤ backoff_sum 1 (retries - 1) ∧
  backoff_sum 1 (retries - 1) ≤ 5000 * Z.of_nat (retries - 1) ∧
  backoff_sum 1 (default_retries - 1) = 3000.
Proof.
  split; [|split].
  - unfold query.
    pose proof (query_loop_waited pool_query retries retries None (Nat.le_refl _)) as H.
    rewrite Nat.sub_diag in H. exact H.
  - apply backoff_sum_bounds.
  - reflexivity.
Qed.

Lemma transaction_loop_query_loop {A} (pool_connect : nat -> option js_error)
    (callback : nat -> db -> settled (A * db)) (retries : nat) (d : db) :
  (∀ n, pool_connect n = None) ->
  ∀ (remaining : nat) (lastError : option js_error),
    transaction_loop pool_connect callback retries remaining lastError d =
      match (query_loop (fun n => callback n d) retries remaining lastError).2 with
      | Returned (a, working) =>
        (working, (query_loop (fun n => callback n d) retries remaining lastError).1,
         Returned a)
      | Thrown e =>
        (d, (query_loop (fun n => callback n d) retries remaining lastError).1, Thrown e)
      end.
Proof.
  intros Hconnect. induction remaining as [|r IH]; intros lastError; [reflexivity|].
  rewrite transaction_loop_step, query_loop_step, Hconnect.
  destruct (callback (retries - r)%nat d) as [[a working]|e]; [reflexivity|].
  destruct (dont_retry e); [reflexivity|]. cbn [fst snd]. rewrite IH.
  destruct (query_loop (fun n => callback n d) retries r (Some e)) as [events [[a w]|e']];
    reflexivity.
Qed.

(** X17: with a client to be had at every attempt, [transaction] is
    [query] run on the callback as it behaves against the store at the
    start, followed by the commit: the same attempts and waits, the same
    value or error, and as the store the working store of the attempt that
    resolved, or the store at the start when none did.  A failed attempt
    leaves nothing behind for the next one. *)
Theorem transaction_is_query_then_commit {A} (pool_connect : nat -> option js_error)
    (callback : nat -> db -> settled (A * db)) (retries : nat) (d : db) :
  (∀ n, pool_connect n = None) ->
  transaction pool_connect callback retries d =
    match (query (fun n => callback n d) retries).2 with
    | Returned (a, working) =>
      (working, (query (fun n => callback n d) retries).1, Returned a)
    | Thrown e => (d, (query (fun n => callback n d) retries).1, Thrown e)
    end.
Proof.
  intros Hconnect. unfold transaction, query.
  apply transaction_loop_query_loop, Hconnect.
Qed.

Lemma transaction_is_query_then_commit_witness :
  transaction (fun _ => None)
    (fun n d => if (n <? 2)%nat then Rejected connection_reset
                else Resolved (tt, (post_barcode_checkin 1 (Some 4) 11 d).1))
    default_retries practice =
    ((post_barcode_checkin 1 (Some 4) 11 practice).1,
     [Attempt 1; Sleep 1000; Attempt 2], Returned tt).
Proof.
  refine (transaction_is_query_then_commit (fun _ => None)
            (fun n d => if (n <? 2)%nat then Rejected connection_reset
                        else Resolved (tt, (post_barcode_checkin 1 (Some 4) 11 d).1))
            default_retries practice _).
  reflexivity.
Defined.

(** X18: the health check lets a request through, and [testConnection]
    says the store is there, exactly when one of the first three attempts
    of their probe query resolves after retried failures only
    ([testConnection] also wants a row in the answer); otherwise the
    health check answers 503 DB_UNAVAILABLE and [testConnection] is false.
    Neither throws. *)
Theorem health_checks_follow_the_probe :
  (∀ (A : Type) (pool_query : nat -> settled A),
     (dbHealthCheck pool_query = None ↔
      ∃ k a, (1 ≤ k ≤ 3)%nat ∧ pool_query k = Resolved a ∧
             ∀ n, (1 ≤ n < k)%nat ->
                  ∃ e, pool_query n = Rejected e ∧ dont_retry e = false) ∧
     (dbHealthCheck pool_query ≠ None ->
      dbHealthCheck pool_query =
        Some {| er_status := 503;
                er_error := "Database is currently unavailable. Please try again later.";
                er_code := "DB_UNAVAILABLE" |})) ∧
  (∀ pool_query : nat -> settled (list string),
     testConnection pool_query = true ↔
     ∃ k row rows, (1 ≤ k ≤ 3)%nat ∧ pool_query k = Resolved (row :: rows) ∧
                   ∀ n, (1 ≤ n < k)%nat ->
                        ∃ e, pool_query n = Rejected e ∧ dont_retry e = false).
Proof.
  split.
  - intros A pool_query. unfold dbHealthCheck, query, default_retries. split.
    + split.
      * destruct (query_loop pool_query 3 3 None).2 as [a|e] eqn:Hout; [|discriminate].
        intros _. apply query_loop_returned in Hout as (k & Hk & Hres & Hrej); [|lia].
        exists k, a. split; [lia|]. split; [exact Hres|]. intros n Hn. apply Hrej. lia.
      * intros (k & a & Hk & Hres & Hrej).
        destruct (query_loop_run pool_query 3 3 None k a) as (Hout & _);
          [lia|lia|exact Hres| |].
        { intros n Hn. apply Hrej. lia. }
        rewrite Hout. reflexivity.
    + destruct (query_loop pool_query 3 3 None).2; [contradiction|reflexivity].
  - intros pool_query. unfold testConnection, query, default_retries. split.
    + destruct (query_loop pool_query 3 3 None).2 as [[|row rows]|e] eqn:Hout;
        try discriminate.
      intros _. apply query_loop_returned in Hout as (k & Hk & Hres & Hrej); [|lia].
      exists k, row, rows. split; [lia|]. split; [exact Hres|].
      intros n Hn. apply Hrej. lia.
    + intros (k & row & rows & Hk & Hres & Hrej).
      destruct (query_loop_run pool_query 3 3 None k (row :: rows)) as (Hout & _);
        [lia|lia|exact Hres| |].
      { intros n Hn. apply Hrej. lia. }
      rewrite Hout. reflexivity.
Qed.

Lemma health_checks_follow_the_probe_witness :
  dbHealthCheck (fun n => if (n <? 2)%nat then Rejected connection_reset
                          else Resolved n) = None.
Proof.
  refine (proj2 (proj1 (proj1 health_checks_follow_the_probe nat
                   (fun n => if (n <? 2)%nat then Rejected connection_reset
                             else Resolved n))) _).
  exists 2%nat, 2%nat. split; [lia|]. split; [reflexivity|].
  intros n Hn. exists connection_reset.
  destruct n as [|[|n]]; [lia|split; reflexivity|lia].
Defined.

(** ** The operatory ledger *)

Lemma update_op_supplies_keys (op_id supply_id : Z) (f : Z -> Z) (t : list op_supply_row) :
  map (fun r => (os_op_id r, os_supply_id r))
      (update_op_supplies_where op_id supply_id f t) =
  map (fun r => (os_op_id r, os_supply_id r)) t.
Proof.
  unfold update_op_supplies_where. induction t as [|r t IH]; [reflexivity|].
  simpl. rewrite IH.
  destruct ((os_op_id r =? op_id) && (os_supply_id r =? supply_id)); reflexivity.
Qed.

Lemma update_op_supplies_ids (op_id supply_id : Z) (f : Z -> Z) (t : list op_supply_row) :
  map os_id (update_op_supplies_where op_id supply_id f t) = map os_id t.
Proof.
  unfold update_op_supplies_where. induction t as [|r t IH]; [reflexivity|].
  simpl. rewrite IH.
  destruct ((os_op_id r =? op_id) && (os_supply_id r =? supply_id)); reflexivity.
Qed.

Lemma NoDup_map_filter {A B} (g : A -> B) (p : A -> bool) (t : list A) :
  NoDup (map g t) -> NoDup (map g (List.filter p t)).
Proof.
  induction t as [|x t IH]; simpl; [auto|].
  intros Hnd. apply NoDup_cons in Hnd as [Hx Ht].
  destruct (p x); simpl; [|auto].
  apply NoDup_cons. split; [|auto].
  intros Hin. apply Hx.
  apply list_elem_of_fmap in Hin as (y & -> & Hy).
  apply list_elem_of_fmap. exists y. split; [reflexivity|].
  apply list_elem_of_In. apply list_elem_of_In, filter_In in Hy. apply Hy.
Qed.

Lemma NoDup_map_snoc {A B} (g : A -> B) (t : list A) (x : A) :
  NoDup (map g t) -> g x ∉ map g t -> NoDup (map g (t ++ [x])).
Proof.
  intros Hnd Hx. rewrite map_app. apply NoDup_app. split; [exact Hnd|].
  split; [|apply NoDup_singleton].
  intros y Hy Hy'. apply list_elem_of_singleton in Hy'. subst y. contradiction.
Qed.

Lemma next_op_supply_id_fresh (t : list op_supply_row) :
  next_op_supply_id t ∉ map os_id t.
Proof.
  unfold next_op_supply_id. intros Hin.
  assert (Hmax : ∀ z, z ∈ map os_id t -> z ≤ foldr Z.max 0 (map os_id t)).
  { clear Hin. induction t as [|r t IH]; simpl; intros z Hz.
    - apply elem_of_nil in Hz. contradiction.
    - apply elem_of_cons in Hz as [->|Hz]; [lia|]. specialize (IH z Hz). lia. }
  specialize (Hmax _ Hin). lia.
Qed.

Lemma select_op_supplies_nil (op_id supply_id : Z) (d : db) :
  select_op_supplies op_id supply_id d = [] ->
  (op_id, supply_id) ∉ map (fun r => (os_op_id r, os_supply_id r)) (op_supplies d).
Proof.
  unfold select_op_supplies. intros Hnil Hin.
  apply list_elem_of_fmap in Hin as (r & Hkey & Hr). injection Hkey as Hop Hsup.
  pose proof (List_filter_nil _ _ r Hnil Hr) as Hf. simpl in Hf.
  rewrite <- Hop, <- Hsup, !Z.eqb_refl in Hf. discriminate.
Qed.

Ltac assignments_solver :=
  unfold assignments_unique in *; simpl in *;
  rewrite ?update_op_supplies_keys, ?update_op_supplies_ids;
  try assumption.

Lemma serve_assignments (r : request) (d : db) :
  assignments_unique d -> assignments_unique (serve r d).1.
Proof.
  intros Hd.
  destruct r as [u dest loc items|u loc items|u inv src dst q|u id nm code loc q
                |u inv loc|inv oq loc|u inv oq loc|op sup oq|id|req|id q cost];
    simpl.
  - unfold post_inventory_add. apply hoare_transact; [|exact Hd].
    intros d0 Hd0. tx_simpl.
    destruct (select_location_named "Common Area" u d0) as [|c rows]; [exact I|].
    destruct (loc_id c =? 0); [exact I|].
    assert (Hitem : ∀ x, hoare assignments_unique (add_item u dest loc (loc_id c) x)
                               (fun _ => assignments_unique)).
    { intros x d1 Hd1. unfold add_item, resolve_inventory_id. tx_simpl.
      tx_cases_with assignments_solver. }
    pose proof (hoare_for_of _ items _ Hitem d0 Hd0) as H.
    destruct (for_of items (add_item u dest loc (loc_id c)) d0); simpl; auto.
  - unfold post_inventory_consume.
    destruct ((loc =? 0) || is_empty items); [exact Hd|].
    apply hoare_transact; [|exact Hd].
    eapply hoare_bind; [apply hoare_for_of|].
    + intros x d1 Hd1. unfold consume_item. tx_simpl.
      tx_cases_with assignments_solver.
    + intros t. apply hoare_ret. auto.
  - unfold post_inventory_transfer.
    destruct ((inv =? 0) || (src =? 0) || (dst =? 0) || (q =? 0)); [exact Hd|].
    apply hoare_transact; [|exact Hd]. intros d0 Hd0. tx_simpl.
    tx_cases_with assignments_solver.
  - unfold put_inventory. apply hoare_transact; [|exact Hd].
    intros d0 Hd0. unfold update_inventory. tx_simpl.
    tx_cases_with assignments_solver.
  - unfold delete_inventory_location. apply hoare_transact; [|exact Hd].
    intros d0 Hd0. unfold delete_location_inventory, delete_inventory. tx_simpl.
    tx_cases_with assignments_solver.
  - unfold post_barcode_checkin. destruct oq as [qty|]; [|exact Hd].
    apply hoare_transact; [|exact Hd]. intros d0 Hd0. tx_simpl.
    tx_cases_with assignments_solver.
  - unfold post_barcode_consume. destruct oq as [qty|]; [|exact Hd].
    destruct (qty <=? 0); [exact Hd|].
    apply hoare_transact; [|exact Hd]. intros d0 Hd0. tx_simpl.
    tx_cases_with assignments_solver.
  - unfold post_op_supplies. destruct oq as [qty|]; [|exact Hd].
    destruct (qty <=? 0); [exact Hd|].
    apply hoare_transact; [|exact Hd]. intros d0 [Hkeys Hids]. tx_simpl.
    destruct (supplies d0 !! sup) as [s|]; [|exact I].
    destruct (sup_quantity s <? qty); [exact I|].
    destruct (select_op_supplies op sup _) as [|first rest] eqn:Hsel; simpl.
    + change (op_known op (set_supplies _ d0)) with (op_known op d0).
      destruct (op_known op d0); [|exact I]. split.
      * apply (NoDup_map_snoc (fun r => (os_op_id r, os_supply_id r)));
          [exact Hkeys|].
        apply select_op_supplies_nil in Hsel. exact Hsel.
      * apply (NoDup_map_snoc os_id); [exact Hids|]. apply next_op_supply_id_fresh.
    + unfold assignments_unique. simpl.
      rewrite update_op_supplies_keys, update_op_supplies_ids. split; assumption.
  - unfold delete_op_supplies. apply hoare_transact; [|exact Hd].
    intros d0 [Hkeys Hids]. tx_simpl.
    destruct (List.filter (fun r => os_id r =? id) (op_supplies d0)); [exact I|].
    simpl. split; apply NoDup_map_filter; assumption.
  - unfold post_logs, post_logs_body. apply hoare_transact; [|exact Hd].
    intros d0 Hd0. tx_simpl. tx_cases_with assignments_solver.
  - unfold put_supplies. destruct (supplies d !! id); exact Hd.
Qed.

(** X19: the operatory ledger keeps one row per operatory and supply.  If
    no operatory holds a supply in two rows and no two rows share an id,
    the same holds after every request served: an assignment inserts a row
    only when it found none for the pair, under an id above every id in
    use, and the other routes update or delete rows. *)
Theorem assignments_stay_unique (rs : list request) (d : db) :
  assignments_unique d -> assignments_unique (serve_all rs d).
Proof.
  revert d. induction rs as [|r rs IH]; intros d Hd; [exact Hd|].
  simpl. apply IH, serve_assignments, Hd.
Qed.

Lemma assignments_stay_unique_witness :
  assignments_unique
    (serve_all [PostOpSupplies 2 1 (Some 1); PostOpSupplies 2 1 (Some 1);
                PostLogs (use_supply 1); DeleteOpSupplies 1] operatory).
Proof.
  apply (assignments_stay_unique
           [PostOpSupplies 2 1 (Some 1); PostOpSupplies 2 1 (Some 1);
            PostLogs (use_supply 1); DeleteOpSupplies 1] operatory).
  split; vm_compute; apply NoDup_singleton.
Defined.

Lemma assigned_update_other (op_id supply_id s : Z) (f : Z -> Z)
    (t : list op_supply_row) :
  s ≠ supply_id ->
  foldr (fun r acc => os_quantity r + acc) 0
        (List.filter (fun r => os_supply_id r =? s)
                     (update_op_supplies_where op_id supply_id f t)) =
  foldr (fun r acc => os_quantity r + acc) 0
        (List.filter (fun r => os_supply_id r =? s) t).
Proof.
  intros Hs. unfold update_op_supplies_where.
  induction t as [|r t IH]; [reflexivity|]. simpl.
  destruct (Z.eqb_spec (os_supply_id r) supply_id) as [Heq|Hne].
  - rewrite andb_true_r. destruct (os_op_id r =? op_id); simpl.
    + destruct (Z.eqb_spec (os_supply_id r) s); [congruence|exact IH].
    + destruct (Z.eqb_spec (os_supply_id r) s); [congruence|exact IH].
  - rewrite andb_false_r. destruct (os_supply_id r =? s); simpl; rewrite IH; reflexivity.
Qed.

Lemma update_op_supplies_absent (op_id supply_id : Z) (f : Z -> Z)
    (t : list op_supply_row) :
  (op_id, supply_id) ∉ map (fun r => (os_op_id r, os_supply_id r)) t ->
  update_op_supplies_where op_id supply_id f t = t.
Proof.
  unfold update_op_supplies_where. induction t as [|r t IH]; [reflexivity|].
  simpl. intros Hnot. apply not_elem_of_cons in Hnot as [Hr Ht].
  rewrite (IH Ht).
  destruct (Z.eqb_spec (os_op_id r) op_id) as [Hop|Hop];
    destruct (Z.eqb_spec (os_supply_id r) supply_id) as [Hsup|Hsup];
    simpl; try reflexivity.
  exfalso. apply Hr. rewrite Hop, Hsup. reflexivity.
Qed.

Lemma assigned_update_same (op_id supply_id qty : Z) (t : list op_supply_row) :
  NoDup (map (fun r => (os_op_id r, os_supply_id r)) t) ->
  (op_id, supply_id) ∈ map (fun r => (os_op_id r, os_supply_id r)) t ->
  foldr (fun r acc => os_quantity r + acc) 0
        (List.filter (fun r => os_supply_id r =? supply_id)
                     (update_op_supplies_where op_id supply_id (fun q => q + qty) t)) =
  foldr (fun r acc => os_quantity r + acc) 0
        (List.filter (fun r => os_supply_id r =? supply_id) t) + qty.
Proof.
  induction t as [|r t IH]; simpl; intros Hnd Hin.
  - apply elem_of_nil in Hin. contradiction.
  - apply NoDup_cons in Hnd as [Hr Hnd].
    destruct ((os_op_id r =? op_id) && (os_supply_id r =? supply_id)) eqn:Hkey; simpl.
    + apply andb_true_iff in Hkey as [Hop Hsup]. rewrite Hsup. simpl.
      apply Z.eqb_eq in Hop, Hsup. rewrite Hop, Hsup in Hr.
      fold (update_op_supplies_where op_id supply_id (fun q => q + qty) t).
      rewrite (update_op_supplies_absent _ _ _ _ Hr). lia.
    + apply elem_of_cons in Hin as [Hin|Hin].
      { injection Hin as Ha Hb.
        apply andb_false_iff in Hkey as [Hkey|Hkey]; apply Z.eqb_neq in Hkey;
          congruence. }
      destruct (os_supply_id r =? supply_id); simpl; rewrite (IH Hnd Hin); lia.
Qed.

Lemma assigned_snoc (s : Z) (t : list op_supply_row) (x : op_supply_row) :
  foldr (fun r acc => os_quantity r + acc) 0
        (List.filter (fun r => os_supply_id r =? s) (t ++ [x])) =
  foldr (fun r acc => os_quantity r + acc) 0
        (List.filter (fun r => os_supply_id r =? s) t) +
  (if os_supply_id x =? s then os_quantity x else 0).
Proof.
  induction t as [|r t IH]; simpl.
  - destruct (os_supply_id x =? s); simpl; lia.
  - destruct (os_supply_id r =? s); simpl; rewrite IH; lia.
Qed.

Lemma select_op_supplies_cons (op_id supply_id : Z) (d : db) (first : op_supply_row)
    (rest : list op_supply_row) :
  select_op_supplies op_id supply_id d = first :: rest ->
  (op_id, supply_id) ∈ map (fun r => (os_op_id r, os_supply_id r)) (op_supplies d).
Proof.
  unfold select_op_supplies. intros Hsel.
  assert (Hin : In first (List.filter
            (fun r => (os_op_id r =? op_id) && (os_supply_id r =? supply_id))
            (op_supplies d))) by (rewrite Hsel; left; reflexivity).
  apply filter_In in Hin as [Hin Hkey].
  apply andb_true_iff in Hkey as [Hop Hsup].
  apply Z.eqb_eq in Hop, Hsup.
  apply list_elem_of_fmap. exists first. split; [congruence|].
  apply list_elem_of_In, Hin.
Qed.

(** X20: an assignment moves stock, it makes none.  While no operatory
    holds a supply in two rows, POST /api/op-supplies leaves what the
    practice has of every supply, pool and operatories together, as it
    was: what it takes from the pool it adds to one operatory row, and a
    refused assignment writes nothing. *)
Theorem assignment_conserves_supply
    (op_id supply_id : Z) (quantity : option Z) (d : db) (s : Z) :
  assignments_unique d ->
  supply_total s (post_op_supplies op_id supply_id quantity d).1 = supply_total s d.
Proof.
  intros [Hkeys _]. unfold post_op_supplies.
  destruct quantity as [qty|]; [|reflexivity].
  destruct (qty <=? 0); [reflexivity|].
  unfold transact. tx_simpl.
  destruct (supplies d !! supply_id) as [row|] eqn:Hrow; [|reflexivity].
  destruct (sup_quantity row <? qty); [reflexivity|].
  destruct (select_op_supplies op_id supply_id _) as [|first rest] eqn:Hsel; simpl.
  - change (op_known op_id (set_supplies _ d)) with (op_known op_id d).
    destruct (op_known op_id d); [|reflexivity].
    unfold supply_total, assigned_quantity, update_supplies_quantity. simpl.
    rewrite assigned_snoc. simpl. rewrite lookup_alter.
    destruct (decide (supply_id = s)) as [->|Hne].
    + rewrite Hrow, Z.eqb_refl. simpl. lia.
    + apply Z.eqb_neq in Hne. rewrite Hne. lia.
  - apply select_op_supplies_cons in Hsel. simpl in Hsel.
    unfold supply_total, assigned_quantity, update_supplies_quantity. simpl.
    rewrite lookup_alter.
    destruct (decide (supply_id = s)) as [->|Hne].
    + rewrite Hrow. simpl. rewrite (assigned_update_same _ _ _ _ Hkeys Hsel). lia.
    + rewrite assigned_update_other by congruence. reflexivity.
Qed.

Lemma assignment_conserves_supply_witness :
  supply_total 1 (post_op_supplies 2 1 (Some 2) operatory).1 = supply_total 1 operatory.
Proof.
  apply (assignment_conserves_supply 2 1 (Some 2) operatory 1).
  split; vm_compute; apply NoDup_singleton.
Defined.

(** Without the one-row-per-pair premise the assignment is not
    conservative: with two rows for the pair, one unit leaves the pool and
    each row gains one. *)
Example assignment_to_doubled_rows :
  supply_total 1 doubled = 5 ∧
  supply_total 1 (post_op_supplies 2 1 (Some 1) doubled).1 = 6.
Proof. split; vm_compute; reflexivity. Qed.

Lemma filter_other_ids (id : Z) (t : list op_supply_row) :
  id ∉ map os_id t -> List.filter (fun r => negb (os_id r =? id)) t = t.
Proof.
  induction t as [|r t IH]; [reflexivity|]. simpl. intros Hnot.
  apply not_elem_of_cons in Hnot as [Hr Ht].
  destruct (Z.eqb_spec (os_id r) id) as [Heq|Hne]; [congruence|].
  simpl. rewrite (IH Ht). reflexivity.
Qed.

Lemma assigned_delete (s : Z) (row : op_supply_row) (t : list op_supply_row) :
  NoDup (map os_id t) -> row ∈ t ->
  foldr (fun r acc => os_quantity r + acc) 0
        (List.filter (fun r => os_supply_id r =? s)
                     (List.filter (fun r => negb (os_id r =? os_id row)) t)) =
  foldr (fun r acc => os_quantity r + acc) 0
        (List.filter (fun r => os_supply_id r =? s) t) -
  (if os_supply_id row =? s then os_quantity row else 0).
Proof.
  induction t as [|r t IH]; simpl; intros Hnd Hin.
  - apply elem_of_nil in Hin. contradiction.
  - apply NoDup_cons in Hnd as [Hr Hnd].
    apply elem_of_cons in Hin as [<-|Hin].
    + rewrite Z.eqb_refl. simpl. rewrite (filter_other_ids _ _ Hr).
      destruct (os_supply_id row =? s); simpl; lia.
    + destruct (Z.eqb_spec (os_id r) (os_id row)) as [Heq|Hne]; simpl.
      * exfalso. apply Hr. rewrite Heq. apply list_elem_of_fmap.
        exists row. split; [reflexivity|exact Hin].
      * destruct (os_supply_id r =? s); simpl; rewrite (IH Hnd Hin); lia.
Qed.

(** X21: deleting an assignment does not give the stock back.  While no
    two rows of the operatory ledger share an id, DELETE
    /api/op-supplies/:id of a row that is there answers success, leaves
    the pool table as it was, and what the practice has of the row's
    supply drops by the quantity the row held; of every other supply it
    has what it had. *)
Theorem delete_assignment_forgets_stock (row : op_supply_row) (d : db) :
  assignments_unique d -> row ∈ op_supplies d ->
  status (delete_op_supplies (os_id row) d).2 = 200 ∧
  supplies (delete_op_supplies (os_id row) d).1 = supplies d ∧
  ∀ s, supply_total s (delete_op_supplies (os_id row) d).1 =
       supply_total s d - (if os_supply_id row =? s then os_quantity row else 0).
Proof.
  intros [_ Hids] Hin. unfold delete_op_supplies, transact. tx_simpl.
  destruct (List.filter (fun r => os_id r =? os_id row) (op_supplies d)) eqn:Hfetch.
  - pose proof (List_filter_nil _ _ row Hfetch Hin) as Hf. simpl in Hf.
    rewrite Z.eqb_refl in Hf. discriminate.
  - simpl. split; [reflexivity|]. split; [reflexivity|]. intros s.
    unfold supply_total, assigned_quantity. simpl.
    rewrite (assigned_delete s row _ Hids Hin). lia.
Qed.

Lemma delete_assignment_forgets_stock_witness :
  status (delete_op_supplies 1 operatory).2 = 200 ∧
  supplies (delete_op_supplies 1 operatory).1 = supplies operatory ∧
  ∀ s, supply_total s (delete_op_supplies 1 operatory).1 =
       supply_total s operatory - (if 1 =? s then 3 else 0).
Proof.
  refine (delete_assignment_forgets_stock
            {| os_id := 1; os_op_id := 1; os_supply_id := 1; os_quantity := 3 |}
            operatory _ _).
  - split; vm_compute; apply NoDup_singleton.
  - apply list_elem_of_here.
Defined.

(** X22: a scan check-in is undone by the scan consume.  For an item of
    the caller and a non-negative quantity at the location, take a scan
    check-in of a quantity above zero.  It answers 200 when the item has a
    row at the location or the location exists, and the sum is within the
    4-byte integers.  Whenever it answers 200, consuming the same quantity
    there answers 200 too and leaves every quantity of the location ledger
    as it was before the check-in (an absent row read as zero). *)
Theorem scan_checkin_then_consume
    (userId inventory_id qty location_id : Z) (d : db)
    (r : inventory_row) (rows : list inventory_row) :
  0 < qty ->
  select_inventory_by_id inventory_id d = r :: rows -> inv_user_id r = userId ->
  0 ≤ quantity_at d inventory_id location_id ->
  (is_Some (location_inventory d !! (inventory_id, location_id)) ∨
   (∃ l, l ∈ locations d ∧ loc_id l = location_id) ->
   quantity_at d inventory_id location_id + qty ≤ 2147483647 ->
   status (post_barcode_checkin inventory_id (Some qty) location_id d).2 = 200) ∧
  (status (post_barcode_checkin inventory_id (Some qty) location_id d).2 = 200 ->
   status (post_barcode_consume userId inventory_id (Some qty) location_id
             (post_barcode_checkin inventory_id (Some qty) location_id d).1).2 = 200 ∧
   ∀ i l,
     quantity_at
       (post_barcode_consume userId inventory_id (Some qty) location_id
          (post_barcode_checkin inventory_id (Some qty) location_id d).1).1 i l =
     quantity_at d i l).
Proof.
  intros Hqty Hsel Howner Hcur.
  unfold post_barcode_checkin, post_barcode_consume, transact, quantity_at in *.
  destruct (Z.leb_spec qty 0) as [|_]; [lia|].
  tx_simpl.
  destruct (location_inventory d !! (inventory_id, location_id)) as [cur|] eqn:Hrow;
    simpl in *.
  - destruct (Z.ltb_spec (cur + qty) 0) as [|_]; [lia|]. simpl.
    destruct (int4 (cur + qty)) eqn:Hint; simpl.
    + split; [reflexivity|]. intros _.
      unfold select_inventory_by_id in *. simpl. rewrite Hsel, Howner, Z.eqb_refl. simpl.
      rewrite lookup_alter, decide_True by reflexivity. rewrite Hrow. simpl.
      destruct (Z.ltb_spec (cur + qty) qty) as [|_]; [lia|]. simpl.
      split; [reflexivity|]. intros i l.
      rewrite lookup_alter.
      case_decide as Hk; [|rewrite lookup_alter, decide_False by auto; reflexivity].
      injection Hk as -> ->. rewrite lookup_alter, decide_True by reflexivity.
      rewrite Hrow. simpl. f_equal. lia.
    + split; [|discriminate]. intros _ Hmax.
      rewrite int4_true in Hint by lia. discriminate.
  - destruct (Z.ltb_spec (0 + qty) 0) as [|_]; [lia|].
    destruct (Z.ltb_spec qty 0) as [|_]; [lia|]. simpl.
    destruct (int4 qty) eqn:Hint; simpl.
    + destruct (location_known location_id d) eqn:Hknown; simpl.
      * split; [reflexivity|]. intros _.
        unfold select_inventory_by_id in *. simpl. rewrite Hsel, Howner, Z.eqb_refl. simpl.
        rewrite lookup_insert, decide_True by reflexivity. simpl.
        rewrite Z.ltb_irrefl. simpl.
        split; [reflexivity|]. intros i l.
        rewrite lookup_alter.
        case_decide as Hk; [|rewrite lookup_insert, decide_False by auto; reflexivity].
        injection Hk as -> ->. rewrite lookup_insert, decide_True by reflexivity.
        rewrite Hrow. simpl. f_equal. lia.
      * split; [|discriminate]. intros [[x Hx]|Hloc] _; [discriminate|].
        apply location_known_elem in Hloc. congruence.
    + split; [|discriminate]. intros _ Hmax.
      rewrite int4_true in Hint by lia. discriminate.
Qed.

Lemma scan_checkin_then_consume_witness :
  status (post_barcode_checkin 1 (Some 5) 12 practice).2 = 200 ∧
  status (post_barcode_consume 7 1 (Some 5) 12
            (post_barcode_checkin 1 (Some 5) 12 practice).1).2 = 200 ∧
  quantity_at (post_barcode_consume 7 1 (Some 5) 12
                 (post_barcode_checkin 1 (Some 5) 12 practice).1).1 1 12 =
    quantity_at practice 1 12.
Proof.
  assert (Hpos : 0 < 5) by lia.
  assert (Hcur : 0 ≤ quantity_at practice 1 12) by (vm_compute; discriminate).
  destruct (scan_checkin_then_consume 7 1 5 12 practice _ _ Hpos eq_refl eq_refl Hcur)
    as [Hin Hout].
  assert (Hok : status (post_barcode_checkin 1 (Some 5) 12 practice).2 = 200).
  { apply Hin; [|vm_compute; discriminate].
    right. exists {| loc_id := 12; loc_name := "Room B"; loc_user_id := 7 |}.
    split; [|reflexivity]. do 2 apply list_elem_of_further. apply list_elem_of_here. }
  split; [exact Hok|]. destruct (Hout Hok) as [Hc Hq]. split; [exact Hc|apply Hq].
Defined.

(** ** Names as patterns *)

Lemma plain_no_backslash (s : string) : plain s = true -> has_backslash s = false.
Proof.
  induction s as [|c s IH]; [reflexivity|]. simpl. intros H.
  apply andb_true_iff in H as [Hc Hs]. apply negb_true_iff in Hc.
  apply orb_false_iff in Hc as [_ Hb]. rewrite Hb, (IH Hs). reflexivity.
Qed.

Lemma MatchText_plain (pattern : string) :
  plain pattern = true ->
  ∀ text, MatchText pattern text = LIKE_TRUE ↔ fold_case pattern = fold_case text.
Proof.
  induction pattern as [|c p1 IH]; intros Hplain text.
  { destruct text; simpl; split; congruence. }
  simpl in Hplain. apply andb_true_iff in Hplain as [Hc Hp1].
  apply negb_true_iff in Hc. apply orb_false_iff in Hc as [Hc Hb].
  apply orb_false_iff in Hc as [Hp Hu].
  destruct text as [|x text'].
  - simpl. rewrite Hp. simpl. split; discriminate.
  - rewrite MatchText_cons, Hb, Hp, Hu. unfold same_char. simpl.
    destruct (Ascii.eqb_spec (lower c) (lower x)) as [Hcx|Hcx].
    + rewrite (IH Hp1 text'). split; [intros ->; rewrite Hcx; reflexivity|].
      intros [= _ H]. exact H.
    + split; [discriminate|]. intros [= H _]. contradiction.
Qed.

Lemma ilike_plain (pattern : string) :
  plain pattern = true ->
  ∀ text, ilike pattern text = Some (String.eqb (fold_case pattern) (fold_case text)).
Proof.
  intros Hplain text. unfold ilike.
  pose proof (MatchText_plain pattern Hplain text) as Hiff.
  pose proof (proj1 (MatchText_no_error pattern (plain_no_backslash pattern Hplain) text))
    as Herror.
  destruct (String.eqb_spec (fold_case pattern) (fold_case text)) as [Heq|Hne].
  - rewrite (proj2 Hiff Heq). reflexivity.
  - destruct (MatchText pattern text); try reflexivity; [|contradiction].
    exfalso. apply Hne, Hiff. reflexivity.
Qed.

Lemma select_inventory_ilike_filter (nm : string) (userId : Z) (t : list inventory_row) :
  has_backslash nm = false ->
  select_inventory_ilike nm userId t =
    Some (List.filter (fun r => (inv_user_id r =? userId) &&
                                bool_decide (ilike nm (inv_name r) = Some true)) t).
Proof.
  intros Hb. induction t as [|r t IH]; [reflexivity|]. simpl. rewrite IH.
  destruct (inv_user_id r =? userId); [|reflexivity]. simpl.
  pose proof (ilike_no_error nm Hb (inv_name r)) as Hne.
  destruct (ilike nm (inv_name r)) as [[]|]; [reflexivity|reflexivity|congruence].
Qed.

(** X23: for a name with no pattern character in it, the lookup by name
    of the add route is a lookup by equality up to case.  [name ILIKE $1]
    then never raises and selects exactly the user's rows whose name is
    the given one up to ASCII case, in table order. *)
Theorem ilike_lookup_of_plain_name (nm : string) (userId : Z) (t : list inventory_row) :
  plain nm = true ->
  select_inventory_ilike nm userId t = Some (named_like nm userId t).
Proof.
  intros Hplain. rewrite select_inventory_ilike_filter by apply plain_no_backslash, Hplain.
  f_equal. unfold named_like. induction t as [|r t IH]; [reflexivity|]. simpl.
  rewrite IH, (ilike_plain nm Hplain).
  destruct (inv_user_id r =? userId); [|reflexivity]. simpl.
  destruct (String.eqb (fold_case nm) (fold_case (inv_name r))); reflexivity.
Qed.

Lemma ilike_lookup_of_plain_name_witness :
  select_inventory_ilike "GAUZE" 7 (inventory practice) =
    Some (named_like "GAUZE" 7 (inventory practice)).
Proof.
  apply (ilike_lookup_of_plain_name "GAUZE" 7 (inventory practice)). reflexivity.
Defined.

Lemma ilike_any (text : string) : ilike "%" text = Some true.
Proof. destruct text; reflexivity. Qed.

Lemma has_backslash_app (a b : string) :
  has_backslash (a +:+ b) = has_backslash a || has_backslash b.
Proof.
  induction a as [|c a IH]; [reflexivity|].
  change (String c a +:+ b) with (String c (a +:+ b)). simpl.
  rewrite IH, orb_assoc. reflexivity.
Qed.

Lemma ilike_plain_then_any (p text : string) :
  plain p = true ->
  ilike (p +:+ "%") text = Some (String.prefix (fold_case p) (fold_case text)).
Proof.
  revert text. induction p as [|c p IH]; intros text Hplain.
  - rewrite ilike_any. destruct text; reflexivity.
  - simpl in Hplain. apply andb_true_iff in Hplain as [Hc Hp].
    apply negb_true_iff in Hc. apply orb_false_iff in Hc as [Hc Hb].
    apply orb_false_iff in Hc as [Hpc Hu].
    change (String c p +:+ "%") with (String c (p +:+ "%")).
    destruct text as [|x text].
    + unfold ilike. simpl. rewrite Hpc. reflexivity.
    + specialize (IH text Hp). unfold ilike in *.
      rewrite MatchText_cons, Hb, Hpc, Hu. simpl. unfold same_char.
      destruct (ascii_dec (lower c) (lower x)) as [->|Hne].
      * rewrite Ascii.eqb_refl. exact IH.
      * apply Ascii.eqb_neq in Hne. rewrite Hne. reflexivity.
Qed.

(** X24: a name is a pattern.  Take a new item with a quantity above zero
    whose name is a text without pattern characters followed by [%].  If,
    in table order, [first] is the first item of the user whose name
    starts with that text up to ASCII case, the add route gives the new
    item no catalog row of its own: the movement is applied to [first]. *)
Theorem new_item_named_with_wildcard_merges
    (userId : Z) (item : supply_item) (d : db) (p : string)
    (pre post : list inventory_row) (first : inventory_row) :
  isNew item = true -> name item = p +:+ "%" -> plain p = true ->
  0 < quantity item ->
  inventory d = pre ++ first :: post ->
  inv_user_id first = userId ->
  String.prefix (fold_case p) (fold_case (inv_name first)) = true ->
  (∀ x, x ∈ pre -> inv_user_id x = userId ->
        String.prefix (fold_case p) (fold_case (inv_name x)) = false) ->
  resolve_inventory_id userId item d = Next (Some (inv_id first)) d.
Proof.
  intros Hnew Hname Hplain Hq Hinv Hu Hfirst Hpre.
  unfold resolve_inventory_id. rewrite Hnew.
  assert (Hne : String.eqb (name item) "" = false).
  { rewrite Hname. destruct p; reflexivity. }
  rewrite Hne. simpl.
  assert (Hpos : js_le_0 (item_quantity item) = false).
  { unfold quantity in Hq. destruct (item_quantity item) as [q|]; simpl in *; [|lia].
    apply Z.leb_gt, Hq. }
  rewrite Hpos. tx_simpl.
  assert (Hb : has_backslash (name item) = false).
  { rewrite Hname, has_backslash_app, (plain_no_backslash p Hplain). reflexivity. }
  rewrite (select_inventory_ilike_filter _ userId _ Hb), Hinv, List.filter_app, Hname.
  rewrite List_filter_empty.
  - simpl. rewrite Hu, Z.eqb_refl, (ilike_plain_then_any p _ Hplain), Hfirst. reflexivity.
  - intros x Hx. destruct (Z.eqb_spec (inv_user_id x) userId) as [Hxu|]; [|reflexivity].
    rewrite (ilike_plain_then_any p _ Hplain), (Hpre x Hx Hxu). reflexivity.
Qed.

Lemma new_item_named_with_wildcard_merges_witness :
  resolve_inventory_id 7 (new_item "gl%" 3) practice = Next (Some 2) practice.
Proof.
  refine (new_item_named_with_wildcard_merges 7 (new_item "gl%" 3) practice "gl"
            [{| inv_id := 1; inv_name := "Gauze"; inv_barcode := None; inv_user_id := 7 |}]
            []
            {| inv_id := 2; inv_name := "Gloves"; inv_barcode := Some "123";
               inv_user_id := 7 |}
            _ _ _ _ _ _ _ _).
  - reflexivity.
  - reflexivity.
  - reflexivity.
  - reflexivity.
  - reflexivity.
  - reflexivity.
  - reflexivity.
  - intros x Hx _. apply list_elem_of_singleton in Hx. subst x. reflexivity.
Defined.

(** ** Transfers *)

Lemma post_inventory_transfer_run
    (userId inventory_id source_location_id destination_location_id quantity : Z)
    (d : db) (sourceQty : Z) :
  inventory_id ≠ 0 -> source_location_id ≠ 0 -> destination_location_id ≠ 0 ->
  quantity ≠ 0 ->
  select_inventory_owned inventory_id userId d ≠ [] ->
  location_inventory d !! (inventory_id, source_location_id) = Some sourceQty ->
  quantity ≤ sourceQty ->
  is_Some (location_inventory d !! (inventory_id, destination_location_id)) ∨
  (∃ l, l ∈ locations d ∧ loc_id l = destination_location_id) ->
  post_inventory_transfer userId inventory_id source_location_id
    destination_location_id quantity d =
  (set_location_inventory
     (<[(inventory_id, destination_location_id) :=
          default 0 (<[(inventory_id, source_location_id) := sourceQty - quantity]>
                       (location_inventory d) !! (inventory_id, destination_location_id))
          + quantity]>
        (<[(inventory_id, source_location_id) := sourceQty - quantity]>
           (location_inventory d))) d,
   res_json JSuccess).
Proof.
  intros Hinv Hsrc Hdst Hq Howned Hrow Hle Hdest. unfold post_inventory_transfer.
  apply Z.eqb_neq in Hinv, Hsrc, Hdst, Hq. rewrite Hinv, Hsrc, Hdst, Hq. simpl.
  unfold transact. tx_simpl.
  destruct (select_inventory_owned inventory_id userId d) eqn:Hsel; [contradiction|].
  simpl. rewrite Hrow. simpl.
  destruct (Z.ltb_spec sourceQty quantity) as [|_]; [lia|]. simpl.
  rewrite (alter_present _ _ _ _ Hrow).
  destruct (<[(inventory_id, source_location_id) := sourceQty - quantity]>
              (location_inventory d) !! (inventory_id, destination_location_id))
    eqn:Hthere; [reflexivity|].
  change (location_known destination_location_id (set_location_inventory _ d))
    with (location_known destination_location_id d).
  destruct Hdest as [[x Hx]|Hloc].
  - exfalso. rewrite lookup_insert in Hthere.
    case_decide; [discriminate|]. congruence.
  - rewrite (proj2 (location_known_elem _ _) Hloc). reflexivity.
Qed.

(** X25: when POST /api/inventory/transfer commits.  If it answers 200,
    the four fields are there (none is 0), the item is the caller's, the
    item has a row at the source that holds at least the quantity asked,
    and the destination is a location of the store or one at which the
    item has a row already.  These conditions are enough when the
    quantity and the two quantities the statements compute are within the
    4-byte integers of the column, which is where the integer arithmetic
    of this model is that of the store.  Nothing is asked of the sign of
    the quantity: one below zero is always covered by a source row that is
    not below zero. *)
Theorem transfer_commits_exactly_when
    (userId inventory_id source_location_id destination_location_id quantity : Z)
    (d : db) :
  (status (post_inventory_transfer userId inventory_id source_location_id
             destination_location_id quantity d).2 = 200 ->
   inventory_id ≠ 0 ∧ source_location_id ≠ 0 ∧ destination_location_id ≠ 0 ∧
   quantity ≠ 0 ∧
   select_inventory_owned inventory_id userId d ≠ [] ∧
   (∃ sourceQty,
      location_inventory d !! (inventory_id, source_location_id) = Some sourceQty ∧
      quantity ≤ sourceQty) ∧
   (is_Some (location_inventory d !! (inventory_id, destination_location_id)) ∨
    ∃ l, l ∈ locations d ∧ loc_id l = destination_location_id)) ∧
  (inventory_id ≠ 0 -> source_location_id ≠ 0 -> destination_location_id ≠ 0 ->
   quantity ≠ 0 ->
   select_inventory_owned inventory_id userId d ≠ [] ->
   ∀ sourceQty,
     location_inventory d !! (inventory_id, source_location_id) = Some sourceQty ->
     quantity ≤ sourceQty ->
     is_Some (location_inventory d !! (inventory_id, destination_location_id)) ∨
     (∃ l, l ∈ locations d ∧ loc_id l = destination_location_id) ->
     -2147483648 ≤ quantity ≤ 2147483647 ->
     sourceQty - quantity ≤ 2147483647 ->
     -2147483648 ≤ quantity_at d inventory_id destination_location_id + quantity
       ≤ 2147483647 ->
     status (post_inventory_transfer userId inventory_id source_location_id
               destination_location_id quantity d).2 = 200).
Proof.
  split.
  - unfold post_inventory_transfer.
    destruct (Z.eqb_spec inventory_id 0); [discriminate|].
    destruct (Z.eqb_spec source_location_id 0); [discriminate|].
    destruct (Z.eqb_spec destination_location_id 0); [discriminate|].
    destruct (Z.eqb_spec quantity 0); [discriminate|]. simpl.
    unfold transact. tx_simpl.
    destruct (select_inventory_owned inventory_id userId d) eqn:Hsel; [discriminate|].
    simpl.
    destruct (location_inventory d !! (inventory_id, source_location_id))
      as [sourceQty|] eqn:Hrow; [|discriminate]. simpl.
    destruct (Z.ltb_spec sourceQty quantity); [discriminate|]. simpl.
    rewrite (alter_present _ _ _ _ Hrow).
    assert (Hsource : ∃ sourceQty0,
              Some sourceQty = Some sourceQty0 ∧ quantity ≤ sourceQty0).
    { exists sourceQty. split; [reflexivity|lia]. }
    destruct (<[(inventory_id, source_location_id) := sourceQty - quantity]>
                (location_inventory d) !! (inventory_id, destination_location_id))
      as [current|] eqn:Hthere; simpl.
    + intros _. repeat (split; [assumption || discriminate|]).
      left. rewrite lookup_insert in Hthere. case_decide as Hk.
      * injection Hk as <-. rewrite Hrow. eexists. reflexivity.
      * rewrite Hthere. eexists. reflexivity.
    + change (location_known destination_location_id (set_location_inventory _ d))
        with (location_known destination_location_id d).
      destruct (location_known destination_location_id d) eqn:Hknown; simpl.
      * intros _. repeat (split; [assumption || discriminate|]).
        right. apply location_known_elem, Hknown.
      * answers_error.
  - intros Hinv Hsrc Hdst Hq Howned sourceQty Hrow Hle Hdest _ _ _.
    rewrite (post_inventory_transfer_run _ _ _ _ _ _ sourceQty); auto.
Qed.

Lemma transfer_commits_exactly_when_witness :
  status (post_inventory_transfer 7 1 11 12 (-3) practice).2 = 200.
Proof.
  refine (proj2 (transfer_commits_exactly_when 7 1 11 12 (-3) practice)
            _ _ _ _ _ 6 _ _ _ _ _ _).
  - discriminate.
  - discriminate.
  - discriminate.
  - discriminate.
  - discriminate.
  - reflexivity.
  - lia.
  - right. exists {| loc_id := 12; loc_name := "Room B"; loc_user_id := 7 |}.
    split; [|reflexivity]. do 2 apply list_elem_of_further. apply list_elem_of_here.
  - lia.
  - lia.
  - vm_compute. split; discriminate.
Defined.

(** X26: a transfer back undoes a transfer.  After a committed transfer
    between two different locations, when the destination was not below
    zero before it, the transfer of the same quantity the other way
    commits as well and leaves every quantity of the location ledger as it
    was before the two (an absent row read as zero). *)
Theorem transfer_there_and_back
    (userId inventory_id source_location_id destination_location_id quantity : Z)
    (d : db) :
  status (post_inventory_transfer userId inventory_id source_location_id
            destination_location_id quantity d).2 = 200 ->
  source_location_id ≠ destination_location_id ->
  0 ≤ quantity_at d inventory_id destination_location_id ->
  status (post_inventory_transfer userId inventory_id destination_location_id
            source_location_id quantity
            (post_inventory_transfer userId inventory_id source_location_id
               destination_location_id quantity d).1).2 = 200 ∧
  ∀ i l,
    quantity_at
      (post_inventory_transfer userId inventory_id destination_location_id
         source_location_id quantity
         (post_inventory_transfer userId inventory_id source_location_id
            destination_location_id quantity d).1).1 i l =
    quantity_at d i l.
Proof.
  intros Hok Hne Hdest.
  destruct (post_inventory_transfer userId inventory_id source_location_id
              destination_location_id quantity d) as [d1 r1] eqn:Hrun.
  simpl in Hok.
  assert (Hfields :
    inventory_id ≠ 0 ∧ source_location_id ≠ 0 ∧ destination_location_id ≠ 0 ∧
    quantity ≠ 0 ∧ select_inventory_owned inventory_id userId d ≠ []).
  { revert Hrun. unfold post_inventory_transfer.
    destruct (Z.eqb_spec inventory_id 0); [intros [= <- <-]; discriminate|].
    destruct (Z.eqb_spec source_location_id 0); [intros [= <- <-]; discriminate|].
    destruct (Z.eqb_spec destination_location_id 0); [intros [= <- <-]; discriminate|].
    destruct (Z.eqb_spec quantity 0); [intros [= <- <-]; discriminate|]. simpl.
    unfold transact. tx_simpl.
    destruct (select_inventory_owned inventory_id userId d);
      [intros [= <- <-]; discriminate|].
    intros _. repeat (split; [assumption|]). discriminate. }
  destruct Hfields as (Hinv & Hsrc & Hdst & Hq & Howned).
  destruct (post_inventory_transfer_success _ _ _ _ _ _ _ _ Hrun Hok)
    as (sourceQty & Hrow & Hle & Hd1).
  simpl in Hd1. subst d1. simpl.
  unfold quantity_at in Hdest.
  assert (Hkeys : (inventory_id, source_location_id) ≠
                  (inventory_id, destination_location_id)) by congruence.
  rewrite (lookup_insert_ne _ _ _ _ Hkeys).
  set (destQty := default 0 (location_inventory d !! (inventory_id, destination_location_id)))
    in *.
  erewrite (post_inventory_transfer_run _ _ _ _ _ _ (destQty + quantity)); auto.
  - split; [reflexivity|]. intros i l. unfold quantity_at. simpl.
    assert (Hkeys' : (inventory_id, destination_location_id) ≠
                     (inventory_id, source_location_id)) by congruence.
    rewrite (lookup_insert_ne _ _ _ _ Hkeys'), (lookup_insert_ne _ _ _ _ Hkeys').
    rewrite lookup_insert_eq. simpl.
    destruct (decide ((inventory_id, source_location_id) = (i, l))) as [Hk|Hk].
    + rewrite <- Hk, lookup_insert_eq, Hrow. simpl. lia.
    + rewrite (lookup_insert_ne _ _ _ _ Hk).
      destruct (decide ((inventory_id, destination_location_id) = (i, l))) as [Hk'|Hk'].
      * rewrite <- Hk', lookup_insert_eq. simpl. unfold destQty. lia.
      * rewrite (lookup_insert_ne _ _ _ _ Hk'), (lookup_insert_ne _ _ _ _ Hk'),
          (lookup_insert_ne _ _ _ _ Hk).
        reflexivity.
  - simpl. apply lookup_insert_eq.
  - lia.
  - left. simpl.
    assert (Hkeys' : (inventory_id, destination_location_id) ≠
                     (inventory_id, source_location_id)) by congruence.
    rewrite (lookup_insert_ne _ _ _ _ Hkeys'), lookup_insert_eq. eexists. reflexivity.
Qed.

Lemma transfer_there_and_back_witness :
  status (post_inventory_transfer 7 1 12 11 4
            (post_inventory_transfer 7 1 11 12 4 practice).1).2 = 200 ∧
  ∀ i l,
    quantity_at
      (post_inventory_transfer 7 1 12 11 4
         (post_inventory_transfer 7 1 11 12 4 practice).1).1 i l =
    quantity_at practice i l.
Proof.
  refine (transfer_there_and_back 7 1 11 12 4 practice _ _ _).
  - reflexivity.
  - discriminate.
  - vm_compute. discriminate.
Defined.

(** ** Logging a use and its return *)

Lemma update_op_supplies_undo (op_id supply_id q : Z) (t : list op_supply_row) :
  update_op_supplies_where op_id supply_id (fun current => current + q)
    (update_op_supplies_where op_id supply_id (fun current => current - q) t) = t.
Proof.
  unfold update_op_supplies_where. induction t as [|r t IH]; [reflexivity|].
  simpl. rewrite IH.
  destruct ((os_op_id r =? op_id) && (os_supply_id r =? supply_id)) eqn:Hkey; simpl.
  - rewrite Hkey. destruct r as [i o s x]. simpl. do 2 f_equal. lia.
  - rewrite Hkey. reflexivity.
Qed.

Lemma update_supplies_undo (id q : Z) (t : gmap Z supply_row) :
  update_supplies_quantity id (fun current => current + q)
    (update_supplies_quantity id (fun current => current - q) t) = t.
Proof.
  unfold update_supplies_quantity. apply map_eq. intros j.
  destruct (decide (id = j)) as [<-|Hj].
  - rewrite !lookup_alter, !decide_True by reflexivity.
    destruct (t !! id) as [[x c]|]; [|reflexivity]. simpl. do 2 f_equal. lia.
  - rewrite !lookup_alter, !decide_False by exact Hj. reflexivity.
Qed.

Lemma post_logs_store (req : log_request) (d : db) :
  status (post_logs req d).2 = 200 ->
  ∃ supply,
    supplies d !! lr_supply_id req = Some supply ∧
    (post_logs req d).1 =
      set_supply_logs
        (supply_logs d ++
         [{| lg_user_id := lr_user_id req; lg_op_id := lr_op_id req;
             lg_supply_id := lr_supply_id req; lg_quantity := lr_quantity req;
             lg_action := lr_action req;
             lg_unit_cost := parseFloat_or_0 (sup_cost_per_unit supply);
             lg_total_cost := PrimFloat.mul (parseFloat_or_0 (sup_cost_per_unit supply))
                                            (Number (lr_quantity req));
             lg_procedure_id := or_null (lr_procedure_id req) |}])
        (set_supplies
           (update_supplies_quantity (lr_supply_id req)
              (fun current => apply_action (lr_action req) current (lr_quantity req))
              (supplies d))
           (set_op_supplies
              (update_op_supplies_where (lr_op_id req) (lr_supply_id req)
                 (fun current => apply_action (lr_action req) current (lr_quantity req))
                 (op_supplies d)) d)).
Proof.
  intros Hok. pose proof (post_logs_cases req d) as H.
  destruct (supplies d !! lr_supply_id req) as [supply|] eqn:Hsup;
    [|rewrite H in Hok; discriminate].
  destruct (op_known (lr_op_id req) d) eqn:Hop; [|rewrite H in Hok; discriminate].
  rewrite H. exists supply. split; reflexivity.
Qed.

(** X27: logging a return undoes the stock change of logging a use.  When
    POST /api/logs with action use and then POST /api/logs with any other
    action, for the same operatory, supply and quantity, both answer 200,
    the pool is as it was before the two, the operatory ledger holds the
    rows it held, and the audit log is two rows longer, both at the same
    total cost.  Any action that is not use adds. *)
Theorem log_return_undoes_use (use ret : log_request) (d : db) :
  lr_action use = "use" -> lr_action ret ≠ "use" ->
  lr_op_id ret = lr_op_id use -> lr_supply_id ret = lr_supply_id use ->
  lr_quantity ret = lr_quantity use ->
  status (post_logs use d).2 = 200 ->
  status (post_logs ret (post_logs use d).1).2 = 200 ->
  supplies (post_logs ret (post_logs use d).1).1 = supplies d ∧
  op_supplies (post_logs ret (post_logs use d).1).1 ≡ₚ op_supplies d ∧
  ∃ used returned,
    supply_logs (post_logs ret (post_logs use d).1).1 =
      supply_logs d ++ [used; returned] ∧
    lg_action used = "use" ∧ lg_action returned = lr_action ret ∧
    lg_quantity used = lr_quantity use ∧ lg_quantity returned = lr_quantity use ∧
    lg_total_cost returned = lg_total_cost used.
Proof.
  intros Huse Hret Hop Hsup Hq Hok1 Hok2.
  apply String.eqb_neq in Hret.
  destruct (post_logs_store ret _ Hok2) as (s2 & Hrow2 & ->).
  destruct (post_logs_store use d Hok1) as (s1 & Hrow1 & Hd1).
  rewrite Hd1 in Hrow2 |- *. clear Hd1. simpl in Hrow2 |- *.
  unfold update_supplies_quantity in Hrow2.
  rewrite Hsup, lookup_alter_eq, Hrow1 in Hrow2. simpl in Hrow2.
  injection Hrow2 as <-. simpl.
  unfold apply_action. rewrite Huse, Hret, Hop, Hsup, Hq. simpl.
  split; [apply update_supplies_undo|].
  split; [rewrite update_op_supplies_undo; reflexivity|].
  eexists _, _. split; [rewrite <- app_assoc; reflexivity|].
  repeat split; reflexivity.
Qed.

Lemma log_return_undoes_use_witness :
  supplies (post_logs
              {| lr_user_id := 7; lr_op_id := 1; lr_supply_id := 1; lr_quantity := 2;
                 lr_action := "wasted"; lr_procedure_id := None |}
              (post_logs (use_supply 2) operatory).1).1 = supplies operatory.
Proof.
  refine (proj1 (log_return_undoes_use (use_supply 2)
            {| lr_user_id := 7; lr_op_id := 1; lr_supply_id := 1; lr_quantity := 2;
               lr_action := "wasted"; lr_procedure_id := None |}
            operatory _ _ _ _ _ _ _)).
  - reflexivity.
  - discriminate.
  - reflexivity.
  - reflexivity.
  - reflexivity.
  - reflexivity.
  - reflexivity.
Defined.
